(** * Stock viewer backend: synchronization and scoring pipeline

    A shallow embedding of the Go packages [stockviewer], [stocks],
    [recommendation], [karenai] and [mocks], and the properties of the
    synchronization + scoring pipeline proved about it.

    Conventions of the embedding:
    - [float64] is IEEE 754 binary64: a finite value is a rational ([Qc]),
      and every operation rounds its exact result to the nearest binary64
      value, a tie to the even one, with the overflow to an infinity and the
      gradual underflow; [+Inf], [-Inf] and [NaN] follow the rules Go uses.
      Each operation rounds on its own, as on amd64 (no fused multiply-add).
      The sign of zero is not modelled.  The type holds every rational:
      where a statement needs its finite arguments to be binary64 values,
      as the fields of a stock are, it says so ([representable]).
    - Go [string] is [string] (a sequence of 8-bit characters).
    - Go [int] is [Z]; counters that are incremented wrap around at 64 bits.
    - [time.Time] is [Z] (an instant counted from the zero time), and
      [time.Now()] reads a clock that is threaded through the state. *)

From Stdlib Require Import ZArith QArith Qcanon Qround Qabs Qpower String Ascii List Bool Lia.
From Stdlib Require Import DecimalString DecimalPos DecimalN.
From Stdlib Require Import Sorted Permutation Lqa.
Import ListNotations.

Set Implicit Arguments.

(* ================================================================== *)
(** * float64 *)

Module F64.

Inductive float64 : Type :=
| FNum (q : Qc)       (* a finite value *)
| FInf (neg : bool)   (* +Inf when [neg = false], -Inf otherwise *)
| FNaN.

(** The float whose value is [q], for a [q] that binary64 holds: the
    integer constants of the source and the results of [math.Round] and
    [math.Ceil]. *)
Definition of_Q (q : Q) : float64 := FNum (Q2Qc q).
Definition of_Z (z : Z) : float64 := of_Q (inject_Z z).

Definition pInf : float64 := FInf false.

Definition is_neg (q : Qc) : bool := (Qnum q <? 0)%Z.
Definition is_zero (q : Qc) : bool := (Qnum q =? 0)%Z.

Definition Qc_leb (a b : Qc) : bool := Qle_bool a b.
Definition Qc_ltb (a b : Qc) : bool := negb (Qle_bool b a).

Definition opp (x : float64) : float64 :=
  match x with
  | FNum q => FNum (- q)%Qc
  | FInf s => FInf (negb s)
  | FNaN => FNaN
  end.

(** ** Rounding to binary64

    The result of an operation is its exact value rounded to the nearest
    binary64 value, a tie going to the value whose last bit is even; a
    result of magnitude [2^1024 - 2^970] or more is an infinity.  A
    positive [q] with [2^e <= q < 2^(e+1)] is rounded to a multiple of
    [2^(e-52)], and to a multiple of [2^-1074] below [2^-1022]. *)

Definition pow2 (e : Z) : Q := ((2 # 1) ^ e)%Q.

(** The [e] with [2^e <= q < 2^(e+1)], for [q > 0]. *)
Definition exponent (q : Q) : Z :=
  let e0 := (Z.log2 (Qnum q) - Z.log2 (Z.pos (Qden q)))%Z in
  if Qle_bool (pow2 e0) q then e0 else (e0 - 1)%Z.

Definition nearest_even (x : Q) : Z :=
  let f := Qfloor x in
  match Qcompare (x - inject_Z f) (1 # 2) with
  | Lt => f
  | Gt => (f + 1)%Z
  | Eq => if Z.even f then f else (f + 1)%Z
  end.

(** The exponent of the last place of the binary64 values around [q]. *)
Definition fexp (q : Q) : Z := (Z.max (exponent q) (-1022) - 52)%Z.

Definition ulp (q : Q) : Q := pow2 (fexp q).

Definition round_pos (q : Q) : Q :=
  (inject_Z (nearest_even (q / ulp q)) * ulp q)%Q.

(** A positive [q] rounded, with the overflow. *)
Definition round_overflow (q : Q) : float64 :=
  let v := round_pos q in
  if Qle_bool (pow2 1024) v then FInf false else FNum (Q2Qc v).

Definition binary64 (q : Q) : float64 :=
  match Qcompare q 0 with
  | Eq => FNum (Q2Qc 0)
  | Gt => round_overflow q
  | Lt => opp (round_overflow (- q))
  end.

(** ** The operations *)

Definition add (x y : float64) : float64 :=
  match x, y with
  | FNaN, _ | _, FNaN => FNaN
  | FInf s, FInf t => if Bool.eqb s t then FInf s else FNaN
  | FInf s, FNum _ => FInf s
  | FNum _, FInf t => FInf t
  | FNum a, FNum b => binary64 (a + b)
  end.

Definition sub (x y : float64) : float64 :=
  match x, y with
  | FNaN, _ | _, FNaN => FNaN
  | FInf s, FInf t => if Bool.eqb s t then FNaN else FInf s
  | FInf s, FNum _ => FInf s
  | FNum _, FInf t => FInf (negb t)
  | FNum a, FNum b => binary64 (a - b)
  end.

Definition mul (x y : float64) : float64 :=
  match x, y with
  | FNaN, _ | _, FNaN => FNaN
  | FInf s, FInf t => FInf (xorb s t)
  | FInf s, FNum b => if is_zero b then FNaN else FInf (xorb s (is_neg b))
  | FNum a, FInf t => if is_zero a then FNaN else FInf (xorb (is_neg a) t)
  | FNum a, FNum b => binary64 (a * b)
  end.

Definition div (x y : float64) : float64 :=
  match x, y with
  | FNaN, _ | _, FNaN => FNaN
  | FInf _, FInf _ => FNaN
  | FInf s, FNum b => FInf (xorb s (is_neg b))
  | FNum _, FInf _ => FNum 0%Qc
  | FNum a, FNum b =>
      if is_zero b
      then (if is_zero a then FNaN else FInf (is_neg a))
      else binary64 (a / b)
  end.

(** Comparisons: every comparison with [NaN] is false. *)
Definition ltb (x y : float64) : bool :=
  match x, y with
  | FNaN, _ | _, FNaN => false
  | FNum a, FNum b => Qc_ltb a b
  | FNum _, FInf t => negb t
  | FInf s, FNum _ => s
  | FInf s, FInf t => s && negb t
  end.

Definition leb (x y : float64) : bool :=
  match x, y with
  | FNaN, _ | _, FNaN => false
  | FNum a, FNum b => Qc_leb a b
  | FNum _, FInf t => negb t
  | FInf s, FNum _ => s
  | FInf s, FInf t => s || negb t
  end.

Definition gtb (x y : float64) : bool := ltb y x.

Definition lt (x y : float64) : Prop := ltb x y = true.
Definition le (x y : float64) : Prop := leb x y = true.

(** [math.Round]: nearest integer, halves away from zero.  The nearest
    integer of a binary64 value is a binary64 value. *)
Definition round_half_away (q : Q) : Z :=
  let n := Qnum q in
  let d := Z.pos (Qden q) in
  if (0 <=? n)%Z then ((2 * n + d) / (2 * d))%Z
  else (- ((2 * (- n) + d) / (2 * d)))%Z.

Definition Round (x : float64) : float64 :=
  match x with
  | FNum q => of_Z (round_half_away q)
  | _ => x
  end.

(** [math.Ceil]. *)
Definition Ceil (x : float64) : float64 :=
  match x with
  | FNum q => of_Z (Qceiling q)
  | _ => x
  end.

(** Conversions [float64(n)] for an integer [n], which rounds above
    [2^53], and [int(x)] for a float.  The latter truncates towards zero;
    on [NaN] and the infinities Go leaves the result to the implementation,
    amd64 gives the least [int64]. *)
Definition of_int (n : Z) : float64 := binary64 (inject_Z n).

Definition Qtruncate (q : Q) : Z :=
  if (0 <=? Qnum q)%Z then Qfloor q else Qceiling q.

Definition to_int (x : float64) : Z :=
  match x with
  | FNum q => Qtruncate q
  | _ => (- 2 ^ 63)%Z
  end.

End F64.

Import F64.

Declare Scope f64_scope.
Delimit Scope f64_scope with f64.
Bind Scope f64_scope with float64.
Infix "+" := F64.add : f64_scope.
Infix "-" := F64.sub : f64_scope.
Infix "*" := F64.mul : f64_scope.
Infix "/" := F64.div : f64_scope.
Infix "<?" := F64.ltb : f64_scope.
Infix "<=?" := F64.leb : f64_scope.
Infix ">?" := F64.gtb : f64_scope.
Infix "<" := F64.lt : f64_scope.
Infix "<=" := F64.le : f64_scope.

(** Float literals: the constant [n / d] of the source, rounded. *)
Definition flit (n : Z) (d : positive) : float64 := binary64 (n # d).

(* ================================================================== *)
(** * Package stockviewer: types (types.go, errors.go) *)

Open Scope string_scope.

Definition Time := Z.
Definition zeroTime : Time := 0%Z.

Record Stock : Type := mkStock {
  ID : string;
  Ticker : string;
  Company : string;
  Brokerage : string;
  Action : string;
  RatingFrom : string;
  RatingTo : string;
  TargetFrom : float64;
  TargetTo : float64;
  RecommendScore : float64;
  CreatedAt : Time;
  UpdatedAt : Time
}.

(** The zero value of [Stock], with the fields a composite literal sets. *)
Definition emptyStock : Stock :=
  mkStock "" "" "" "" "" "" "" (of_Z 0) (of_Z 0) (of_Z 0) zeroTime zeroTime.

Record StockRecommendation : Type := mkStockRecommendation {
  RecStock : Stock;
  Score : float64;
  Reason : string;
  Rank : Z
}.

Record SyncStatus : Type := mkSyncStatus {
  LastSync : Time;
  TotalRecords : Z;
  NewRecords : Z;
  UpdatedRecords : Z;
  Status : string
}.

Record PaginatedResponse : Type := mkPaginatedResponse {
  Data : list Stock;
  RespPage : Z;
  RespPageSize : Z;
  TotalItems : Z;
  TotalPages : Z
}.

Record StockFilter : Type := mkStockFilter {
  FTicker : string;
  FCompany : string;
  FBrokerage : string;
  FRating : string;
  FAction : string;
  SortBy : string;
  SortOrder : string;
  Page : Z;
  PageSize : Z
}.

(** Go's [error] values that occur in the pipeline.  [ErrStockNotFound] and
    [ErrSyncInProgress] are the two sentinel errors of errors.go;
    [StorageError] and [ExternalAPIError] are its two error structs, kept
    here with the field that names their origin; [ContextError] is
    [ctx.Err()], and [Panic] stands for a run-time panic of a callee. *)
Inductive error : Type :=
| ErrStockNotFound
| ErrSyncInProgress
| StorageError (operation : string)
| ExternalAPIError (service : string)
| ContextError
| Panic (msg : string).

Definition error_eqb (e1 e2 : error) : bool :=
  match e1, e2 with
  | ErrStockNotFound, ErrStockNotFound => true
  | ErrSyncInProgress, ErrSyncInProgress => true
  | StorageError a, StorageError b => String.eqb a b
  | ExternalAPIError a, ExternalAPIError b => String.eqb a b
  | ContextError, ContextError => true
  | Panic a, Panic b => String.eqb a b
  | _, _ => false
  end.

(** One element of the feed channel: [StockOrError]. *)
Record StockOrError : Type := mkStockOrError {
  SStock : Stock;
  SError : option error
}.

(** A Go map literal with string keys, and the comma-ok lookup [m[k]]. *)
Definition gomap (V : Type) := list (string * V).

Fixpoint map_get {V : Type} (m : gomap V) (k : string) : option V :=
  match m with
  | [] => None
  | (k', v) :: m' => if String.eqb k k' then Some v else map_get m' k
  end.

(** A call that returns [(T, error)]: a value with a nil error, or an error. *)
Inductive result (T : Type) : Type :=
| Ok (v : T)
| Err (e : error).
Arguments Ok {T} v.
Arguments Err {T} e.

(** The interface [StocksRepository], over the state [R] of the store.  The
    methods the pipeline calls are kept; a method that writes returns the new
    state of the store. *)
Class StocksRepository (R : Type) : Type := {
  SaveBatch : R -> list Stock -> R * option error;
  GetByID : R -> string -> result Stock;
  GetAll : R -> StockFilter -> result (list Stock * Z);
  GetTopRecommended : R -> Z -> result (list Stock)
}.

(** Go [int] arithmetic wraps around at 64 bits. *)
Definition wrap64 (z : Z) : Z := ((z + 2 ^ 63) mod 2 ^ 64 - 2 ^ 63)%Z.
Definition int_add (a b : Z) : Z := wrap64 (a + b).
Definition int_sub (a b : Z) : Z := wrap64 (a - b).
Definition int_mul (a b : Z) : Z := wrap64 (a * b).

(** [strings.ToLower] and [strings.ToUpper], on the ASCII letters. *)
Definition lowerChar (c : ascii) : ascii :=
  let n := nat_of_ascii c in
  if (65 <=? n)%nat && (n <=? 90)%nat then ascii_of_nat (n + 32) else c.

Definition upperChar (c : ascii) : ascii :=
  let n := nat_of_ascii c in
  if (97 <=? n)%nat && (n <=? 122)%nat then ascii_of_nat (n - 32) else c.

Fixpoint mapString (f : ascii -> ascii) (s : string) : string :=
  match s with
  | EmptyString => EmptyString
  | String c s' => String (f c) (mapString f s')
  end.

Definition ToLower : string -> string := mapString lowerChar.
Definition ToUpper : string -> string := mapString upperChar.

(** [len(s)] of a slice, as a Go [int]. *)
Definition len {A : Type} (s : list A) : Z := Z.of_nat (length s).

(** [sort.Slice(s, less)].  Go promises a permutation of [s] that is ordered
    by [less] and leaves the order of equal elements open; the model picks
    the order an insertion sort gives. *)
Fixpoint sort_insert {A : Type} (less : A -> A -> bool) (x : A) (s : list A) : list A :=
  match s with
  | [] => [x]
  | y :: s' => if less y x then y :: sort_insert less x s' else x :: s
  end.

Definition sort_Slice {A : Type} (less : A -> A -> bool) (s : list A) : list A :=
  fold_right (sort_insert less) [] s.

(* ================================================================== *)
(** * Package stocks: the ingest-time score (service.go) *)

Module Stocks.

Definition ratingScores : gomap float64 :=
  [ ("Buy", of_Z 30);
    ("Outperform", of_Z 25);
    ("Overweight", of_Z 20);
    ("Hold", of_Z 0);
    ("Neutral", of_Z (-5));
    ("Market Perform", of_Z (-10));
    ("Underperform", of_Z (-20));
    ("Underweight", of_Z (-20));
    ("Sell", of_Z (-30));
    ("Speculative", of_Z 10) ].

Definition actionScores : gomap float64 :=
  [ ("target raised by", of_Z 15);
    ("upgraded by", of_Z 20);
    ("initiated by", of_Z 5);
    ("target lowered by", of_Z (-15));
    ("downgraded by", of_Z (-20)) ].

Definition calculateRecommendScore (stock : Stock) : float64 :=
  let score := of_Z 50 in
  let score :=
    match map_get ratingScores (RatingTo stock) with
    | Some ratingScore => (score + ratingScore)%f64
    | None => score
    end in
  let score :=
    match map_get actionScores (Action stock) with
    | Some actionScore => (score + actionScore)%f64
    | None => score
    end in
  let score :=
    if (TargetFrom stock >? of_Z 0)%f64 && (TargetTo stock >? of_Z 0)%f64 then
      let priceChange :=
        (((TargetTo stock - TargetFrom stock) / TargetFrom stock) * of_Z 100)%f64 in
      (score + priceChange * flit 5 10)%f64
    else score in
  let score := if (score >? of_Z 100)%f64 then of_Z 100 else score in
  let score := if (score <? of_Z 0)%f64 then of_Z 0 else score in
  (Round (score * of_Z 100) / of_Z 100)%f64.

(** ** The service: synchronization and listing (service.go) *)

(** The three [log.Printf] lines of [SyncStocks]. *)
Inductive LogLine : Type :=
| LogFetchError (e : error)        (* "Error fetching stock: %v" *)
| LogBatchError (e : error)        (* "Error saving batch: %v" *)
| LogFinalBatchError (e : error).  (* "Error saving final batch: %v" *)

(** What a run acts on besides the service: the number of [time.Now()]
    calls made so far, the log, and the arguments of the [SaveBatch] calls
    in the order they were issued. *)
Record World : Type := mkWorld {
  nowCalls : nat;
  logged : list LogLine;
  written : list (list Stock)
}.

Definition setRecommendScore (s : Stock) (v : float64) : Stock :=
  mkStock (ID s) (Ticker s) (Company s) (Brokerage s) (Action s) (RatingFrom s)
    (RatingTo s) (TargetFrom s) (TargetTo s) v (CreatedAt s) (UpdatedAt s).

Definition setCreatedAt (s : Stock) (t : Time) : Stock :=
  mkStock (ID s) (Ticker s) (Company s) (Brokerage s) (Action s) (RatingFrom s)
    (RatingTo s) (TargetFrom s) (TargetTo s) (RecommendScore s) t (UpdatedAt s).

Definition setUpdatedAt (s : Stock) (t : Time) : Stock :=
  mkStock (ID s) (Ticker s) (Company s) (Brokerage s) (Action s) (RatingFrom s)
    (RatingTo s) (TargetFrom s) (TargetTo s) (RecommendScore s) (CreatedAt s) t.

Definition setPage (f : StockFilter) (page : Z) : StockFilter :=
  mkStockFilter (FTicker f) (FCompany f) (FBrokerage f) (FRating f) (FAction f)
    (SortBy f) (SortOrder f) page (PageSize f).

Definition setPageSize (f : StockFilter) (pageSize : Z) : StockFilter :=
  mkStockFilter (FTicker f) (FCompany f) (FBrokerage f) (FRating f) (FAction f)
    (SortBy f) (SortOrder f) (Page f) pageSize.

Definition batchSize : Z := 100.

Section Service.
Context {R : Type} `{StocksRepository R}.

(** The clock: the [k]-th call of [time.Now()] returns [clock k]. *)
Variable clock : nat -> Time.

(** The fields of [Service] besides the fetcher and the mutex. *)
Record Service : Type := mkService {
  storage : R;
  syncInProg : bool;
  lastSync : Time
}.

Definition setSyncInProg (s : Service) (b : bool) : Service :=
  mkService (storage s) b (lastSync s).

Definition timeNow (w : World) : Time * World :=
  (clock (nowCalls w), mkWorld (S (nowCalls w)) (logged w) (written w)).

Definition logPrintf (line : LogLine) (w : World) : World :=
  mkWorld (nowCalls w) (logged w ++ [line])%list (written w).

(** [s.storage.SaveBatch(ctx, batch)] with the error logged as [line]. *)
Definition saveBatch (line : error -> LogLine) (st : R) (batch : list Stock)
    (w : World) : R * World :=
  let (st', err) := SaveBatch st batch in
  let w := mkWorld (nowCalls w) (logged w) (written w ++ [batch])%list in
  match err with
  | Some e => (st', logPrintf (line e) w)
  | None => (st', w)
  end.

(** The variables of the loop of [SyncStocks]. *)
Record Loop : Type := mkLoop {
  l_storage : R;
  l_world : World;
  batch : list Stock;
  totalRecords : Z;
  newRecords : Z
}.

(** Lines 272-282: the score and the timestamps of one fetched record,
    with the lookup of its identity; the boolean tells whether the record
    was counted as new. *)
Definition stamp (st : R) (w : World) (stock : Stock) : Stock * bool * World :=
  let stock := setRecommendScore stock (calculateRecommendScore stock) in
  let (now, w) := timeNow w in
  let stock := setUpdatedAt stock now in
  match GetByID st (ID stock) with
  | Err err =>
      if error_eqb err ErrStockNotFound then
        let (now', w) := timeNow w in
        (setCreatedAt stock now', true, w)
      else (stock, false, w)
  | Ok existing => (setCreatedAt stock (CreatedAt existing), false, w)
  end.

(** One iteration of [for stockOrErr := range stocksChan]. *)
Definition processRecord (l : Loop) (stockOrErr : StockOrError) : Loop :=
  match SError stockOrErr with
  | Some e =>
      mkLoop (l_storage l) (logPrintf (LogFetchError e) (l_world l))
        (batch l) (totalRecords l) (newRecords l)
  | None =>
      let '(stock, isNew, w) := stamp (l_storage l) (l_world l) (SStock stockOrErr) in
      let newRecords := if isNew then int_add (newRecords l) 1 else newRecords l in
      let batch := (batch l ++ [stock])%list in
      let totalRecords := int_add (totalRecords l) 1 in
      if (len batch >=? batchSize)%Z then
        let (st, w) := saveBatch LogBatchError (l_storage l) batch w in
        mkLoop st w [] totalRecords newRecords
      else mkLoop (l_storage l) w batch totalRecords newRecords
  end.

(** The loop over the channel, then the flush of the last batch. *)
Definition runLoop (stocksChan : list StockOrError) (l : Loop) : Loop :=
  let l := fold_left processRecord stocksChan l in
  if (len (batch l) >? 0)%Z then
    let (st, w) := saveBatch LogFinalBatchError (l_storage l) (batch l) (l_world l) in
    mkLoop st w (batch l) (totalRecords l) (newRecords l)
  else l.

(** [SyncStocks], as one call that is not interleaved with another: the
    guard, the run and the deferred release.  [fetch] is what
    [s.fetcher.FetchStocks(ctx)] returns in this call: an error, or the
    elements the channel delivers until it is closed. *)
Definition SyncStocks (fetch : result (list StockOrError)) (s : Service) (w : World)
  : (option SyncStatus * option error) * Service * World :=
  if syncInProg s then ((None, Some ErrSyncInProgress), s, w)
  else
    let s := setSyncInProg s true in
    let '(ret, s, w) :=
      let status := mkSyncStatus zeroTime 0 0 0 "in_progress" in
      match fetch with
      | Err err =>
          ((Some (mkSyncStatus (LastSync status) (TotalRecords status)
                    (NewRecords status) (UpdatedRecords status) "error"),
            Some err), s, w)
      | Ok stocksChan =>
          let l := runLoop stocksChan (mkLoop (storage s) w [] 0 0) in
          let (now, w) := timeNow (l_world l) in
          let s := mkService (l_storage l) (syncInProg s) now in
          ((Some (mkSyncStatus now (totalRecords l) (newRecords l)
                    (int_sub (totalRecords l) (newRecords l)) "completed"),
            None), s, w)
      end in
    (* the deferred function *)
    (ret, setSyncInProg s false, w).

Definition GetStocks (s : Service) (filter : StockFilter) : result PaginatedResponse :=
  let filter := if (Page filter <? 1)%Z then setPage filter 1 else filter in
  let filter :=
    if (PageSize filter <? 1)%Z || (PageSize filter >? 100)%Z
    then setPageSize filter 20 else filter in
  match GetAll (storage s) filter with
  | Err err => Err err
  | Ok (stocks, total) =>
      let totalPages :=
        to_int (Ceil (of_int total / of_int (PageSize filter))%f64) in
      Ok (mkPaginatedResponse stocks (Page filter) (PageSize filter) total totalPages)
  end.


(** [SearchStocks]; the method [Search] of the repository is [search]. *)
Definition SearchStocks (search : R -> string -> Z -> result (list Stock))
    (s : Service) (query : string) (limit : Z) : result (list Stock) :=
  let limit := if (limit <? 1)%Z || (limit >? 50)%Z then 10%Z else limit in
  search (storage s) query limit.

End Service.

End Stocks.

(* ================================================================== *)
(** * Package stocks: the store behind the repository (storage.go) *)

Module Storage.

(** The table [stocks] of the database, one row per primary key [id], and
    whether the connection is down, in which case every statement fails.
    The timestamp hooks of the ORM are not part of the model. *)
Record Storage : Type := mkStorage {
  rows : list Stock;
  down : bool
}.

Section Queries.
(** What the database engine computes: [LOWER(s)] and [s LIKE pattern]. *)
Variable sqlLower : string -> string.
Variable sqlLike : string -> string -> bool.

(** The WHERE clauses of [applyFilters], as the rows they keep. *)
Definition applyFilters (filter : StockFilter) (row : Stock) : bool :=
  (if FTicker filter =? "" then true
   else sqlLike (sqlLower (Ticker row)) ("%" ++ ToLower (FTicker filter) ++ "%"))
  && (if FCompany filter =? "" then true
      else sqlLike (sqlLower (Company row)) ("%" ++ ToLower (FCompany filter) ++ "%"))
  && (if FBrokerage filter =? "" then true else Brokerage row =? FBrokerage filter)
  && (if FRating filter =? "" then true else RatingTo row =? FRating filter)
  && (if FAction filter =? "" then true else Action row =? FAction filter).

Definition validSortFields : gomap bool :=
  [ ("ticker", true); ("company", true); ("brokerage", true);
    ("recommend_score", true); ("created_at", true); ("updated_at", true) ].

(** The column and the direction of the ORDER BY of [applySorting]. *)
Definition applySorting (filter : StockFilter) : string * string :=
  let sortBy := SortBy filter in
  let sortBy := if sortBy =? "" then "recommend_score" else sortBy in
  let sortBy :=
    if negb (match map_get validSortFields sortBy with Some b => b | None => false end)
    then "recommend_score" else sortBy in
  let sortOrder := ToUpper (SortOrder filter) in
  let sortOrder :=
    if negb (sortOrder =? "ASC") && negb (sortOrder =? "DESC") then "DESC"
    else sortOrder in
  (sortBy, sortOrder).

(** How the engine orders two rows on a column, ascending. *)
Definition columnLess (column : string) (a b : Stock) : bool :=
  if column =? "ticker" then String.ltb (Ticker a) (Ticker b)
  else if column =? "company" then String.ltb (Company a) (Company b)
  else if column =? "brokerage" then String.ltb (Brokerage a) (Brokerage b)
  else if column =? "created_at" then (CreatedAt a <? CreatedAt b)%Z
  else if column =? "updated_at" then (UpdatedAt a <? UpdatedAt b)%Z
  else (RecommendScore a <? RecommendScore b)%f64.

Definition orderBy (column direction : string) (table : list Stock) : list Stock :=
  if direction =? "ASC" then sort_Slice (columnLess column) table
  else sort_Slice (fun a b => columnLess column b a) table.

(** OFFSET and LIMIT of [applyPagination]; a negative offset is no offset. *)
Definition applyPagination (filter : StockFilter) (table : list Stock) : list Stock :=
  let page := Page filter in
  let page := if (page <? 1)%Z then 1%Z else page in
  let pageSize := PageSize filter in
  let pageSize := if (pageSize <? 1)%Z || (pageSize >? 100)%Z then 20%Z else pageSize in
  let offset := int_mul (int_sub page 1) pageSize in
  firstn (Z.to_nat pageSize) (skipn (Z.to_nat offset) table).

Definition storageGetAll (s : Storage) (filter : StockFilter)
  : result (list Stock * Z) :=
  let query := List.filter (applyFilters filter) (rows s) in
  if down s then Err (StorageError "count")
  else
    let total := len query in
    let (sortBy, sortOrder) := applySorting filter in
    let query := orderBy sortBy sortOrder query in
    let query := applyPagination filter query in
    Ok (query, total).

Definition storageGetByID (s : Storage) (id : string) : result Stock :=
  if down s then Err (StorageError "get_by_id")
  else
    match find (fun row => ID row =? id) (rows s) with
    | Some stock => Ok stock
    | None => Err ErrStockNotFound
    end.

Definition storageGetTopRecommended (s : Storage) (limit : Z) : result (list Stock) :=
  if down s then Err (StorageError "get_top_recommended")
  else Ok (firstn (Z.to_nat limit) (orderBy "recommend_score" "DESC" (rows s))).

(** [db.Save] of one row: insert, or update every column on a conflict of
    the primary key. *)
Fixpoint upsert (table : list Stock) (stock : Stock) : list Stock :=
  match table with
  | [] => [stock]
  | row :: table' =>
      if ID row =? ID stock then stock :: table' else row :: upsert table' stock
  end.

Definition storageSaveBatch (s : Storage) (stocks : list Stock)
  : Storage * option error :=
  if (len stocks =? 0)%Z then (s, None)
  else if down s then (s, Some (StorageError "save_batch"))
  else (mkStorage (fold_left upsert stocks (rows s)) (down s), None).

Definition StorageRepository : StocksRepository Storage := {|
  SaveBatch := storageSaveBatch;
  GetByID := storageGetByID;
  GetAll := storageGetAll;
  GetTopRecommended := storageGetTopRecommended
|}.

(** The rows [Search] matches: ticker or company contains the query,
    whatever the case of the letters. *)
Definition searchMatches (query : string) (row : Stock) : bool :=
  let searchPattern := "%" ++ ToLower query ++ "%" in
  sqlLike (sqlLower (Ticker row)) searchPattern
  || sqlLike (sqlLower (Company row)) searchPattern.

(** [Search], with a limit that is not negative (the service passes one
    between 1 and 50). *)
Definition storageSearch (s : Storage) (query : string) (limit : Z)
  : result (list Stock) :=
  if down s then Err (StorageError "search")
  else
    Ok (firstn (Z.to_nat limit)
          (orderBy "recommend_score" "DESC" (filter (searchMatches query) (rows s)))).

(** [Delete]: not found when the statement affects no row. *)
Definition storageDelete (s : Storage) (id : string) : Storage * option error :=
  if down s then (s, Some (StorageError "delete"))
  else if existsb (fun row => ID row =? id) (rows s)
  then (mkStorage (filter (fun row => negb (ID row =? id)) (rows s)) (down s), None)
  else (s, Some ErrStockNotFound).

End Queries.

End Storage.

(* ================================================================== *)
(** * Package recommendation: the recommendation-time score (service.go) *)

Module Recommendation.

Definition ratingTable : gomap float64 :=
  [ ("Buy", of_Z 100);
    ("Strong Buy", of_Z 100);
    ("Outperform", of_Z 80);
    ("Overweight", of_Z 70);
    ("Accumulate", of_Z 60);
    ("Hold", of_Z 40);
    ("Neutral", of_Z 35);
    ("Market Perform", of_Z 30);
    ("Equal Weight", of_Z 30);
    ("Underperform", of_Z 15);
    ("Underweight", of_Z 15);
    ("Reduce", of_Z 10);
    ("Sell", of_Z 0);
    ("Speculative", of_Z 50) ].

Definition calculateRatingScore (rating : string) : float64 :=
  match map_get ratingTable rating with
  | Some score => score
  | None => of_Z 40
  end.

Definition actionTable : gomap float64 :=
  [ ("target raised by", of_Z 100);
    ("upgraded by", of_Z 100);
    ("initiated by", of_Z 60);
    ("reiterated by", of_Z 50);
    ("target lowered by", of_Z 0);
    ("downgraded by", of_Z 0) ].

Definition calculateActionScore (action : string) : float64 :=
  match map_get actionTable action with
  | Some score => score
  | None => of_Z 50
  end.

Definition calculatePriceTargetScore (from to : float64) : float64 :=
  if (from <=? of_Z 0)%f64 || (to <=? of_Z 0)%f64 then of_Z 50
  else
    let percentChange := (((to - from) / from) * of_Z 100)%f64 in
    if (percentChange >? of_Z 50)%f64 then of_Z 100
    else if (percentChange >? of_Z 20)%f64 then of_Z 80
    else if (percentChange >? of_Z 10)%f64 then of_Z 70
    else if (percentChange >? of_Z 0)%f64 then of_Z 60
    else if (percentChange >? of_Z (-10))%f64 then of_Z 40
    else if (percentChange >? of_Z (-20))%f64 then of_Z 20
    else of_Z 0.

Definition CalculateScore (stock : Stock) : float64 :=
  let score := of_Z 0 in
  let ratingWeight := flit 40 100 in
  let actionWeight := flit 35 100 in
  let priceTargetWeight := flit 25 100 in
  let ratingScore := calculateRatingScore (RatingTo stock) in
  let score := (score + ratingScore * ratingWeight)%f64 in
  let actionScore := calculateActionScore (Action stock) in
  let score := (score + actionScore * actionWeight)%f64 in
  let priceTargetScore :=
    calculatePriceTargetScore (TargetFrom stock) (TargetTo stock) in
  let score := (score + priceTargetScore * priceTargetWeight)%f64 in
  let normalizedScore := ((score + of_Z 100) / of_Z 2)%f64 in
  (Round (normalizedScore * of_Z 100) / of_Z 100)%f64.

Definition withRank (r : StockRecommendation) (rank : Z) : StockRecommendation :=
  mkStockRecommendation (RecStock r) (Score r) (Reason r) rank.

Definition generateReason (stock : Stock) : string :=
  let reasons : list string := [] in
  let reasons :=
    let r := RatingTo stock in
    if (r =? "Buy") || (r =? "Strong Buy") then
      (reasons ++ ["Strong buy recommendation from analyst"])%list
    else if (r =? "Outperform") || (r =? "Overweight") then
      (reasons ++ ["Expected to outperform the market"])%list
    else if (r =? "Hold") || (r =? "Neutral") then
      (reasons ++ ["Stable performance expected"])%list
    else if (r =? "Sell") || (r =? "Underperform") then
      (reasons ++ ["Caution advised - underperformance expected"])%list
    else reasons in
  let reasons :=
    let a := Action stock in
    if a =? "target raised by" then
      (reasons ++ ["Price target recently increased"])%list
    else if a =? "upgraded by" then
      (reasons ++ ["Recently upgraded by analyst"])%list
    else if a =? "target lowered by" then
      (reasons ++ ["Price target recently decreased"])%list
    else if a =? "downgraded by" then
      (reasons ++ ["Recently downgraded by analyst"])%list
    else reasons in
  let reasons :=
    if (TargetFrom stock >? of_Z 0)%f64 && (TargetTo stock >? of_Z 0)%f64 then
      let change :=
        (((TargetTo stock - TargetFrom stock) / TargetFrom stock) * of_Z 100)%f64 in
      if (change >? of_Z 10)%f64 then
        (reasons ++ ["Significant upside potential in price target"])%list
      else if (change <? of_Z (-10))%f64 then
        (reasons ++ ["Notable downside risk in price target"])%list
      else reasons
    else reasons in
  match reasons with
  | [] => "Based on current market analysis"
  | first :: rest =>
      fold_left (fun result reason => result ++ ". " ++ reason) (firstn 2 rest) first
  end.

(** The loop [for i := range recommendations] that sets [Rank = i + 1],
    from index [i] on. *)
Fixpoint assignRanks (i : Z) (recommendations : list StockRecommendation)
  : list StockRecommendation :=
  match recommendations with
  | [] => []
  | r :: rest => withRank r (i + 1) :: assignRanks (i + 1) rest
  end.

Definition effectiveLimit (limit : Z) : Z :=
  if (limit <? 1)%Z || (limit >? 100)%Z then 10%Z else limit.

Definition GetTopRecommendations {R : Type} `{StocksRepository R}
    (stocksRepo : R) (limit : Z) : result (list StockRecommendation) :=
  let limit := effectiveLimit limit in
  match GetTopRecommended stocksRepo (limit * 2)%Z with
  | Err err => Err err
  | Ok stocks =>
      let recommendations :=
        map (fun stock =>
               mkStockRecommendation stock (CalculateScore stock)
                 (generateReason stock) 0%Z) stocks in
      let recommendations :=
        sort_Slice (fun ri rj => (Score ri >? Score rj)%f64) recommendations in
      let recommendations :=
        if (len recommendations >? limit)%Z
        then firstn (Z.to_nat limit) recommendations
        else recommendations in
      Ok (assignRanks 0 recommendations)
  end.

End Recommendation.

(* ================================================================== *)
(** * Package mocks (stocks_repository.go, stocks_fetcher.go) *)

Module Mocks.

Record MockStocksRepository : Type := mkMockStocksRepository {
  Stocks : list Stock;
  Error : option error;
  SaveError : option error
}.

Definition NewMockStocksRepository : MockStocksRepository :=
  mkMockStocksRepository
    [ mkStock "test-id-1" "AAPL" "Apple Inc." "Goldman Sachs" "target raised by"
        "Hold" "Buy" (of_Z 150) (of_Z 180) (flit 855 10) zeroTime zeroTime;
      mkStock "test-id-2" "GOOGL" "Alphabet Inc." "Morgan Stanley" "upgraded by"
        "Neutral" "Buy" (of_Z 2800) (of_Z 3200) (of_Z 90) zeroTime zeroTime;
      mkStock "test-id-3" "MSFT" "Microsoft Corporation" "JP Morgan"
        "target lowered by" "Buy" "Neutral" (of_Z 350) (of_Z 320) (of_Z 45)
        zeroTime zeroTime ]
    None None.

Definition mockSaveBatch (m : MockStocksRepository) (stocks : list Stock)
  : MockStocksRepository * option error :=
  match SaveError m with
  | Some e => (m, Some e)
  | None => (mkMockStocksRepository (Stocks m ++ stocks)%list (Error m) (SaveError m), None)
  end.

Definition mockGetByID (m : MockStocksRepository) (id : string) : result Stock :=
  match Error m with
  | Some e => Err e
  | None =>
      match find (fun stock => ID stock =? id) (Stocks m) with
      | Some stock => Ok stock
      | None => Err ErrStockNotFound
      end
  end.

Definition mockGetAll (m : MockStocksRepository) (filter : StockFilter)
  : result (list Stock * Z) :=
  match Error m with
  | Some e => Err e
  | None => Ok (Stocks m, len (Stocks m))
  end.

(** [m.Stocks[:limit]] panics when [limit] is negative. *)
Definition mockGetTopRecommended (m : MockStocksRepository) (limit : Z)
  : result (list Stock) :=
  match Error m with
  | Some e => Err e
  | None =>
      let limit := if (limit >? len (Stocks m))%Z then len (Stocks m) else limit in
      if (limit <? 0)%Z then Err (Panic "slice bounds out of range")
      else Ok (firstn (Z.to_nat limit) (Stocks m))
  end.

#[global] Instance MockRepository : StocksRepository MockStocksRepository := {
  SaveBatch := mockSaveBatch;
  GetByID := mockGetByID;
  GetAll := mockGetAll;
  GetTopRecommended := mockGetTopRecommended
}.

Record MockStocksFetcher : Type := mkMockStocksFetcher {
  FetcherStocks : list Stock;
  FetcherError : option error
}.

Definition NewMockStocksFetcher : MockStocksFetcher :=
  mkMockStocksFetcher
    [ mkStock "mock-1" "RMTI" "Rockwell Medical" "Analyst Firm" "target lowered by"
        "" "Buy" (of_Z 0) (of_Z 0) (of_Z 0) zeroTime zeroTime;
      mkStock "mock-2" "AKBA" "Akebia Therapeutics" "Analyst Firm" "target lowered by"
        "" "Buy" (of_Z 0) (of_Z 0) (of_Z 0) zeroTime zeroTime;
      mkStock "mock-3" "CECO" "CECO Environmental" "Analyst Firm" "target raised by"
        "" "Buy" (of_Z 0) (of_Z 0) (of_Z 0) zeroTime zeroTime ]
    None.

(** [FetchStocks(ctx)]: the elements the channel delivers.  [cancelled] is
    the number of stocks sent before the goroutine sees the context done,
    if it does. *)
Definition mockFetchStocks (m : MockStocksFetcher) (cancelled : option nat)
  : result (list StockOrError) :=
  match FetcherError m with
  | Some e => Err e
  | None =>
      let send := map (fun stock => mkStockOrError stock None) in
      match cancelled with
      | Some k =>
          if (k <? length (FetcherStocks m))%nat
          then Ok (send (firstn k (FetcherStocks m))
                   ++ [mkStockOrError emptyStock (Some ContextError)])%list
          else Ok (send (FetcherStocks m))
      | None => Ok (send (FetcherStocks m))
      end
  end.


(** The loop of [Delete]: [append(m.Stocks[:i], m.Stocks[i+1:]...)] at the
    first index [i] whose stock has the identity, if there is one. *)
Fixpoint removeFirst (id : string) (stocks : list Stock) : option (list Stock) :=
  match stocks with
  | [] => None
  | stock :: rest =>
      if ID stock =? id then Some rest
      else
        match removeFirst id rest with
        | Some rest' => Some (stock :: rest')
        | None => None
        end
  end.

Definition mockDelete (m : MockStocksRepository) (id : string)
  : MockStocksRepository * option error :=
  match Error m with
  | Some e => (m, Some e)
  | None =>
      match removeFirst id (Stocks m) with
      | Some stocks => (mkMockStocksRepository stocks (Error m) (SaveError m), None)
      | None => (m, Some ErrStockNotFound)
      end
  end.

End Mocks.

(* ================================================================== *)
(** * Go library: crypto/md5, encoding/hex, fmt *)

Module MD5.

Open Scope Z_scope.

(** The MD5 message digest (RFC 1321) over bytes, on 32-bit words. *)
Definition w32 (x : Z) : Z := x mod 2 ^ 32.

Definition rotl (x c : Z) : Z :=
  w32 (Z.lor (Z.shiftl x c) (Z.shiftr x (32 - c))).

Definition shifts : list Z :=
  [ 7; 12; 17; 22; 7; 12; 17; 22; 7; 12; 17; 22; 7; 12; 17; 22;
    5; 9; 14; 20; 5; 9; 14; 20; 5; 9; 14; 20; 5; 9; 14; 20;
    4; 11; 16; 23; 4; 11; 16; 23; 4; 11; 16; 23; 4; 11; 16; 23;
    6; 10; 15; 21; 6; 10; 15; 21; 6; 10; 15; 21; 6; 10; 15; 21 ].

Definition sines : list Z :=
  [ 0xd76aa478; 0xe8c7b756; 0x242070db; 0xc1bdceee;
    0xf57c0faf; 0x4787c62a; 0xa8304613; 0xfd469501;
    0x698098d8; 0x8b44f7af; 0xffff5bb1; 0x895cd7be;
    0x6b901122; 0xfd987193; 0xa679438e; 0x49b40821;
    0xf61e2562; 0xc040b340; 0x265e5a51; 0xe9b6c7aa;
    0xd62f105d; 0x02441453; 0xd8a1e681; 0xe7d3fbc8;
    0x21e1cde6; 0xc33707d6; 0xf4d50d87; 0x455a14ed;
    0xa9e3e905; 0xfcefa3f8; 0x676f02d9; 0x8d2a4c8a;
    0xfffa3942; 0x8771f681; 0x6d9d6122; 0xfde5380c;
    0xa4beea44; 0x4bdecfa9; 0xf6bb4b60; 0xbebfbc70;
    0x289b7ec6; 0xeaa127fa; 0xd4ef3085; 0x04881d05;
    0xd9d4d039; 0xe6db99e5; 0x1fa27cf8; 0xc4ac5665;
    0xf4292244; 0x432aff97; 0xab9423a7; 0xfc93a039;
    0x655b59c3; 0x8f0ccc92; 0xffeff47d; 0x85845dd1;
    0x6fa87e4f; 0xfe2ce6e0; 0xa3014314; 0x4e0811a1;
    0xf7537e82; 0xbd3af235; 0x2ad7d2bb; 0xeb86d391 ].

Definition lnot32 (x : Z) : Z := Z.lxor x 0xffffffff.

(** One of the 64 operations on the state [(a, b, c, d)] with the words [m]
    of the block. *)
Definition operation (m : list Z) (st : Z * Z * Z * Z) (i : nat) : Z * Z * Z * Z :=
  let '(a, b, c, d) := st in
  let k := Z.of_nat i in
  let '(f, g) :=
    if k <? 16 then (Z.lor (Z.land b c) (Z.land (lnot32 b) d), k)
    else if k <? 32 then (Z.lor (Z.land d b) (Z.land (lnot32 d) c), (5 * k + 1) mod 16)
    else if k <? 48 then (Z.lxor (Z.lxor b c) d, (3 * k + 5) mod 16)
    else (Z.lxor c (Z.lor b (lnot32 d)), (7 * k) mod 16) in
  let f := w32 (f + a + nth i sines 0 + nth (Z.to_nat g) m 0) in
  (d, w32 (b + rotl f (nth i shifts 0)), b, c).

(** Little-endian words of a block of bytes, and bytes of a word. *)
Fixpoint words (n : nat) (bytes : list Z) : list Z :=
  match n, bytes with
  | S n', b0 :: b1 :: b2 :: b3 :: rest =>
      (b0 + 2 ^ 8 * b1 + 2 ^ 16 * b2 + 2 ^ 24 * b3) :: words n' rest
  | _, _ => []
  end.

Definition wordBytes (w : Z) : list Z :=
  [ w mod 256; (w / 2 ^ 8) mod 256; (w / 2 ^ 16) mod 256; (w / 2 ^ 24) mod 256 ].

Definition block (st : Z * Z * Z * Z) (bytes : list Z) : Z * Z * Z * Z :=
  let '(a0, b0, c0, d0) := st in
  let '(a, b, c, d) := fold_left (operation (words 16 bytes)) (seq 0 64) st in
  (w32 (a0 + a), w32 (b0 + b), w32 (c0 + c), w32 (d0 + d)).

(** The blocks of a padded message. *)
Fixpoint blocks (n : nat) (st : Z * Z * Z * Z) (bytes : list Z) : Z * Z * Z * Z :=
  match n with
  | O => st
  | S n' => blocks n' (block st (firstn 64 bytes)) (skipn 64 bytes)
  end.

(** Padding: the byte 0x80, zeros up to 56 modulo 64, the length in bits on
    8 little-endian bytes. *)
Definition pad (bytes : list Z) : list Z :=
  let n := Z.of_nat (length bytes) in
  let zeros := Z.to_nat ((55 - n) mod 64) in
  let bits := (8 * n) mod 2 ^ 64 in
  (bytes ++ [0x80] ++ repeat 0 zeros
   ++ wordBytes (bits mod 2 ^ 32) ++ wordBytes (bits / 2 ^ 32))%list.

(** [md5.Sum(data)]: the 16 bytes of the digest. *)
Definition Sum (data : list Z) : list Z :=
  let padded := pad data in
  let '(a, b, c, d) :=
    blocks (length padded / 64) (0x67452301, 0xefcdab89, 0x98badcfe, 0x10325476) padded in
  (wordBytes a ++ wordBytes b ++ wordBytes c ++ wordBytes d)%list.

End MD5.

(** [[]byte(s)]: the bytes of a string, and back. *)
Fixpoint bytesOf (s : string) : list Z :=
  match s with
  | EmptyString => []
  | String c s' => Z.of_N (N_of_ascii c) :: bytesOf s'
  end.

Fixpoint stringOf (bytes : list Z) : string :=
  match bytes with
  | [] => EmptyString
  | b :: bytes' => String (ascii_of_N (Z.to_N b)) (stringOf bytes')
  end.

(** [hex.EncodeToString]: two lower-case hexadecimal digits per byte. *)
Definition hexDigit (n : Z) : ascii :=
  if (n <? 10)%Z then ascii_of_N (Z.to_N (48 + n)) else ascii_of_N (Z.to_N (87 + n)).

Fixpoint EncodeToString (bytes : list Z) : string :=
  match bytes with
  | [] => EmptyString
  | b :: bytes' =>
      String (hexDigit (b / 16)) (String (hexDigit (b mod 16)) (EncodeToString bytes'))
  end.

(** The verb [%.2f] of [fmt.Sprintf]: the sign, the integer part and two
    decimals of the value rounded to the nearest hundredth, ties to even;
    [NaN], [+Inf] and [-Inf] print as such. *)
Definition round_half_even (q : Q) : Z :=
  let n := Qnum q in
  let d := Z.pos (Qden q) in
  let fl := (n / d)%Z in
  let r := (2 * (n mod d))%Z in
  if (r <? d)%Z then fl
  else if (d <? r)%Z then (fl + 1)%Z
  else if Z.even fl then fl else (fl + 1)%Z.

Definition decimal (n : Z) : string := NilZero.string_of_uint (N.to_uint (Z.to_N n)).

Definition formatFloat2 (x : float64) : string :=
  match x with
  | FNaN => "NaN"
  | FInf false => "+Inf"
  | FInf true => "-Inf"
  | FNum q =>
      let hundredths := round_half_even (Qabs q * 100) in
      let fraction := (hundredths mod 100)%Z in
      (if is_neg q then "-" else "")
      ++ decimal (hundredths / 100) ++ "."
      ++ (if (fraction <? 10)%Z then "0" else "") ++ decimal fraction
  end.

(* ================================================================== *)
(** * Package karenai: the feed adapter (client.go) *)

Module Karenai.

(** A JSON value decoded into [interface{}], by its dynamic type. *)
Inductive value : Type :=
| VFloat64 (f : float64)
| VString (s : string)
| VInt (n : Z)
| VInt64 (n : Z)
| VOther.

Record StockItem : Type := mkStockItem {
  ITicker : string;
  ICompany : string;
  IBrokerage : string;
  IAction : string;
  IRatingFrom : string;
  IRatingTo : string;
  ITargetFrom : value;
  ITargetTo : value
}.

Section Client.
(** [strconv.ParseFloat(s, 64)]: the float, or nothing on a syntax error.
    It accepts among others the texts "Inf", "+Inf", "Infinity" and "NaN". *)
Variable ParseFloat : string -> option float64.

Definition parseFloat (v : value) : float64 :=
  match v with
  | VFloat64 val => val
  | VString val =>
      match ParseFloat val with
      | Some f => f
      | None => of_Z 0
      end
  | VInt val => of_int val
  | VInt64 val => of_int val
  | VOther => of_Z 0
  end.

Definition generateStockID (item : StockItem) (targetFrom targetTo : float64) : string :=
  let data :=
    ITicker item ++ "|" ++ ICompany item ++ "|" ++ IBrokerage item ++ "|"
    ++ IAction item ++ "|" ++ IRatingFrom item ++ "|" ++ IRatingTo item ++ "|"
    ++ formatFloat2 targetFrom ++ "|" ++ formatFloat2 targetTo in
  let hash := MD5.Sum (bytesOf data) in
  EncodeToString hash.

Definition convertToStock (item : StockItem) : Stock :=
  let targetFrom := parseFloat (ITargetFrom item) in
  let targetTo := parseFloat (ITargetTo item) in
  let id := generateStockID item targetFrom targetTo in
  mkStock id (ITicker item) (ICompany item) (IBrokerage item) (IAction item)
    (IRatingFrom item) (IRatingTo item) targetFrom targetTo
    (of_Z 0) zeroTime zeroTime.

Record APIResponse : Type := mkAPIResponse {
  Items : list StockItem;
  NextPage : string
}.

(** The HTTP exchange behind [fetchPage]: what the [k]-th request of a run,
    made with the cursor [nextPage], is answered with; nothing when the
    request cannot be built or sent, the status is not 200, or the body
    cannot be read or parsed.  [ctxDone k] tells whether the context is
    done when the loop tests it before the [k]-th request. *)
Variable httpExchange : nat -> string -> option APIResponse.
Variable ctxDone : nat -> bool.

Definition fetchPage (k : nat) (nextPage : string) : result APIResponse :=
  match httpExchange k nextPage with
  | Some response => Ok response
  | None => Err (ExternalAPIError "karenai")
  end.

Definition maxPages : nat := 100.

(** The loop [for pageCount < maxPages] of the goroutine of [FetchStocks],
    with [fuel = maxPages - pageCount]: the elements it sends before it
    closes the channel. *)
Fixpoint fetchLoop (fuel pageCount : nat) (nextPage : string) : list StockOrError :=
  match fuel with
  | O => []
  | S fuel' =>
      if ctxDone pageCount then [mkStockOrError emptyStock (Some ContextError)]
      else
        match fetchPage pageCount nextPage with
        | Err err => [mkStockOrError emptyStock (Some err)]
        | Ok response =>
            (map (fun item => mkStockOrError (convertToStock item) None)
               (Items response)
             ++ (if NextPage response =? "" then []
                 else fetchLoop fuel' (S pageCount) (NextPage response)))%list
        end
  end.

(** [FetchStocks(ctx)]: it never fails to start; the elements are those the
    channel delivers until it is closed. *)
Definition FetchStocks : result (list StockOrError) :=
  Ok (fetchLoop maxPages 0 "").

End Client.

End Karenai.

(* ================================================================== *)
(** * Package httpapi: the handlers (controllers.go) *)

Module Httpapi.

Definition StatusOK : Z := 200.
Definition StatusBadRequest : Z := 400.
Definition StatusInternalServerError : Z := 500.

Section Handlers.
(** [strconv.Atoi]: the [int], or nothing on a syntax or range error. *)
Variable Atoi : string -> option Z.

Context {R : Type} `{StocksRepository R}.

(** The limit of [SearchStocks] from the query parameter [limit] ([""] when
    it is absent). *)
Definition searchLimit (limitStr : string) : Z :=
  let limit := 10%Z in
  if negb (limitStr =? "") then
    match Atoi limitStr with
    | Some l => if (l >? 0)%Z then l else limit
    | None => limit
    end
  else limit.

(** [SearchStocks]: the status of the answer and, with 200, its data. *)
Definition SearchStocks (search : R -> string -> Z -> result (list Stock))
    (s : Stocks.Service) (query limitStr : string) : Z * option (list Stock) :=
  if query =? "" then (StatusBadRequest, None)
  else
    let limit := searchLimit limitStr in
    match Stocks.SearchStocks search s query limit with
    | Err err => (StatusInternalServerError, None)
    | Ok stocks => (StatusOK, Some stocks)
    end.

(** The limit of [GetRecommendations] from the query parameter [limit]. *)
Definition recommendationsLimit (limitStr : string) : Z :=
  let limit := 10%Z in
  if negb (limitStr =? "") then
    match Atoi limitStr with
    | Some l => if (l >? 0)%Z && (l <=? 100)%Z then l else limit
    | None => limit
    end
  else limit.

Definition GetRecommendations (stocksRepo : R) (limitStr : string)
  : Z * option (list StockRecommendation) :=
  let limit := recommendationsLimit limitStr in
  match Recommendation.GetTopRecommendations stocksRepo limit with
  | Err err => (StatusInternalServerError, None)
  | Ok recommendations => (StatusOK, Some recommendations)
  end.

End Handlers.

End Httpapi.

(* ================================================================== *)
(** * The scoring rules as the specification words them *)

Module Spec.

(** A lookup table of the specification: rows of labels sharing a value. *)
Definition table := list (list string * Z).

Fixpoint table_value (t : table) (default : Z) (label : string) : Z :=
  match t with
  | [] => default
  | (labels, v) :: t' =>
      if existsb (String.eqb label) labels then v
      else table_value t' default label
  end.


Definition positive (x : Q) : bool := negb (Qle_bool x 0).


Definition clamp (lo hi x : Q) : Q :=
  if Qle_bool x lo then lo else if Qle_bool hi x then hi else x.

(** Two decimal places; a tie goes away from zero. *)
Definition round2 (x : Q) : Q :=
  (inject_Z (round_half_away (x * 100)) / 100)%Q.

(** (a) Ingest-time score. *)
Definition ingest_rating_delta : table :=
  [ (["Buy"], 30); (["Outperform"], 25); (["Overweight"], 20); (["Hold"], 0);
    (["Neutral"], -5); (["Market Perform"], -10);
    (["Underperform"; "Underweight"], -20); (["Sell"], -30);
    (["Speculative"], 10) ]%Z.

Definition ingest_action_delta : table :=
  [ (["target raised by"], 15); (["upgraded by"], 20); (["initiated by"], 5);
    (["target lowered by"], -15); (["downgraded by"], -20) ]%Z.



(** (b) Recommendation-time score. *)
Definition rating_contribution : table :=
  [ (["Buy"; "Strong Buy"], 100); (["Outperform"], 80); (["Overweight"], 70);
    (["Accumulate"], 60); (["Hold"], 40); (["Neutral"], 35);
    (["Market Perform"; "Equal Weight"], 30);
    (["Underperform"; "Underweight"], 15); (["Reduce"], 10); (["Sell"], 0);
    (["Speculative"], 50) ]%Z.

Definition action_contribution : table :=
  [ (["target raised by"; "upgraded by"], 100); (["initiated by"], 60);
    (["reiterated by"], 50); (["target lowered by"; "downgraded by"], 0) ]%Z.




(** The blend of the three contributions. *)
Definition blend (rating action price : Z) : Q :=
  let sum :=
    (inject_Z rating * (40 # 100) + inject_Z action * (35 # 100)
     + inject_Z price * (25 # 100))%Q in
  round2 ((sum + 100) / 2)%Q.


(** Identity derivation: the fields in their order, the targets at two
    decimals; joined with the delimiter, digested, hex-encoded. *)
Definition identity_fields (item : Karenai.StockItem) (target_from target_to : float64)
  : list string :=
  [ Karenai.ITicker item; Karenai.ICompany item; Karenai.IBrokerage item;
    Karenai.IAction item; Karenai.IRatingFrom item; Karenai.IRatingTo item;
    formatFloat2 target_from; formatFloat2 target_to ].

Definition digest_input (fields : list string) : string := String.concat "|" fields.

Definition derive (fields : list string) : string :=
  EncodeToString (MD5.Sum (bytesOf (digest_input fields))).

(** Total-pages = ceil(total_items / page_size), in exact arithmetic. *)
Definition total_pages (total_items page_size : Z) : Z :=
  Qceiling (inject_Z total_items / inject_Z page_size).

(** A score is within bounds when it is a number between 0 and 100. *)
Definition in_bounds (x : float64) : Prop :=
  (of_Z 0 <= x)%f64 /\ (x <= of_Z 100)%f64.

End Spec.

(* ================================================================== *)
(** * The single-flight guard of [SyncStocks] under interleaving *)

Module Guard.

(** How the body of a run ends: the loop completed, the fetch could not
    start, or the body panicked.  The deferred function runs in all three. *)
Inductive outcome : Type := Completed | FetchFailed | Panicked.

Inductive returned : Type :=
| InProgress                  (* (nil, ErrSyncInProgress) *)
| Finished (o : outcome).

(** The place of one invocation of [SyncStocks] in its code. *)
Inductive pc : Type :=
| AtLock                      (* before [s.syncMutex.Lock()] *)
| AtCheck                     (* before [if s.syncInProg] *)
| AtReject                    (* before [Unlock(); return nil, ErrSyncInProgress] *)
| AtSet                       (* before [s.syncInProg = true] *)
| AtUnlock                    (* before [s.syncMutex.Unlock()] *)
| Running                     (* the defer is registered; the run itself *)
| AtDeferLock (o : outcome)   (* deferred: before [Lock()] *)
| AtDeferClear (o : outcome)  (* deferred: before [s.syncInProg = false] *)
| AtDeferUnlock (o : outcome) (* deferred: before [Unlock()] *)
| Returned (r : returned).

(** The service shared by the invocations: the mutex with its holder, the
    flag, and the place of every invocation. *)
Record State : Type := mkState {
  syncMutex : option nat;
  syncInProg : bool;
  at_ : nat -> pc
}.

Definition init : State := mkState None false (fun _ => AtLock).

Definition move (s : State) (i : nat) (p : pc) : nat -> pc :=
  fun j => if (j =? i)%nat then p else at_ s j.

(** One atomic step of invocation [i]; [o] is how the body ends if this is
    the step that ends it.  [None]: the invocation cannot move (it waits
    for the mutex, or it has returned). *)
Definition step (i : nat) (o : outcome) (s : State) : option State :=
  match at_ s i with
  | AtLock =>
      match syncMutex s with
      | None => Some (mkState (Some i) (syncInProg s) (move s i AtCheck))
      | Some _ => None
      end
  | AtCheck =>
      if syncInProg s
      then Some (mkState (syncMutex s) (syncInProg s) (move s i AtReject))
      else Some (mkState (syncMutex s) (syncInProg s) (move s i AtSet))
  | AtReject => Some (mkState None (syncInProg s) (move s i (Returned InProgress)))
  | AtSet => Some (mkState (syncMutex s) true (move s i AtUnlock))
  | AtUnlock => Some (mkState None (syncInProg s) (move s i Running))
  | Running => Some (mkState (syncMutex s) (syncInProg s) (move s i (AtDeferLock o)))
  | AtDeferLock o' =>
      match syncMutex s with
      | None => Some (mkState (Some i) (syncInProg s) (move s i (AtDeferClear o')))
      | Some _ => None
      end
  | AtDeferClear o' => Some (mkState (syncMutex s) false (move s i (AtDeferUnlock o')))
  | AtDeferUnlock o' =>
      Some (mkState None (syncInProg s) (move s i (Returned (Finished o'))))
  | Returned _ => None
  end.

(** A schedule: which invocation moves next. *)
Fixpoint run (schedule : list (nat * outcome)) (s : State) : option State :=
  match schedule with
  | [] => Some s
  | (i, o) :: schedule' =>
      match step i o s with
      | Some s' => run schedule' s'
      | None => None
      end
  end.

Definition reachable (s : State) : Prop :=
  exists schedule, run schedule init = Some s.

(** The invocation has passed the guard and has not yet cleared the flag. *)
Definition inProgress (p : pc) : bool :=
  match p with
  | AtUnlock | Running | AtDeferLock _ | AtDeferClear _ => true
  | _ => false
  end.

(** The invocation holds the mutex. *)
Definition holdsMutex (p : pc) : bool :=
  match p with
  | AtCheck | AtReject | AtSet | AtUnlock | AtDeferClear _ | AtDeferUnlock _ => true
  | _ => false
  end.

(** What holds in every reachable state: the mutex is held exactly by the
    invocation at a place inside a critical section, at most one run is in
    progress, and the flag is set exactly while one is. *)
Record guard_invariant (s : State) : Prop := mkGuardInvariant {
  inv_holder : forall i, holdsMutex (at_ s i) = true <-> syncMutex s = Some i;
  inv_unique : forall i j,
    inProgress (at_ s i) = true -> inProgress (at_ s j) = true -> i = j;
  inv_clear : syncInProg s = false -> forall i, inProgress (at_ s i) = false;
  inv_set : syncInProg s = true -> exists i, inProgress (at_ s i) = true;
  inv_at_set : forall i, at_ s i = AtSet -> syncInProg s = false;
  inv_at_defer_unlock : forall i o, at_ s i = AtDeferUnlock o -> syncInProg s = false
}.

End Guard.

(* ================================================================== *)
(** * What the statements observe *)

Section RunObservations.
Context {R : Type} `{StocksRepository R}.
Variable clock : nat -> Time.

(** The records a run has handed over so far: those of the batches
    written, then those of the batch being collected. *)
Definition appended (l : @Stocks.Loop R) : list Stock :=
  (concat (Stocks.written (Stocks.l_world l)) ++ Stocks.batch l)%list.

(** The elements of the channel that carry a record, not an error. *)
Definition isRecord (stockOrErr : StockOrError) : bool :=
  match SError stockOrErr with None => true | Some _ => false end.

Definition records (stocksChan : list StockOrError) : list StockOrError :=
  filter isRecord stocksChan.

(** The state of the loop when the elements [pre] have been taken. *)
Definition after (pre : list StockOrError) (l : @Stocks.Loop R) : @Stocks.Loop R :=
  fold_left (Stocks.processRecord clock) pre l.

End RunObservations.

(** Equality of floats, decided. *)
Definition float_eqb (x y : float64) : bool :=
  match x, y with
  | FNum a, FNum b => Qeq_bool a b
  | FInf s, FInf t => Bool.eqb s t
  | FNaN, FNaN => true
  | _, _ => false
  end.



(** The arithmetic of the two scoring functions, by its steps: the percent
    change of the targets, the clamp and the two decimals of
    [calculateRecommendScore], and the blend of [CalculateScore]. *)
Definition percentChange (from to : float64) : float64 :=
  (((to - from) / from) * of_Z 100)%f64.

Definition clampScore (score : float64) : float64 :=
  let score := if (score >? of_Z 100)%f64 then of_Z 100 else score in
  if (score <? of_Z 0)%f64 then of_Z 0 else score.

Definition roundScore (score : float64) : float64 :=
  (Round (score * of_Z 100) / of_Z 100)%f64.

Definition blendScore (ratingScore actionScore priceTargetScore : float64) : float64 :=
  let score := of_Z 0 in
  let score := (score + ratingScore * flit 40 100)%f64 in
  let score := (score + actionScore * flit 35 100)%f64 in
  let score := (score + priceTargetScore * flit 25 100)%f64 in
  roundScore ((score + of_Z 100) / of_Z 2)%f64.

(** The values [calculatePriceTargetScore] returns. *)
Definition priceTargetScores : list Z := [100; 80; 70; 60; 40; 20; 0; 50]%Z.

(** The fields of a fetched record that the run leaves as fetched. *)
Definition fetchedFields (s : Stock) :=
  (ID s, Ticker s, Company s, Brokerage s, Action s, RatingFrom s, RatingTo s,
   TargetFrom s, TargetTo s).

(** The fields of a filter that [GetStocks] leaves as given. *)
Definition filterFields (f : StockFilter) :=
  (FTicker f, FCompany f, FBrokerage f, FRating f, FAction f, SortBy f, SortOrder f).

(** The value of a hexadecimal digit, and the range of a byte. *)
Definition unhex (c : ascii) : Z :=
  let n := Z.of_N (N_of_ascii c) in
  if (n <? 58)%Z then (n - 48)%Z else (n - 87)%Z.

Definition isByte (b : Z) : Prop := (0 <= b < 256)%Z.

(** The number a digest stands for, its first byte the least significant. *)
Fixpoint bytesValue (bytes : list Z) : Z :=
  match bytes with
  | [] => 0%Z
  | b :: rest => (b + 256 * bytesValue rest)%Z
  end.

(** The phrases [generateReason] composes: the one of a rating, the one of
    an action, the one of a change of the price target by more than ten
    percent, and the sentence it falls back to. *)
Definition ratingReasons : list (list string * string) :=
  [ (["Buy"; "Strong Buy"], "Strong buy recommendation from analyst");
    (["Outperform"; "Overweight"], "Expected to outperform the market");
    (["Hold"; "Neutral"], "Stable performance expected");
    (["Sell"; "Underperform"], "Caution advised - underperformance expected") ].

Definition actionReasons : list (list string * string) :=
  [ (["target raised by"], "Price target recently increased");
    (["upgraded by"], "Recently upgraded by analyst");
    (["target lowered by"], "Price target recently decreased");
    (["downgraded by"], "Recently downgraded by analyst") ].

Fixpoint reasonOf (table : list (list string * string)) (label : string) : list string :=
  match table with
  | [] => []
  | (labels, phrase) :: table' =>
      if existsb (String.eqb label) labels then [phrase] else reasonOf table' label
  end.

Definition targetReason (from to : float64) : list string :=
  if (from >? of_Z 0)%f64 && (to >? of_Z 0)%f64 then
    if (percentChange from to >? of_Z 10)%f64
    then ["Significant upside potential in price target"]
    else if (percentChange from to <? of_Z (-10))%f64
    then ["Notable downside risk in price target"]
    else []
  else [].

Definition cannedReasons : list string :=
  (map snd ratingReasons ++ map snd actionReasons
   ++ [ "Significant upside potential in price target";
        "Notable downside risk in price target" ])%list.

Definition fallbackReason : string := "Based on current market analysis".

(** The errors the channel delivers, in their order, and the lines of the
    log that report such an error. *)
Definition fetchErrors (stocksChan : list StockOrError) : list error :=
  flat_map (fun stockOrErr =>
              match SError stockOrErr with Some e => [e] | None => [] end)
    stocksChan.

Definition isFetchErrorLine (line : Stocks.LogLine) : bool :=
  match line with Stocks.LogFetchError _ => true | _ => false end.

(** The requests of a run of [FetchStocks]: [reaches k cursor items] when
    the loop gets to its [k]-th request, to be made with [cursor], after
    pages with [items]: the context was not done before the requests made
    so far, and each was answered with a page that names a next page. *)
Section FeedRun.
Variable httpExchange : nat -> string -> option Karenai.APIResponse.
Variable ctxDone : nat -> bool.

Inductive reaches : nat -> string -> list Karenai.StockItem -> Prop :=
| reaches_first : reaches 0 "" []
| reaches_next (k : nat) (cursor : string) (items : list Karenai.StockItem)
    (response : Karenai.APIResponse) :
    reaches k cursor items ->
    ctxDone k = false ->
    httpExchange k cursor = Some response ->
    Karenai.NextPage response <> "" ->
    reaches (S k) (Karenai.NextPage response) (items ++ Karenai.Items response)%list.

End FeedRun.

(** The lookup of a fetched record's identity says not found. *)
Definition notFound {R : Type} `{StocksRepository R} (st : R)
    (stockOrErr : StockOrError) : bool :=
  match GetByID st (ID (SStock stockOrErr)) with
  | Err e => error_eqb e ErrStockNotFound
  | Ok _ => false
  end.

(** What a run writes of a record: its fetched fields and its score. *)
Definition writtenFields (s : Stock) := (fetchedFields s, RecommendScore s).

Definition expectedFields (stockOrErr : StockOrError) :=
  (fetchedFields (SStock stockOrErr),
   Stocks.calculateRecommendScore (SStock stockOrErr)).

(** The number of steps an invocation at place [p] takes at most until it
    has returned. *)
Definition stepsLeft (p : Guard.pc) : nat :=
  match p with
  | Guard.AtLock => 8
  | Guard.AtCheck => 7
  | Guard.AtSet => 6
  | Guard.AtUnlock => 5
  | Guard.Running => 4
  | Guard.AtDeferLock _ => 3
  | Guard.AtDeferClear _ => 2
  | Guard.AtDeferUnlock _ => 1
  | Guard.AtReject => 1
  | Guard.Returned _ => 0
  end.

(** The digits of [hex.EncodeToString]. *)
Definition isLowerHex (c : ascii) : bool :=
  existsb (Ascii.eqb c) (list_ascii_of_string "0123456789abcdef").

(** An element of the channel that carries a stock, and the element with
    which the goroutine of [FetchStocks] reports an error. *)
Definition stockElement (stock : Stock) : StockOrError := mkStockOrError stock None.
Definition errorElement (e : error) : StockOrError := mkStockOrError emptyStock (Some e).

(* ================================================================== *)
(** * Sample data *)

Definition exampleClock (k : nat) : Time := (1000 + Z.of_nat k)%Z.

Definition emptyWorld : Stocks.World := Stocks.mkWorld 0 [] [].

(** The channel of the mock fetcher, not cancelled. *)
Definition mockChannel : list StockOrError :=
  map (fun stock => mkStockOrError stock None)
    (Mocks.FetcherStocks Mocks.NewMockStocksFetcher).

Definition fetchedStock : Stock :=
  mkStock "id-1" "ACME" "Acme Corp" "Broker" "upgraded by" "Hold" "Buy"
    (of_Z 100) (of_Z 120) (of_Z 0) zeroTime zeroTime.

(** Invocation 0 passes the guard and runs; invocation 1 then takes the
    mutex and stands before the test of the flag. *)
Definition guardSchedule : list (nat * Guard.outcome) :=
  [ (0, Guard.Completed); (0, Guard.Completed); (0, Guard.Completed);
    (0, Guard.Completed); (1, Guard.Completed) ]%nat.

Definition guardExample : Guard.State :=
  match Guard.run guardSchedule Guard.init with
  | Some s => s
  | None => Guard.init
  end.

(** A record of the feed, by its ticker. *)
Definition collidingItem (ticker : string) : Karenai.StockItem :=
  Karenai.mkStockItem ticker "Acme Corp" "Broker" "upgraded by" "Hold" "Buy"
    (Karenai.VFloat64 (of_Z 100)) (Karenai.VFloat64 (of_Z 120)).

(** The two scenarios of the specification. *)
Definition buyRaisedStock : Stock :=
  mkStock "" "" "" "" "target raised by" "" "Buy" (of_Z 100) (of_Z 150)
    (of_Z 0) zeroTime zeroTime.

Definition sellDowngradedStock : Stock :=
  mkStock "" "" "" "" "downgraded by" "" "Sell" (of_Z 100) (of_Z 50)
    (of_Z 0) zeroTime zeroTime.




(** A stock whose old target is [+Inf]. *)
Definition infiniteTargetStock : Stock :=
  mkStock "id" "ACME" "Acme Corp" "Broker" "target raised by" "Hold" "Buy"
    pInf (of_Z 150) (of_Z 0) zeroTime zeroTime.

(** A repository whose lookups fail with a storage error. *)
Definition lookupFailingRepository : Mocks.MockStocksRepository :=
  Mocks.mkMockStocksRepository [] (Some (StorageError "get_by_id")) None.

(** The channel of the mock fetcher delivering every record twice. *)
Definition repeatedChannel : list StockOrError := (mockChannel ++ mockChannel)%list.

(** A source that always has one more page, and one that fails from the
    hundred-and-first request on. *)
Definition endlessFeed (k : nat) (cursor : string) : option Karenai.APIResponse :=
  Some (Karenai.mkAPIResponse [collidingItem "ACME"] "next").

Definition feedFailingLate (k : nat) (cursor : string) : option Karenai.APIResponse :=
  if (k <? 100)%nat then endlessFeed k cursor else None.

Definition neverDone (k : nat) : bool := false.

(** A source whose first page names a second one, which it fails to
    deliver. *)
Definition feedFailingSecond (k : nat) (cursor : string) : option Karenai.APIResponse :=
  if (k =? 0)%nat then endlessFeed k cursor else None.

(** A parser of decimal numbers that knows no text. *)
Definition parsesNothing (text : string) : option float64 := None.

(** [LIKE] for the patterns of the store: the percent sign stands for any
    text, every other character for itself. *)
Fixpoint likePattern (pattern : string) : string -> bool :=
  match pattern with
  | EmptyString => fun text => text =? ""
  | String c pattern' =>
      if Ascii.eqb c "%"
      then fix anySuffix (text : string) : bool :=
             likePattern pattern' text
             || match text with
                | EmptyString => false
                | String _ text' => anySuffix text'
                end
      else fun text =>
             match text with
             | EmptyString => false
             | String d text' => Ascii.eqb c d && likePattern pattern' text'
             end
  end.

Definition exampleLike (text pattern : string) : bool := likePattern pattern text.

(** Twelve rows of one company. *)
Definition twelveStocks : list Stock :=
  map (fun k => mkStock (decimal k) "ACME" "Acme Corp" "Broker" "upgraded by" "Hold"
                  "Buy" (of_Z 100) (of_Z 120) (of_Z k) zeroTime zeroTime)
    [1; 2; 3; 4; 5; 6; 7; 8; 9; 10; 11; 12]%Z.

(** An [Atoi] that knows the texts "5" and "75". *)
Definition exampleAtoi (text : string) : option Z :=
  if text =? "5" then Some 5%Z else if text =? "75" then Some 75%Z else None.

(* ================================================================== *)
(* ================================================================== *)
(** * Properties *)

(** ** Rounding to binary64 *)

Section Rounding.
Local Open Scope Q_scope.

(** *** Powers of two *)

Lemma two_not_0 : ~ (2 # 1) == 0.
Proof. discriminate. Qed.

Lemma pow2_pos (e : Z) : 0 < pow2 e.
Proof. apply Qpower_0_lt. reflexivity. Qed.

Lemma pow2_add (a b : Z) : pow2 (a + b) == pow2 a * pow2 b.
Proof. apply Qpower_plus, two_not_0. Qed.

Lemma pow2_opp (a : Z) : pow2 (- a) == / pow2 a.
Proof. apply Qpower_opp. Qed.

Lemma pow2_sub (a b : Z) : pow2 (a - b) == pow2 a / pow2 b.
Proof. unfold Z.sub. rewrite pow2_add, pow2_opp. reflexivity. Qed.

Lemma pow2_le (a b : Z) : (a <= b)%Z -> pow2 a <= pow2 b.
Proof. intros H. apply Qpower_le_compat_l; [exact H | discriminate]. Qed.

Lemma pow2_lt (a b : Z) : (a < b)%Z -> pow2 a < pow2 b.
Proof. intros H. apply Qpower_lt_compat_l; [exact H | reflexivity]. Qed.

Lemma pow2_lt_inv (a b : Z) : pow2 a < pow2 b -> (a < b)%Z.
Proof. intros H. eapply Qpower_lt_compat_l_inv; [exact H | reflexivity]. Qed.

Lemma pow2_Z (e : Z) : (0 <= e)%Z -> pow2 e == inject_Z (2 ^ e).
Proof. intros H. unfold pow2. now rewrite Zpower_Qpower. Qed.

(** *** The exponent of a positive rational *)

Lemma Qdiv_le_cross (a b c d : Q) :
  0 < b -> 0 < d -> a * d <= c * b -> a / b <= c / d.
Proof.
  intros Hb Hd H. apply Qle_shift_div_l; [exact Hd|].
  setoid_replace (a / b * d) with (a * d / b) by (field; lra).
  apply Qle_shift_div_r; [exact Hb | exact H].
Qed.

Lemma Qdiv_lt_cross (a b c d : Q) :
  0 < b -> 0 < d -> a * d < c * b -> a / b < c / d.
Proof.
  intros Hb Hd H. apply Qlt_shift_div_l; [exact Hd|].
  setoid_replace (a / b * d) with (a * d / b) by (field; lra).
  apply Qlt_shift_div_r; [exact Hb | exact H].
Qed.

Lemma exponent_bounds (q : Q) :
  0 < q ->
  let e0 := (Z.log2 (Qnum q) - Z.log2 (Z.pos (Qden q)))%Z in
  pow2 (e0 - 1) <= q /\ q < pow2 (e0 + 1).
Proof.
  destruct q as [n d]. intros Hq e0. unfold Qlt in Hq. cbn in Hq.
  assert (Hn : (0 < n)%Z) by lia.
  subst e0. cbn [Qnum Qden].
  set (a := Z.log2 n). set (b := Z.log2 (Z.pos d)).
  assert (Ha : (0 <= a)%Z) by apply Z.log2_nonneg.
  assert (Hb : (0 <= b)%Z) by apply Z.log2_nonneg.
  destruct (Z.log2_spec n Hn) as [Ha1 Ha2]. fold a in Ha1, Ha2.
  destruct (Z.log2_spec (Z.pos d) eq_refl) as [Hb1 Hb2]. fold b in Hb1, Hb2.
  assert (En : n # d == inject_Z n / inject_Z (Z.pos d)) by apply Qmake_Qdiv.
  rewrite En.
  assert (HD : 0 < inject_Z (Z.pos d)) by reflexivity.
  assert (HA : 0 < inject_Z (2 ^ a)).
  { change 0 with (inject_Z 0). rewrite <- Zlt_Qlt. lia. }
  assert (HB : 0 < inject_Z (2 ^ b)).
  { change 0 with (inject_Z 0). rewrite <- Zlt_Qlt. lia. }
  assert (Hb3 : (2 ^ (b + 1) = 2 * 2 ^ b)%Z) by (rewrite Z.pow_add_r; lia).
  assert (Ha3 : (2 ^ (a + 1) = 2 * 2 ^ a)%Z) by (rewrite Z.pow_add_r; lia).
  replace (Z.succ a) with (a + 1)%Z in * by lia.
  replace (Z.succ b) with (b + 1)%Z in * by lia.
  split.
  - replace (a - b - 1)%Z with (a - (b + 1))%Z by lia.
    rewrite pow2_sub, !pow2_Z by lia.
    apply Qdiv_le_cross; [|exact HD|].
    + change 0 with (inject_Z 0). rewrite <- Zlt_Qlt. lia.
    + rewrite <- !inject_Z_mult, <- Zle_Qle. nia.
  - replace (a - b + 1)%Z with (a + 1 - b)%Z by lia.
    rewrite pow2_sub, !pow2_Z by lia.
    apply Qdiv_lt_cross; [exact HD | exact HB |].
    rewrite <- !inject_Z_mult, <- Zlt_Qlt. nia.
Qed.

Lemma exponent_spec (q : Q) :
  0 < q -> pow2 (exponent q) <= q /\ q < pow2 (exponent q + 1).
Proof.
  intros Hq. destruct (exponent_bounds Hq) as [Hlo Hhi]. unfold exponent.
  set (e0 := (Z.log2 (Qnum q) - Z.log2 (Z.pos (Qden q)))%Z) in *.
  destruct (Qle_bool (pow2 e0) q) eqn:E.
  - apply Qle_bool_iff in E. split; assumption.
  - replace (e0 - 1 + 1)%Z with e0 by lia. split; [exact Hlo|].
    apply Qnot_le_lt. intros H. apply Qle_bool_iff in H. congruence.
Qed.

Lemma exponent_unique (q : Q) (e : Z) :
  pow2 e <= q -> q < pow2 (e + 1) -> exponent q = e.
Proof.
  intros Hlo Hhi.
  assert (Hq : 0 < q) by (eapply Qlt_le_trans; [apply pow2_pos | exact Hlo]).
  destruct (exponent_spec Hq) as [Hlo' Hhi'].
  assert (H1 : (exponent q < e + 1)%Z).
  { apply pow2_lt_inv. eapply Qle_lt_trans; eassumption. }
  assert (H2 : (e < exponent q + 1)%Z).
  { apply pow2_lt_inv. eapply Qle_lt_trans; eassumption. }
  lia.
Qed.

Lemma exponent_comp (p q : Q) : p == q -> 0 < p -> exponent p = exponent q.
Proof.
  intros E Hp. destruct (exponent_spec Hp) as [Hlo Hhi].
  symmetry. apply exponent_unique; rewrite <- E; assumption.
Qed.

Lemma exponent_mono (p q : Q) : 0 < p -> p <= q -> (exponent p <= exponent q)%Z.
Proof.
  intros Hp Hpq.
  assert (Hq : 0 < q) by (eapply Qlt_le_trans; eassumption).
  destruct (exponent_spec Hp) as [Hlo _], (exponent_spec Hq) as [_ Hhi].
  assert (H : (exponent p < exponent q + 1)%Z).
  { apply pow2_lt_inv. eapply Qle_lt_trans; [exact Hlo|].
    eapply Qle_lt_trans; eassumption. }
  lia.
Qed.

(** *** Rounding to the nearest integer, ties to even *)

Lemma nearest_even_comp (x y : Q) : x == y -> nearest_even x = nearest_even y.
Proof.
  intros E. unfold nearest_even. rewrite (Qfloor_comp _ _ E).
  now rewrite (Qcompare_comp (x - inject_Z (Qfloor y)) (y - inject_Z (Qfloor y))
                 ltac:(now rewrite E) (1 # 2) (1 # 2) ltac:(reflexivity)).
Qed.

Lemma nearest_even_floor (x : Q) :
  (Qfloor x <= nearest_even x <= Qfloor x + 1)%Z.
Proof.
  unfold nearest_even. destruct (Qcompare _ _); [destruct (Z.even _)| |]; lia.
Qed.

Lemma nearest_even_Z (z : Z) : nearest_even (inject_Z z) = z.
Proof.
  unfold nearest_even. rewrite Qfloor_Z.
  assert (E : inject_Z z - inject_Z z == 0) by ring.
  rewrite (Qcompare_comp _ _ E (1 # 2) (1 # 2) ltac:(reflexivity)). reflexivity.
Qed.

Lemma nearest_even_lower (x : Q) (n : Z) :
  inject_Z n <= x -> (n <= nearest_even x)%Z.
Proof.
  intros H. apply Qfloor_resp_le in H. rewrite Qfloor_Z in H.
  pose proof (nearest_even_floor x). lia.
Qed.

Lemma nearest_even_upper (x : Q) (n : Z) :
  x <= inject_Z n -> (nearest_even x <= n)%Z.
Proof.
  intros H. pose proof (Qfloor_resp_le _ _ H) as Hf. rewrite Qfloor_Z in Hf.
  destruct (Z.eq_dec (Qfloor x) n) as [E|E].
  - unfold nearest_even. rewrite E.
    destruct (Qcompare_spec (x - inject_Z n) (1 # 2)) as [H1|H1|H1]; try lra.
    destruct (Z.even n); lia || lra.
  - pose proof (nearest_even_floor x). lia.
Qed.

Lemma nearest_even_mono (x y : Q) : x <= y -> (nearest_even x <= nearest_even y)%Z.
Proof.
  intros H. pose proof (Qfloor_resp_le _ _ H) as Hf.
  destruct (Z.eq_dec (Qfloor x) (Qfloor y)) as [E|E].
  - unfold nearest_even. rewrite E.
    destruct (Qcompare_spec (x - inject_Z (Qfloor y)) (1 # 2)),
             (Qcompare_spec (y - inject_Z (Qfloor y)) (1 # 2));
      try destruct (Z.even _); try lia; lra.
  - pose proof (nearest_even_floor x). pose proof (nearest_even_floor y). lia.
Qed.

Lemma nearest_even_error (x : Q) :
  - (1 # 2) <= inject_Z (nearest_even x) - x <= 1 # 2.
Proof.
  pose proof (Qfloor_le x) as Hlo. pose proof (Qlt_floor x) as Hhi.
  rewrite inject_Z_plus in Hhi. change (inject_Z 1) with 1 in Hhi.
  unfold nearest_even.
  destruct (Qcompare_spec (x - inject_Z (Qfloor x)) (1 # 2)) as [H|H|H];
    [destruct (Z.even _)| |]; rewrite ?inject_Z_plus; change (inject_Z 1) with 1;
    split; lra.
Qed.

(** *** Rounding a positive rational *)

Lemma ulp_fexp (q : Q) : ulp q = pow2 (fexp q).
Proof. reflexivity. Qed.

Lemma ulp_pos (q : Q) : 0 < ulp q.
Proof. apply pow2_pos. Qed.

Lemma fexp_comp (p q : Q) : p == q -> 0 < p -> fexp p = fexp q.
Proof. intros E Hp. unfold fexp. now rewrite (exponent_comp E Hp). Qed.

Lemma round_pos_comp (p q : Q) : p == q -> 0 < p -> round_pos p == round_pos q.
Proof.
  intros E Hp. unfold round_pos. rewrite !ulp_fexp, (fexp_comp E Hp).
  rewrite (nearest_even_comp (x := p / pow2 (fexp q)) (y := q / pow2 (fexp q)));
    [reflexivity | now rewrite E].
Qed.

Lemma round_pos_error (q : Q) :
  - (ulp q / 2) <= round_pos q - q <= ulp q / 2.
Proof.
  unfold round_pos. pose proof (ulp_pos q) as Hu.
  pose proof (nearest_even_error (q / ulp q)) as [Hlo Hhi].
  set (n := inject_Z (nearest_even (q / ulp q))) in *.
  assert (E : n * ulp q - q == (n - q / ulp q) * ulp q) by (field; lra).
  rewrite E. split.
  - setoid_replace (- (ulp q / 2)) with (- (1 # 2) * ulp q) by (field).
    apply Qmult_le_compat_r; [exact Hlo | lra].
  - setoid_replace (ulp q / 2) with ((1 # 2) * ulp q) by (field).
    apply Qmult_le_compat_r; [exact Hhi | lra].
Qed.

Lemma round_pos_nonneg (q : Q) : 0 < q -> 0 <= round_pos q.
Proof.
  intros Hq. unfold round_pos. pose proof (ulp_pos q) as Hu.
  apply Qmult_le_0_compat; [|lra].
  change 0 with (inject_Z 0). rewrite <- Zle_Qle. apply nearest_even_lower.
  change (inject_Z 0) with 0. apply Qle_shift_div_l; [exact Hu | lra].
Qed.

(** A value [n * 2^e] with [n] an integer is a fixed point when [e] is at
    least the exponent of the last place. *)
Lemma round_pos_exact (q : Q) (m : Z) (e : Z) :
  q == inject_Z m * pow2 e -> (fexp q <= e)%Z -> round_pos q == q.
Proof.
  intros E He. unfold round_pos. rewrite ulp_fexp.
  set (f := fexp q) in *. clearbody f.
  pose proof (pow2_pos f) as Hu.
  assert (Hk : q / pow2 f == inject_Z (m * 2 ^ (e - f))).
  { rewrite inject_Z_mult, <- pow2_Z by lia. rewrite pow2_sub, E. field. lra. }
  rewrite (nearest_even_comp Hk), nearest_even_Z, <- Hk. field. lra.
Qed.

Lemma exponent_lt (q : Q) (k : Z) : 0 < q -> q < pow2 k -> (exponent q < k)%Z.
Proof.
  intros Hq H. destruct (exponent_spec Hq) as [Hlo _].
  apply pow2_lt_inv. eapply Qle_lt_trans; eassumption.
Qed.

Lemma exponent_ge (q : Q) (k : Z) : pow2 k <= q -> (k <= exponent q)%Z.
Proof.
  intros H.
  assert (Hq : 0 < q) by (eapply Qlt_le_trans; [apply pow2_pos | exact H]).
  destruct (exponent_spec Hq) as [_ Hhi].
  assert (k < exponent q + 1)%Z; [|lia].
  apply pow2_lt_inv. eapply Qle_lt_trans; eassumption.
Qed.

(** Rounding keeps a value between the two powers of two around it. *)
Lemma round_pos_binade (q : Q) :
  0 < q ->
  let e := Z.max (exponent q) (-1022) in
  (pow2 (exponent q) <= q -> pow2 e <= q -> pow2 e <= round_pos q)
  /\ round_pos q <= pow2 (e + 1).
Proof.
  intros Hq e. unfold round_pos. rewrite ulp_fexp. unfold fexp. fold e.
  pose proof (pow2_pos (e - 52)) as Hu.
  destruct (exponent_spec Hq) as [Hlo Hhi].
  split.
  - intros _ He.
    setoid_replace (pow2 e) with (inject_Z (2 ^ 52) * pow2 (e - 52)).
    2:{ rewrite <- pow2_Z by lia. rewrite <- pow2_add. now replace (52 + (e - 52))%Z with e by lia. }
    apply Qmult_le_compat_r; [|lra].
    rewrite <- Zle_Qle. apply nearest_even_lower.
    apply Qle_shift_div_l; [exact Hu|].
    rewrite <- pow2_Z by lia. rewrite <- pow2_add.
    now replace (52 + (e - 52))%Z with e by lia.
  - setoid_replace (pow2 (e + 1)) with (inject_Z (2 ^ 53) * pow2 (e - 52)).
    2:{ rewrite <- pow2_Z by lia. rewrite <- pow2_add. now replace (53 + (e - 52))%Z with (e + 1)%Z by lia. }
    apply Qmult_le_compat_r; [|lra].
    rewrite <- Zle_Qle. apply nearest_even_upper.
    apply Qle_shift_div_r; [exact Hu|].
    rewrite <- pow2_Z by lia. rewrite <- pow2_add.
    replace (53 + (e - 52))%Z with (e + 1)%Z by lia.
    apply Qlt_le_weak. eapply Qlt_le_trans; [exact Hhi|].
    apply pow2_le. lia.
Qed.

Lemma round_pos_mono (p q : Q) : 0 < p -> p <= q -> round_pos p <= round_pos q.
Proof.
  intros Hp Hpq.
  assert (Hq : 0 < q) by (eapply Qlt_le_trans; eassumption).
  pose proof (exponent_mono Hp Hpq) as He.
  set (ep := Z.max (exponent p) (-1022)).
  set (eq := Z.max (exponent q) (-1022)).
  destruct (Z.eq_dec ep eq) as [E|E].
  - unfold round_pos. rewrite !ulp_fexp. unfold fexp. fold ep eq. rewrite E.
    pose proof (pow2_pos (eq - 52)) as Hu.
    apply Qmult_le_compat_r; [|lra].
    rewrite <- Zle_Qle. apply nearest_even_mono.
    apply Qmult_le_compat_r; [exact Hpq|].
    apply Qlt_le_weak, Qinv_lt_0_compat, Hu.
  - assert (Hlt : (ep < eq)%Z) by lia.
    assert (Heq : eq = exponent q) by lia.
    destruct (round_pos_binade Hp) as [_ H1]. fold ep in H1.
    destruct (round_pos_binade Hq) as [H2 _]. fold eq in H2.
    destruct (exponent_spec Hq) as [Hlo _].
    eapply Qle_trans; [exact H1|].
    eapply Qle_trans; [apply (@pow2_le (ep + 1) eq); lia|].
    apply H2; [exact Hlo | rewrite Heq; exact Hlo].
Qed.

(** *** Rounding to binary64 *)

Lemma this_Q2Qc (q : Q) : this (Q2Qc q) == q.
Proof. apply Qred_correct. Qed.

Lemma FNum_Q2Qc (p q : Q) : p == q -> FNum (Q2Qc p) = FNum (Q2Qc q).
Proof. intros E. f_equal. now apply Q2Qc_eq_iff. Qed.

Lemma Qle_bool_comp (a b c d : Q) : a == b -> c == d -> Qle_bool a c = Qle_bool b d.
Proof.
  intros E1 E2. apply eq_true_iff_eq. rewrite !Qle_bool_iff. now rewrite E1, E2.
Qed.

Lemma round_overflow_comp (p q : Q) :
  p == q -> 0 < p -> round_overflow p = round_overflow q.
Proof.
  intros E Hp. unfold round_overflow. cbv zeta.
  pose proof (round_pos_comp E Hp) as Hv.
  rewrite (@Qle_bool_comp (pow2 1024) (pow2 1024) _ _ ltac:(reflexivity) Hv).
  destruct (Qle_bool _ _); [reflexivity | now apply FNum_Q2Qc].
Qed.

Lemma binary64_comp (p q : Q) : p == q -> binary64 p = binary64 q.
Proof.
  intros E. unfold binary64.
  rewrite (Qcompare_comp p q E 0 0 ltac:(reflexivity)).
  destruct (Qcompare_spec q 0) as [H|H|H]; [reflexivity | |].
  - f_equal. apply round_overflow_comp; [now rewrite E | rewrite E; lra].
  - apply round_overflow_comp; [exact E | now rewrite E].
Qed.


Lemma binary64_pos (q : Q) : 0 < q -> binary64 q = round_overflow q.
Proof.
  intros H. unfold binary64. now destruct (Qcompare_spec q 0); try lra.
Qed.

Lemma binary64_neg (q : Q) : q < 0 -> binary64 q = opp (round_overflow (- q)).
Proof.
  intros H. unfold binary64. now destruct (Qcompare_spec q 0); try lra.
Qed.

Lemma opp_involutive (x : float64) : opp (opp x) = x.
Proof.
  destruct x as [q|s|]; simpl; [|now rewrite negb_involutive|reflexivity].
  f_equal. ring.
Qed.

Lemma opp_0 : opp (of_Z 0) = of_Z 0.
Proof. reflexivity. Qed.


(** *** The order *)

Lemma leb_FNum (a b : Q) :
  (FNum (Q2Qc a) <=? FNum (Q2Qc b))%f64 = true <-> a <= b.
Proof.
  cbn [leb]. unfold Qc_leb. now rewrite Qle_bool_iff, !this_Q2Qc.
Qed.

Lemma le_opp (x y : float64) : (opp x <= opp y)%f64 <-> (y <= x)%f64.
Proof.
  unfold F64.le.
  destruct x as [a|[|]|], y as [b|[|]|]; simpl; try tauto; try easy.
  unfold Qc_leb. rewrite !Qle_bool_iff.
  change (this (- a)%Qc) with (Qred (- a)). change (this (- b)%Qc) with (Qred (- b)).
  rewrite !Qred_correct. split; intros H; lra.
Qed.

Lemma round_overflow_nonneg (q : Q) : 0 < q -> (of_Z 0 <= round_overflow q)%f64.
Proof.
  intros Hq. unfold round_overflow. cbv zeta.
  destruct (Qle_bool _ _); [reflexivity|].
  apply leb_FNum. now apply round_pos_nonneg.
Qed.

Lemma round_overflow_mono (p q : Q) :
  0 < p -> p <= q -> (round_overflow p <= round_overflow q)%f64.
Proof.
  intros Hp Hpq. pose proof (round_pos_mono Hp Hpq) as Hv.
  unfold round_overflow. cbv zeta.
  destruct (Qle_bool (pow2 1024) (round_pos p)) eqn:E1,
           (Qle_bool (pow2 1024) (round_pos q)) eqn:E2; try reflexivity.
  - apply Qle_bool_iff in E1.
    assert (H : Qle_bool (pow2 1024) (round_pos q) = true)
      by (apply Qle_bool_iff; lra).
    congruence.
  - now apply leb_FNum.
Qed.

Lemma le_refl_num (q : Qc) : (FNum q <= FNum q)%f64.
Proof. unfold F64.le. cbn [leb]. unfold Qc_leb. apply Qle_bool_iff. lra. Qed.

Lemma le_trans (x y z : float64) : (x <= y)%f64 -> (y <= z)%f64 -> (x <= z)%f64.
Proof.
  unfold F64.le.
  destruct x as [p|[|]|], y as [q|[|]|], z as [r|[|]|]; simpl; try easy.
  unfold Qc_leb. rewrite !Qle_bool_iff. apply Qle_trans.
Qed.

Lemma binary64_not_nan (q : Q) : binary64 q <> FNaN.
Proof.
  unfold binary64, round_overflow.
  destruct (Qcompare q 0); cbv zeta; try destruct (Qle_bool _ _); discriminate.
Qed.

Lemma binary64_le_0 (q : Q) : q <= 0 -> (binary64 q <= of_Z 0)%f64.
Proof.
  intros H. destruct (Qcompare_spec q 0) as [E|E|E]; [| |lra].
  - rewrite (binary64_comp E). reflexivity.
  - rewrite (binary64_neg E), <- opp_0. apply le_opp.
    apply round_overflow_nonneg. lra.
Qed.

Lemma binary64_ge_0 (q : Q) : 0 <= q -> (of_Z 0 <= binary64 q)%f64.
Proof.
  intros H. destruct (Qcompare_spec q 0) as [E|E|E]; [|lra|].
  - rewrite (binary64_comp E). reflexivity.
  - rewrite (binary64_pos E). now apply round_overflow_nonneg.
Qed.

(** Rounding is monotone. *)
Lemma binary64_mono (p q : Q) : p <= q -> (binary64 p <= binary64 q)%f64.
Proof.
  intros H.
  destruct (Qlt_le_dec 0 p) as [Hp|Hp].
  - rewrite !binary64_pos by lra. now apply round_overflow_mono.
  - destruct (Qlt_le_dec q 0) as [Hq|Hq].
    + rewrite !binary64_neg by lra. apply le_opp.
      apply round_overflow_mono; lra.
    + eapply le_trans; [apply binary64_le_0, Hp | apply binary64_ge_0, Hq].
Qed.

(** *** Values that binary64 holds *)

Lemma round_overflow_exact (q : Q) (m e : Z) :
  0 < q -> q == inject_Z m * pow2 e -> (Z.abs m < 2 ^ 53)%Z ->
  (-1074 <= e)%Z -> q < pow2 1024 ->
  round_overflow q = of_Q q.
Proof.
  intros Hq E Hm He Hmax.
  assert (Hf : (fexp q <= e)%Z).
  { unfold fexp.
    assert (exponent q < 53 + e)%Z; [|lia].
    apply exponent_lt; [exact Hq|]. rewrite E, pow2_add.
    apply Qmult_lt_compat_r; [apply pow2_pos|].
    rewrite pow2_Z by lia. rewrite <- Zlt_Qlt. lia. }
  pose proof (round_pos_exact E Hf) as Hv.
  unfold round_overflow. cbv zeta.
  destruct (Qle_bool (pow2 1024) (round_pos q)) eqn:Eo.
  - apply Qle_bool_iff in Eo. rewrite Hv in Eo. lra.
  - now apply FNum_Q2Qc.
Qed.

Lemma of_Q_opp (q : Q) : opp (of_Q q) = of_Q (- q).
Proof.
  unfold of_Q. cbn [opp]. f_equal. apply Qc_is_canon.
  change (Qred (- Qred q) == Qred (- q)). now rewrite !Qred_correct.
Qed.

Lemma binary64_exact (q : Q) (m e : Z) :
  q == inject_Z m * pow2 e -> (Z.abs m < 2 ^ 53)%Z -> (-1074 <= e)%Z ->
  - pow2 1024 < q -> q < pow2 1024 ->
  binary64 q = of_Q q.
Proof.
  intros E Hm He Hlo Hhi.
  destruct (Qcompare_spec q 0) as [H|H|H].
  - rewrite (binary64_comp H). unfold of_Q. now apply FNum_Q2Qc.
  - rewrite (binary64_neg H).
    rewrite (@round_overflow_exact (- q) (- m) e); try lra; try lia.
    + rewrite of_Q_opp. unfold of_Q. apply FNum_Q2Qc. ring.
    + rewrite E, inject_Z_opp. ring.
  - rewrite (binary64_pos H). now apply (@round_overflow_exact q m e).
Qed.

Lemma pow2_53 : pow2 53 == inject_Z (2 ^ 53).
Proof. now apply pow2_Z. Qed.

(** Every integer up to [2^53] in magnitude is a binary64 value. *)
Lemma binary64_int (z : Z) :
  (Z.abs z <= 2 ^ 53)%Z -> binary64 (inject_Z z) = of_Z z.
Proof.
  intros Hz. unfold of_Z.
  assert (Hbig : inject_Z (2 ^ 53) < pow2 1024).
  { rewrite <- pow2_53. apply pow2_lt. lia. }
  destruct (Z.eq_dec (Z.abs z) (2 ^ 53)) as [E|E].
  - assert (Hs : z = (2 ^ 53)%Z \/ z = (- 2 ^ 53)%Z) by lia.
    destruct Hs as [-> | ->].
    + apply (@binary64_exact _ 1 53); try lia.
      * rewrite pow2_53. ring.
      * apply Qlt_trans with 0; [|reflexivity].
        rewrite <- (Qopp_opp 0). apply Qopp_lt_compat. apply pow2_pos.
      * exact Hbig.
    + apply (@binary64_exact _ (-1) 53); try lia.
      * rewrite pow2_53, inject_Z_opp. change (inject_Z (-1)) with (- (1)). ring.
      * rewrite inject_Z_opp. apply Qopp_lt_compat. exact Hbig.
      * apply Qlt_trans with 0; [reflexivity | apply pow2_pos].
  - apply (@binary64_exact _ z 0); try lia.
    + change (pow2 0) with 1. ring.
    + apply Qlt_le_trans with (- inject_Z (2 ^ 53)).
      * apply Qopp_lt_compat. exact Hbig.
      * rewrite <- inject_Z_opp, <- Zle_Qle. lia.
    + apply Qle_lt_trans with (inject_Z (2 ^ 53)); [|exact Hbig].
      rewrite <- Zle_Qle. lia.
Qed.

(** *** The error of a rounding *)

Lemma ulp_normal (q : Q) : pow2 (-1022) <= q -> ulp q <= q * pow2 (-52).
Proof.
  intros H. pose proof (@exponent_ge q _ H) as He.
  assert (Hq : 0 < q) by (eapply Qlt_le_trans; [apply pow2_pos | exact H]).
  destruct (exponent_spec Hq) as [Hlo _].
  unfold ulp, fexp. rewrite Z.max_l by lia.
  replace (exponent q - 52)%Z with (exponent q + - 52)%Z by lia.
  rewrite pow2_add.
  apply Qmult_le_compat_r; [exact Hlo | apply Qlt_le_weak, pow2_pos].
Qed.

Lemma ulp_subnormal (q : Q) : 0 < q -> q < pow2 (-1022) -> ulp q = pow2 (-1074).
Proof.
  intros Hq H. pose proof (@exponent_lt q _ Hq H) as He.
  unfold ulp, fexp. now rewrite Z.max_r by lia.
Qed.

Lemma ulp_bound (q : Q) : 0 < q -> ulp q <= q * pow2 (-52) + pow2 (-1074).
Proof.
  intros Hq. destruct (Qlt_le_dec q (pow2 (-1022))) as [H|H].
  - rewrite (ulp_subnormal Hq H).
    assert (0 <= q * pow2 (-52)); [|lra].
    apply Qmult_le_0_compat; [lra | apply Qlt_le_weak, pow2_pos].
  - pose proof (ulp_normal H). pose proof (pow2_pos (-1074)). lra.
Qed.

(** The finite result of rounding [q > 0] is within half a unit in the
    last place of [q]; the result is infinite only from [2^1023] on. *)
Lemma round_overflow_error (q : Q) :
  0 < q ->
  (round_overflow q = FInf false /\ pow2 1023 <= q)
  \/ (exists v, round_overflow q = FNum (Q2Qc v)
                /\ - (ulp q / 2) <= v - q <= ulp q / 2).
Proof.
  intros Hq. unfold round_overflow. cbv zeta.
  destruct (Qle_bool (pow2 1024) (round_pos q)) eqn:E.
  - left. split; [reflexivity|]. apply Qle_bool_iff in E.
    destruct (Qlt_le_dec q (pow2 1023)) as [H|H]; [exfalso|exact H].
    destruct (round_pos_binade Hq) as [_ Hup]. cbv zeta in Hup.
    pose proof (@exponent_lt q _ Hq H) as He.
    assert (Hle : pow2 (Z.max (exponent q) (-1022) + 1) <= pow2 1023)
      by (apply pow2_le; lia).
    assert (Hlt : pow2 1023 < pow2 1024) by (apply pow2_lt; lia).
    lra.
  - right. exists (round_pos q). split; [reflexivity|]. apply round_pos_error.
Qed.

End Rounding.
(** ** Arithmetic of [float64] *)

Lemma Qc_ltb_true (a b : Qc) : Qc_ltb a b = true <-> (a < b)%Q.
Proof.
  unfold Qc_ltb. rewrite negb_true_iff, <- not_true_iff_false, Qle_bool_iff.
  split; [apply Qnot_le_lt | apply Qlt_not_le].
Qed.

Lemma Qc_ltb_false (a b : Qc) : Qc_ltb a b = false <-> (b <= a)%Q.
Proof. unfold Qc_ltb. rewrite negb_false_iff. apply Qle_bool_iff. Qed.

Lemma Qc_leb_true (a b : Qc) : Qc_leb a b = true <-> (a <= b)%Q.
Proof. apply Qle_bool_iff. Qed.

Lemma Qc_leb_false (a b : Qc) : Qc_leb a b = false <-> (b < a)%Q.
Proof.
  unfold Qc_leb. rewrite <- not_true_iff_false, Qle_bool_iff.
  split; [apply Qnot_le_lt | apply Qlt_not_le].
Qed.

Lemma this_of_Z (z : Z) : (this (Q2Qc (inject_Z z)) == inject_Z z)%Q.
Proof. change (Qred (inject_Z z) == inject_Z z)%Q. apply Qred_correct. Qed.

Lemma is_zero_of_Z (z : Z) : is_zero (Q2Qc (inject_Z z)) = (z =? 0)%Z.
Proof.
  unfold is_zero.
  destruct (Z.eqb_spec z 0) as [->|Hz]; [reflexivity|].
  apply Z.eqb_neq. intros H. apply Hz.
  assert (E : (this (Q2Qc (inject_Z z)) == 0)%Q).
  { unfold Qeq. rewrite H. reflexivity. }
  rewrite this_of_Z in E. unfold Qeq, inject_Z in E. simpl in E. lia.
Qed.

Lemma is_zero_pos (a : Qc) : (0 < a)%Q -> is_zero a = false.
Proof.
  unfold is_zero, Qlt. simpl. intros H. apply Z.eqb_neq. lia.
Qed.

Lemma is_neg_pos (a : Qc) : (0 < a)%Q -> is_neg a = false.
Proof.
  unfold is_neg, Qlt. simpl. intros H. apply Z.ltb_ge. lia.
Qed.

Lemma inject_Z_bounds (lo z hi : Z) :
  (lo <= z <= hi)%Z -> (inject_Z lo <= inject_Z z <= inject_Z hi)%Q.
Proof. intros [H1 H2]. split; now rewrite <- Zle_Qle. Qed.

Lemma FNum_eq (a b : Qc) : Qeq_bool a b = true -> FNum a = FNum b.
Proof. intros E. f_equal. apply Qc_is_canon. now apply Qeq_bool_iff. Qed.

Ltac float_eq := vm_compute; apply FNum_eq; vm_compute; reflexivity.

Lemma float_eqb_eq (x y : float64) : float_eqb x y = true -> x = y.
Proof.
  destruct x as [a|s|], y as [b|t|]; simpl; try discriminate; try reflexivity.
  - apply FNum_eq.
  - intros E. apply Bool.eqb_prop in E. now subst.
Qed.

(** The constants of the two scoring functions. *)
Lemma flit_half : flit 5 10 = of_Q (1 # 2).
Proof. float_eq. Qed.

(** Sums and products of integers, while they stay below [2^53]. *)
Lemma add_of_Z (x y : Z) :
  (Z.abs (x + y) <= 2 ^ 53)%Z -> (of_Z x + of_Z y)%f64 = of_Z (x + y).
Proof.
  intros H. unfold of_Z at 1 2, of_Q. cbn [add].
  rewrite <- (binary64_int _ H). apply binary64_comp.
  rewrite !this_of_Z, inject_Z_plus. reflexivity.
Qed.


(** ** Order of [float64] *)

Lemma ltb_leb (a b : float64) : (a <? b)%f64 = true -> (a <=? b)%f64 = true.
Proof.
  destruct a as [p|[|]|], b as [q|[|]|]; simpl; try easy.
  rewrite Qc_ltb_true. unfold Qc_leb. rewrite Qle_bool_iff. apply Qlt_le_weak.
Qed.

Lemma not_ltb_leb (a b : float64) :
  a <> FNaN -> b <> FNaN -> (a <? b)%f64 = false -> (b <=? a)%f64 = true.
Proof.
  destruct a as [p|[|]|], b as [q|[|]|]; simpl; try easy.
  intros _ _. rewrite Qc_ltb_false. unfold Qc_leb. now rewrite Qle_bool_iff.
Qed.

Lemma leb_trans (a b c : float64) :
  (a <=? b)%f64 = true -> (b <=? c)%f64 = true -> (a <=? c)%f64 = true.
Proof. exact (@le_trans a b c). Qed.

Lemma le_not_nan (a b : float64) : (a <= b)%f64 -> b <> FNaN.
Proof. destruct a as [p|[|]|], b as [q|[|]|]; simpl; easy. Qed.

Lemma le_minf (x : float64) : x <> FNaN -> (FInf true <= x)%f64.
Proof. destruct x as [q|[|]|]; simpl; easy. Qed.

Lemma le_pinf (x : float64) : x <> FNaN -> (x <= FInf false)%f64.
Proof. destruct x as [q|[|]|]; simpl; easy. Qed.

Lemma ltb_le_trans (c x y : float64) :
  (c <? x)%f64 = true -> (x <= y)%f64 -> (c <? y)%f64 = true.
Proof.
  unfold F64.le.
  destruct c as [r|[|]|], x as [p|[|]|], y as [q|[|]|]; simpl; try easy.
  rewrite !Qc_ltb_true. unfold Qc_leb. rewrite Qle_bool_iff. intros. lra.
Qed.

Lemma le_num (p q : Qc) : (FNum p <= FNum q)%f64 <-> (p <= q)%Q.
Proof. unfold F64.le. cbn [leb]. apply Qc_leb_true. Qed.

Lemma of_Z_le (x y : Z) : (of_Z x <= of_Z y)%f64 <-> (x <= y)%Z.
Proof.
  unfold of_Z, of_Q. rewrite le_num, !this_of_Z, <- Zle_Qle. tauto.
Qed.

(** ** The operations keep the order and are numbers *)

Lemma sub_num_not_nan (x : float64) (b : Qc) : x <> FNaN -> (x - FNum b)%f64 <> FNaN.
Proof.
  destruct x as [a|s|]; cbn [sub]; try easy. intros _. apply binary64_not_nan.
Qed.

Lemma div_pos_not_nan (x : float64) (b : Qc) :
  (0 < b)%Q -> x <> FNaN -> (x / FNum b)%f64 <> FNaN.
Proof.
  intros Hb. destruct x as [a|s|]; cbn [div]; try easy.
  rewrite (is_zero_pos b Hb). intros _. apply binary64_not_nan.
Qed.

Lemma mul_pos_not_nan (x : float64) (b : Qc) :
  (0 < b)%Q -> x <> FNaN -> (x * FNum b)%f64 <> FNaN.
Proof.
  intros Hb. destruct x as [a|s|]; cbn [mul]; try easy.
  - intros _. apply binary64_not_nan.
  - now rewrite (is_zero_pos b Hb).
Qed.

Lemma add_not_nan (q : Qc) (y : float64) : y <> FNaN -> (FNum q + y)%f64 <> FNaN.
Proof.
  destruct y as [b|[|]|]; cbn [add]; try easy. intros _. apply binary64_not_nan.
Qed.

Lemma sub_mono_l (x y : float64) (b : Qc) :
  (x <= y)%f64 -> (x - FNum b <= y - FNum b)%f64.
Proof.
  intros H.
  destruct x as [p|[|]|], y as [q|[|]|]; try easy; cbn [sub].
  - apply binary64_mono. apply le_num in H. lra.
  - apply le_pinf, binary64_not_nan.
  - apply le_minf, binary64_not_nan.
Qed.

Lemma div_mono_l (x y : float64) (b : Qc) :
  (0 < b)%Q -> (x <= y)%f64 -> (x / FNum b <= y / FNum b)%f64.
Proof.
  intros Hb H.
  destruct x as [p|[|]|], y as [q|[|]|]; try easy; cbn [div];
    rewrite ?(is_zero_pos b Hb), ?(is_neg_pos b Hb); cbn [xorb]; try easy.
  - apply binary64_mono. apply le_num in H.
    apply Qmult_le_compat_r; [exact H|].
    apply Qlt_le_weak, Qinv_lt_0_compat, Hb.
  - apply le_pinf, binary64_not_nan.
  - apply le_minf, binary64_not_nan.
Qed.

Lemma mul_mono_l (x y : float64) (b : Qc) :
  (0 < b)%Q -> (x <= y)%f64 -> (x * FNum b <= y * FNum b)%f64.
Proof.
  intros Hb H.
  destruct x as [p|[|]|], y as [q|[|]|]; try easy; cbn [mul];
    rewrite ?(is_zero_pos b Hb), ?(is_neg_pos b Hb); cbn [xorb]; try easy.
  - apply binary64_mono. apply le_num in H.
    apply Qmult_le_compat_r; [exact H | lra].
  - apply le_pinf, binary64_not_nan.
  - apply le_minf, binary64_not_nan.
Qed.



(** ** The error of one operation *)

Lemma Qabs_bound (x e : Q) : (Qabs x <= e)%Q <-> (- e <= x <= e)%Q.
Proof. apply Qabs_Qle_condition. Qed.

Lemma half_ulp_bound (q : Q) :
  (0 < q)%Q -> (ulp q / 2 <= (q * pow2 (-52) + pow2 (-1074)) / 2)%Q.
Proof.
  intros Hq. pose proof (ulp_bound Hq) as H.
  apply Qmult_le_compat_r; [exact H | discriminate].
Qed.

(** A finite result is within half a unit in the last place of the exact
    value. *)
Lemma binary64_error (q : Q) (v : Qc) :
  binary64 q = FNum v ->
  (Qabs (v - q) <= (Qabs q * pow2 (-52) + pow2 (-1074)) / 2)%Q.
Proof.
  intros E. apply Qabs_bound.
  destruct (Qcompare_spec q 0) as [H|H|H].
  - rewrite (binary64_comp H) in E. injection E as <-.
    rewrite H. vm_compute. split; discriminate.
  - rewrite (binary64_neg H) in E.
    destruct (@round_overflow_error (- q)) as [[Ei _] | (w & Ew & Hlo & Hhi)];
      [lra | rewrite Ei in E; discriminate |].
    rewrite Ew in E. cbn [opp] in E. injection E as <-.
    pose proof (@half_ulp_bound (- q) ltac:(lra)) as Hu.
    rewrite (Qabs_neg q) by lra.
    change (this (- Q2Qc w)%Qc) with (Qred (- Qred w)).
    rewrite !Qred_correct. split; lra.
  - rewrite (binary64_pos H) in E.
    destruct (round_overflow_error H) as [[Ei _] | (w & Ew & Hlo & Hhi)];
      [rewrite Ei in E; discriminate |].
    rewrite Ew in E. injection E as <-.
    pose proof (half_ulp_bound H) as Hu.
    rewrite (Qabs_pos q) by lra.
    rewrite this_Q2Qc. split; lra.
Qed.

(** Between two integers that binary64 holds the result is finite and
    between them. *)
Lemma binary64_between (q : Q) (lo hi : Z) :
  (Z.abs lo <= 2 ^ 53)%Z -> (Z.abs hi <= 2 ^ 53)%Z ->
  (inject_Z lo <= q)%Q -> (q <= inject_Z hi)%Q ->
  exists v : Qc, binary64 q = FNum v /\ (inject_Z lo <= v)%Q /\ (v <= inject_Z hi)%Q.
Proof.
  intros Hlo Hhi H1 H2.
  pose proof (binary64_mono H1) as M1. rewrite (binary64_int _ Hlo) in M1.
  pose proof (binary64_mono H2) as M2. rewrite (binary64_int _ Hhi) in M2.
  destruct (binary64 q) as [v|[|]|]; try easy.
  exists v. split; [reflexivity|].
  unfold of_Z, of_Q in M1, M2. rewrite le_num, this_of_Z in M1, M2. now split.
Qed.

(** The gap between 1 and the next binary64 value. *)
Lemma pow2_m52 : (pow2 (-52) == 1 # 4503599627370496)%Q.
Proof. reflexivity. Qed.

Lemma pow2_m1074_le : (pow2 (-1074) <= pow2 (-52))%Q.
Proof. apply pow2_le. lia. Qed.

(** Up to the magnitude [B] the error of an operation is at most
    [B * 2^-52]. *)
Lemma binary64_near (q : Q) (B : Z) :
  (1 <= B <= 2 ^ 53)%Z -> (- inject_Z B <= q)%Q -> (q <= inject_Z B)%Q ->
  exists v : Qc,
    binary64 q = FNum v
    /\ (- inject_Z B <= v)%Q /\ (v <= inject_Z B)%Q
    /\ (- (inject_Z B * (1 # 4503599627370496)) <= v - q)%Q
    /\ (v - q <= inject_Z B * (1 # 4503599627370496))%Q.
Proof.
  intros HB H1 H2.
  destruct (@binary64_between q (- B) B) as (v & E & V1 & V2);
    rewrite ?inject_Z_opp; try lia; try assumption.
  exists v. split; [exact E|]. rewrite inject_Z_opp in V1.
  split; [exact V1|]. split; [exact V2|].
  pose proof (@binary64_error q v E) as Herr. apply Qabs_bound in Herr.
  assert (Hq : (Qabs q <= inject_Z B)%Q) by (apply Qabs_bound; now split).
  assert (H1B : (1 <= inject_Z B)%Q).
  { change 1%Q with (inject_Z 1). rewrite <- Zle_Qle. lia. }
  pose proof pow2_m1074_le as Hs. pose proof (pow2_pos (-52)) as Hp.
  rewrite <- pow2_m52.
  assert (Hb : ((Qabs q * pow2 (-52) + pow2 (-1074)) / 2 <= inject_Z B * pow2 (-52))%Q).
  { apply Qle_shift_div_r; [reflexivity|].
    assert (Qabs q * pow2 (-52) <= inject_Z B * pow2 (-52))%Q
      by (apply Qmult_le_compat_r; [exact Hq | lra]).
    assert (pow2 (-52) <= inject_Z B * pow2 (-52))%Q.
    { rewrite <- (Qmult_1_l (pow2 (-52))) at 1.
      apply Qmult_le_compat_r; [exact H1B | lra]. }
    lra. }
  split; lra.
Qed.

(** ** [math.Round] *)

Lemma round_half_away_bounds (x : Q) (lo hi : Z) :
  (inject_Z lo <= x)%Q -> (x <= inject_Z hi)%Q ->
  (lo <= round_half_away x <= hi)%Z.
Proof.
  destruct x as [n d]. unfold Qle, round_half_away, inject_Z.
  cbn [Qnum Qden]. rewrite !Z.mul_1_r. intros Hlo Hhi.
  destruct (0 <=? n)%Z eqn:E.
  - split.
    + apply Z.div_le_lower_bound; lia.
    + apply Z.lt_succ_r, Z.div_lt_upper_bound; lia.
  - assert (- hi <= (2 * - n + Z.pos d) / (2 * Z.pos d) <= - lo)%Z; [|lia].
    split.
    + apply Z.div_le_lower_bound; lia.
    + apply Z.lt_succ_r, Z.div_lt_upper_bound; lia.
Qed.

Lemma Zdiv_cross_le (a b c d : Z) :
  (0 < b)%Z -> (0 < d)%Z -> (a * d <= c * b)%Z -> (a / b <= c / d)%Z.
Proof.
  intros Hb Hd H. apply Z.div_le_lower_bound; [exact Hd|].
  pose proof (Z.mul_div_le a b Hb) as Hk.
  assert (Hk' : (b * (a / b) * d <= a * d)%Z) by (apply Z.mul_le_mono_nonneg_r; lia).
  apply (Z.mul_le_mono_pos_r _ _ b); [exact Hb|]. lia.
Qed.

Lemma round_half_away_mono (x y : Q) :
  (x <= y)%Q -> (round_half_away x <= round_half_away y)%Z.
Proof.
  destruct x as [n1 d1], y as [n2 d2]. unfold Qle, round_half_away.
  cbn [Qnum Qden]. intros H.
  destruct (Z.leb_spec 0 n1), (Z.leb_spec 0 n2).
  - apply Zdiv_cross_le; lia.
  - exfalso. nia.
  - assert (0 <= (2 * - n1 + Z.pos d1) / (2 * Z.pos d1))%Z
      by (apply Z.div_pos; lia).
    assert (0 <= (2 * n2 + Z.pos d2) / (2 * Z.pos d2))%Z
      by (apply Z.div_pos; lia).
    lia.
  - apply Z.opp_le_mono. rewrite !Z.opp_involutive.
    apply Zdiv_cross_le; lia.
Qed.





(** ** The lookup tables of the code against those of the specification *)

Ltac label_cases r :=
  cbn [map_get Spec.table_value existsb];
  repeat match goal with
  | |- context [String.eqb r ?k] =>
      destruct (String.eqb r k); cbn [orb]; try reflexivity
  end.

Lemma table_value_range (t : Spec.table) (d lo hi : Z) (label : string) :
  (lo <= d <= hi)%Z ->
  Forall (fun row => (lo <= snd row <= hi)%Z) t ->
  (lo <= Spec.table_value t d label <= hi)%Z.
Proof.
  intros Hd Ht. induction Ht as [|[labels v] t Hv _ IH]; simpl.
  - exact Hd.
  - destruct (existsb (String.eqb label) labels); [exact Hv | exact IH].
Qed.

Lemma table_value_in (t : Spec.table) (d : Z) (label : string) :
  In (Spec.table_value t d label) (d :: map snd t).
Proof.
  induction t as [|[labels v] t IH]; simpl.
  - now left.
  - destruct (existsb (String.eqb label) labels); [right; now left|].
    destruct IH as [IH|IH]; [now left | right; now right].
Qed.

Lemma ingest_rating_lookup (r : string) (x : float64) :
  match map_get Stocks.ratingScores r with
  | Some v => (x + v)%f64
  | None => x
  end
  = if existsb (fun row => existsb (String.eqb r) (fst row)) Spec.ingest_rating_delta
    then (x + of_Z (Spec.table_value Spec.ingest_rating_delta 0 r))%f64
    else x.
Proof.
  unfold Stocks.ratingScores, Spec.ingest_rating_delta. cbn [existsb fst].
  label_cases r.
Qed.

Lemma ingest_action_lookup (a : string) (x : float64) :
  match map_get Stocks.actionScores a with
  | Some v => (x + v)%f64
  | None => x
  end
  = if existsb (fun row => existsb (String.eqb a) (fst row)) Spec.ingest_action_delta
    then (x + of_Z (Spec.table_value Spec.ingest_action_delta 0 a))%f64
    else x.
Proof.
  unfold Stocks.actionScores, Spec.ingest_action_delta. cbn [existsb fst].
  label_cases a.
Qed.

Lemma table_value_unlisted (t : Spec.table) (d : Z) (label : string) :
  existsb (fun row => existsb (String.eqb label) (fst row)) t = false ->
  Spec.table_value t d label = d.
Proof.
  induction t as [|[labels v] t IH]; [reflexivity|]. cbn [existsb fst Spec.table_value].
  destruct (existsb (String.eqb label) labels); [discriminate|]. exact IH.
Qed.

Lemma rating_contribution_lookup (r : string) :
  Recommendation.calculateRatingScore r
  = of_Z (Spec.table_value Spec.rating_contribution 40 r).
Proof.
  unfold Recommendation.calculateRatingScore, Recommendation.ratingTable,
    Spec.rating_contribution.
  label_cases r.
Qed.

Lemma action_contribution_lookup (a : string) :
  Recommendation.calculateActionScore a
  = of_Z (Spec.table_value Spec.action_contribution 50 a).
Proof.
  unfold Recommendation.calculateActionScore, Recommendation.actionTable,
    Spec.action_contribution.
  label_cases a.
Qed.

(** The sum of the base and the two deltas, as the code builds it, is the
    integer of the specification. *)
Lemma ingest_lookups (r a : string) :
  match map_get Stocks.actionScores a with
  | Some actionScore =>
      (match map_get Stocks.ratingScores r with
       | Some ratingScore => of_Z 50 + ratingScore
       | None => of_Z 50
       end + actionScore)%f64
  | None =>
      match map_get Stocks.ratingScores r with
      | Some ratingScore => (of_Z 50 + ratingScore)%f64
      | None => of_Z 50
      end
  end
  = of_Z (50 + Spec.table_value Spec.ingest_rating_delta 0 r
          + Spec.table_value Spec.ingest_action_delta 0 a).
Proof.
  pose proof (ingest_rating_lookup r (of_Z 50)) as Hr. rewrite Hr. clear Hr.
  set (base := if existsb _ Spec.ingest_rating_delta then _ else _).
  pose proof (ingest_action_lookup a base) as Ha. rewrite Ha. clear Ha.
  assert (Rr : (-30 <= Spec.table_value Spec.ingest_rating_delta 0 r <= 30)%Z).
  { apply table_value_range; [lia|].
    unfold Spec.ingest_rating_delta. repeat constructor; simpl; lia. }
  assert (Ra : (-20 <= Spec.table_value Spec.ingest_action_delta 0 a <= 20)%Z).
  { apply table_value_range; [lia|].
    unfold Spec.ingest_action_delta. repeat constructor; simpl; lia. }
  assert (Hbase : base = of_Z (50 + Spec.table_value Spec.ingest_rating_delta 0 r)).
  { unfold base.
    destruct (existsb _ Spec.ingest_rating_delta) eqn:E.
    - apply add_of_Z. lia.
    - rewrite (table_value_unlisted _ _ _ E). reflexivity. }
  rewrite Hbase.
  destruct (existsb _ Spec.ingest_action_delta) eqn:E.
  - apply add_of_Z. lia.
  - rewrite (table_value_unlisted Spec.ingest_action_delta _ _ E).
    now rewrite Z.add_0_r.
Qed.

(** ** The steps of the two scoring functions *)

Lemma calculateRecommendScore_steps (stock : Stock) :
  Stocks.calculateRecommendScore stock
  = roundScore (clampScore
      (let base := of_Z (50 + Spec.table_value Spec.ingest_rating_delta 0 (RatingTo stock)
                         + Spec.table_value Spec.ingest_action_delta 0 (Action stock)) in
       if (TargetFrom stock >? of_Z 0)%f64 && (TargetTo stock >? of_Z 0)%f64
       then (base + percentChange (TargetFrom stock) (TargetTo stock) * flit 5 10)%f64
       else base)).
Proof.
  unfold Stocks.calculateRecommendScore. cbv zeta.
  rewrite ingest_lookups. reflexivity.
Qed.

Lemma CalculateScore_steps (stock : Stock) :
  Recommendation.CalculateScore stock
  = blendScore (of_Z (Spec.table_value Spec.rating_contribution 40 (RatingTo stock)))
               (of_Z (Spec.table_value Spec.action_contribution 50 (Action stock)))
               (Recommendation.calculatePriceTargetScore (TargetFrom stock) (TargetTo stock)).
Proof.
  rewrite <- rating_contribution_lookup, <- action_contribution_lookup. reflexivity.
Qed.

Lemma calculatePriceTargetScore_range (from to : float64) :
  exists z,
    Recommendation.calculatePriceTargetScore from to = of_Z z /\ In z priceTargetScores.
Proof.
  unfold Recommendation.calculatePriceTargetScore, priceTargetScores.
  repeat match goal with
  | |- context [if ?c then _ else _] => destruct c
  end; eexists; (split; [reflexivity | simpl; tauto]).
Qed.

(** The blend of the code on the values of the tables is the float next to
    the blend of the specification: checked on each of the combinations. *)
Lemma blendScore_table :
  forallb (fun r =>
    forallb (fun a =>
      forallb (fun p =>
        float_eqb (blendScore (of_Z r) (of_Z a) (of_Z p)) (binary64 (Spec.blend r a p)))
        priceTargetScores)
      (50%Z :: map snd Spec.action_contribution))
    (40%Z :: map snd Spec.rating_contribution)
  = true.
Proof. vm_compute. reflexivity. Qed.

Lemma blendScore_blend (r a p : Z) :
  In r (40%Z :: map snd Spec.rating_contribution) ->
  In a (50%Z :: map snd Spec.action_contribution) ->
  In p priceTargetScores ->
  blendScore (of_Z r) (of_Z a) (of_Z p) = binary64 (Spec.blend r a p).
Proof.
  intros Hr Ha Hp. pose proof blendScore_table as T.
  rewrite forallb_forall in T. specialize (T r Hr).
  rewrite forallb_forall in T. specialize (T a Ha).
  rewrite forallb_forall in T. specialize (T p Hp).
  now apply float_eqb_eq.
Qed.

Lemma CalculateScore_blend (stock : Stock) (p : Z) :
  Recommendation.calculatePriceTargetScore (TargetFrom stock) (TargetTo stock) = of_Z p ->
  In p priceTargetScores ->
  Recommendation.CalculateScore stock
  = binary64 (Spec.blend (Spec.table_value Spec.rating_contribution 40 (RatingTo stock))
                         (Spec.table_value Spec.action_contribution 50 (Action stock)) p).
Proof.
  intros E Hp. rewrite CalculateScore_steps, E.
  apply blendScore_blend; [apply table_value_in | apply table_value_in | exact Hp].
Qed.

(** ** The blend of the specification *)

Lemma round2_bounds (x : Q) (lo hi : Z) :
  (inject_Z lo <= x)%Q -> (x <= inject_Z hi)%Q ->
  (inject_Z lo <= Spec.round2 x)%Q /\ (Spec.round2 x <= inject_Z hi)%Q.
Proof.
  intros Hlo Hhi.
  assert (Hr : (lo * 100 <= round_half_away (x * 100) <= hi * 100)%Z).
  { apply round_half_away_bounds; rewrite inject_Z_mult;
      (apply Qmult_le_compat_r; [assumption | discriminate]). }
  apply inject_Z_bounds in Hr. rewrite !inject_Z_mult in Hr.
  change (inject_Z 100) with 100%Q in Hr.
  unfold Spec.round2. destruct Hr as [H1 H2]. split.
  - apply Qle_shift_div_l; [reflexivity | exact H1].
  - apply Qle_shift_div_r; [reflexivity | exact H2].
Qed.

Lemma round2_mono (x y : Q) : (x <= y)%Q -> (Spec.round2 x <= Spec.round2 y)%Q.
Proof.
  intros H. unfold Spec.round2.
  apply Qmult_le_compat_r; [|discriminate].
  rewrite <- Zle_Qle. apply round_half_away_mono.
  apply Qmult_le_compat_r; [exact H | discriminate].
Qed.

Lemma blend_bounds (r a p : Z) :
  (0 <= r <= 100)%Z -> (0 <= a <= 100)%Z -> (0 <= p <= 100)%Z ->
  (inject_Z 50 <= Spec.blend r a p)%Q /\ (Spec.blend r a p <= inject_Z 100)%Q.
Proof.
  intros Hr Ha Hp. apply inject_Z_bounds in Hr, Ha, Hp.
  change (inject_Z 0) with 0%Q in *. change (inject_Z 100) with 100%Q in *.
  unfold Spec.blend. cbv zeta. apply round2_bounds.
  - apply Qle_shift_div_l; [reflexivity|]. change (inject_Z 50) with 50%Q. lra.
  - apply Qle_shift_div_r; [reflexivity|]. change (inject_Z 100) with 100%Q. lra.
Qed.

Lemma blend_mono (r1 a1 p1 r2 a2 p2 : Z) :
  (r1 <= r2)%Z -> (a1 <= a2)%Z -> (p1 <= p2)%Z ->
  (Spec.blend r1 a1 p1 <= Spec.blend r2 a2 p2)%Q.
Proof.
  intros Hr Ha Hp. rewrite Zle_Qle in Hr, Ha, Hp.
  unfold Spec.blend. cbv zeta. apply round2_mono.
  apply Qmult_le_compat_r; [|discriminate]. lra.
Qed.

Lemma priceTargetScores_range (p : Z) : In p priceTargetScores -> (0 <= p <= 100)%Z.
Proof. simpl. intuition lia. Qed.

(** The recommendation-time score is a number between 50 and 100. *)
Lemma recommendation_score_bounds (stock : Stock) :
  (of_Z 50 <= Recommendation.CalculateScore stock)%f64
  /\ (Recommendation.CalculateScore stock <= of_Z 100)%f64.
Proof.
  destruct (calculatePriceTargetScore_range (TargetFrom stock) (TargetTo stock))
    as (p & E & Hp).
  rewrite (CalculateScore_blend stock E Hp).
  set (r := Spec.table_value Spec.rating_contribution 40 (RatingTo stock)).
  set (a := Spec.table_value Spec.action_contribution 50 (Action stock)).
  assert (Hr : (0 <= r <= 100)%Z).
  { apply table_value_range; [lia|].
    unfold Spec.rating_contribution. repeat constructor; simpl; lia. }
  assert (Ha : (0 <= a <= 100)%Z).
  { apply table_value_range; [lia|].
    unfold Spec.action_contribution. repeat constructor; simpl; lia. }
  destruct (blend_bounds Hr Ha (priceTargetScores_range Hp)) as [H1 H2].
  rewrite <- (binary64_int 50), <- (binary64_int 100) by (simpl; lia).
  split; now apply binary64_mono.
Qed.

(** ** The clamp and the two decimals of the code *)

Ltac qle_cases :=
  repeat match goal with
  | |- context [Qle_bool ?a ?b] =>
      let E := fresh "E" in
      destruct (Qle_bool a b) eqn:E;
      [apply Qle_bool_iff in E
      |apply not_true_iff_false in E; rewrite Qle_bool_iff in E;
       apply Qnot_le_lt in E]
  end.

Lemma clamp_range (x : Q) :
  (0 <= Spec.clamp 0 100 x)%Q /\ (Spec.clamp 0 100 x <= 100)%Q.
Proof. unfold Spec.clamp. qle_cases; split; lra. Qed.





Lemma Q2Qc_this (q : Qc) : Q2Qc q = q.
Proof. apply Qc_is_canon. apply this_Q2Qc. Qed.

Lemma of_Q_comp (p q : Q) : (p == q)%Q -> of_Q p = of_Q q.
Proof. apply FNum_Q2Qc. Qed.

Lemma clampScore_num (q : Qc) : clampScore (FNum q) = of_Q (Spec.clamp 0 100 q).
Proof.
  unfold clampScore, gtb, Spec.clamp. cbv zeta.
  change (of_Z 100 <? FNum q)%f64 with (Qc_ltb (Q2Qc (inject_Z 100)) q).
  destruct (Qc_ltb (Q2Qc (inject_Z 100)) q) eqn:E1.
  - apply Qc_ltb_true in E1. rewrite this_of_Z in E1.
    change (inject_Z 100) with 100%Q in E1.
    change (of_Z 100 <? of_Z 0)%f64 with false. cbv iota.
    qle_cases; try lra. reflexivity.
  - apply Qc_ltb_false in E1. rewrite this_of_Z in E1.
    change (inject_Z 100) with 100%Q in E1.
    change (FNum q <? of_Z 0)%f64 with (Qc_ltb q (Q2Qc (inject_Z 0))).
    destruct (Qc_ltb q (Q2Qc (inject_Z 0))) eqn:E2.
    + apply Qc_ltb_true in E2. rewrite this_of_Z in E2.
      change (inject_Z 0) with 0%Q in E2. qle_cases; try lra. reflexivity.
    + apply Qc_ltb_false in E2. rewrite this_of_Z in E2.
      change (inject_Z 0) with 0%Q in E2.
      rewrite <- (Q2Qc_this q) at 1. apply of_Q_comp. qle_cases; lra.
Qed.

Lemma clampScore_pinf : clampScore (FInf false) = of_Z 100.
Proof. vm_compute. reflexivity. Qed.

Lemma clampScore_minf : clampScore (FInf true) = of_Z 0.
Proof. vm_compute. reflexivity. Qed.



(** The clamp gives a number between 0 and 100 on everything but [NaN]. *)
Lemma clampScore_range (x : float64) :
  x <> FNaN ->
  exists c : Qc, clampScore x = FNum c /\ (0 <= c)%Q /\ (c <= 100)%Q.
Proof.
  intros Hx. destruct x as [q|[|]|]; [| | |contradiction].
  - rewrite clampScore_num. eexists. split; [reflexivity|].
    rewrite this_Q2Qc. apply clamp_range.
  - rewrite clampScore_minf. eexists. split; [reflexivity|].
    rewrite this_of_Z. split; discriminate.
  - rewrite clampScore_pinf. eexists. split; [reflexivity|].
    rewrite this_of_Z. split; discriminate.
Qed.

Lemma mul_num_of_Z (q : Qc) (n : Z) :
  (FNum q * of_Z n)%f64 = binary64 (q * inject_Z n).
Proof.
  unfold of_Z, of_Q. cbn [mul]. apply binary64_comp. now rewrite this_of_Z.
Qed.

Lemma div_of_Z (k n : Z) :
  n <> 0%Z -> (of_Z k / of_Z n)%f64 = binary64 (inject_Z k / inject_Z n).
Proof.
  intros Hn. unfold of_Z, of_Q. cbn [div]. rewrite is_zero_of_Z.
  destruct (Z.eqb_spec n 0) as [|_]; [contradiction|].
  apply binary64_comp. now rewrite !this_of_Z.
Qed.

(** The two decimals of a clamped score [c]: the product [c * 100] is
    computed with an error of at most [2^-38], rounded to an integer and
    divided by 100. *)
Lemma roundScore_num (c : Qc) :
  (0 <= c)%Q -> (c <= 100)%Q ->
  exists Y : Qc,
    (0 <= Y)%Q /\ (Y <= 10000)%Q
    /\ (- (1 # 274877906944) <= Y - c * 100)%Q
    /\ (Y - c * 100 <= 1 # 274877906944)%Q
    /\ roundScore (FNum c) = binary64 (inject_Z (round_half_away Y) / 100).
Proof.
  intros H0 H1. unfold roundScore. rewrite mul_num_of_Z.
  change (inject_Z 100) with 100%Q.
  destruct (@binary64_near (c * 100) 16384) as (Y & E & _ & _ & E1 & E2);
    [lia | change (inject_Z 16384) with 16384%Q; lra
    | change (inject_Z 16384) with 16384%Q; lra |].
  destruct (@binary64_between (c * 100) 0 10000) as (Y' & E' & B1 & B2);
    [simpl; lia | simpl; lia | change (inject_Z 0) with 0%Q; lra
    | change (inject_Z 10000) with 10000%Q; lra |].
  rewrite E in E'. injection E' as <-.
  exists Y. rewrite E. cbn [Round].
  change (inject_Z 0) with 0%Q in B1. change (inject_Z 10000) with 10000%Q in B2.
  change (inject_Z 16384 * (1 # 4503599627370496))%Q with (16384 * (1 # 4503599627370496))%Q
    in E1, E2.
  repeat (split; [lra|]).
  now rewrite div_of_Z.
Qed.


(** A clamped score leaves with a value between 0 and 100. *)
Lemma roundScore_bounds (c : Qc) :
  (0 <= c)%Q -> (c <= 100)%Q -> Spec.in_bounds (roundScore (FNum c)).
Proof.
  intros H0 H1. destruct (roundScore_num c H0 H1) as (Y & Y0 & Y1 & _ & _ & ->).
  assert (Hk : (0 <= round_half_away Y <= 10000)%Z)
    by (apply round_half_away_bounds; assumption).
  apply inject_Z_bounds in Hk.
  change (inject_Z 0) with 0%Q in Hk. change (inject_Z 10000) with 10000%Q in Hk.
  unfold Spec.in_bounds.
  rewrite <- (binary64_int 0), <- (binary64_int 100) by (simpl; lia).
  split; apply binary64_mono.
  - apply Qle_shift_div_l; [reflexivity|]. change (inject_Z 0) with 0%Q. lra.
  - apply Qle_shift_div_r; [reflexivity|]. change (inject_Z 100) with 100%Q. lra.
Qed.

(** ** The floats that binary64 holds *)




(** In the normal range the error is relative. *)
Lemma binary64_error_normal (q : Q) (v : Qc) :
  binary64 q = FNum v -> (pow2 (-1022) <= Qabs q)%Q ->
  (Qabs (v - q) <= Qabs q * pow2 (-53))%Q.
Proof.
  intros E Hn. apply Qabs_bound.
  pose proof (pow2_pos (-1022)) as Hp.
  assert (Hh : forall p : Q, (pow2 (-1022) <= p)%Q -> (ulp p / 2 <= p * pow2 (-53))%Q).
  { intros p Hp'. pose proof (ulp_normal Hp') as Hu.
    apply Qle_shift_div_r; [reflexivity|].
    setoid_replace (p * pow2 (-53) * 2)%Q with (p * pow2 (-52))%Q; [exact Hu|].
    rewrite <- Qmult_assoc. apply Qmult_comp; [reflexivity|].
    change 2%Q with (pow2 1). now rewrite <- pow2_add. }
  destruct (Qcompare_spec q 0) as [H|H|H].
  - rewrite H in Hn. change (Qabs 0) with 0%Q in Hn. lra.
  - rewrite (Qabs_neg q) in * by lra.
    rewrite (binary64_neg H) in E.
    destruct (@round_overflow_error (- q)) as [[Ei _] | (w & Ew & Hlo & Hhi)];
      [lra | rewrite Ei in E; discriminate |].
    rewrite Ew in E. cbn [opp] in E. injection E as <-.
    pose proof (Hh _ Hn) as Hu.
    change (this (- Q2Qc w)%Qc) with (Qred (- Qred w)).
    rewrite !Qred_correct. split; lra.
  - rewrite (Qabs_pos q) in * by lra.
    rewrite (binary64_pos H) in E.
    destruct (round_overflow_error H) as [[Ei _] | (w & Ew & Hlo & Hhi)];
      [rewrite Ei in E; discriminate |].
    rewrite Ew in E. injection E as <-.
    pose proof (Hh _ Hn) as Hu.
    rewrite this_Q2Qc. split; lra.
Qed.


(** ** The percent change of the targets, computed and exact *)

Lemma pow2_m53 : (pow2 (-53) == 1 # 9007199254740992)%Q.
Proof. reflexivity. Qed.











(** ** The step of the price targets, computed and exact *)





(** ** The ingest-time score, computed and exact *)















(** ** The recommendation-time score, computed and exact *)




(** ** Bounds of the ingest-time score *)

(** With positive targets the price-target term of the ingest-time score
    is [NaN] only when the old target is [+Inf]. *)
Lemma ingest_target_term_not_nan (from to : float64) :
  from <> pInf ->
  (from >? of_Z 0)%f64 = true -> (to >? of_Z 0)%f64 = true ->
  (percentChange from to * flit 5 10)%f64 <> FNaN.
Proof.
  unfold gtb. intros Hfrom E1 E2.
  destruct from as [a|[|]|]; try discriminate; [|now elim Hfrom].
  apply Qc_ltb_true in E1. rewrite this_of_Z in E1.
  assert (Hto : to <> FNaN) by (destruct to; easy).
  rewrite flit_half. unfold percentChange, of_Z, of_Q.
  apply mul_pos_not_nan; [reflexivity|].
  apply mul_pos_not_nan; [reflexivity|].
  apply div_pos_not_nan; [exact E1|].
  now apply sub_num_not_nan.
Qed.

(** The ingest-time score is a number between 0 and 100 unless the old
    target is [+Inf]. *)
Lemma ingest_score_bounds (stock : Stock) :
  TargetFrom stock <> pInf ->
  Spec.in_bounds (Stocks.calculateRecommendScore stock).
Proof.
  intros Hfrom. rewrite calculateRecommendScore_steps. cbv zeta.
  set (base := of_Z (50 + _ + _)).
  set (x := if (_ && _) then (_ + _)%f64 else base).
  assert (Hx : x <> FNaN).
  { unfold x.
    destruct (TargetFrom stock >? of_Z 0)%f64 eqn:E1; [|discriminate].
    destruct (TargetTo stock >? of_Z 0)%f64 eqn:E2; [|discriminate].
    cbn [andb]. apply add_not_nan.
    now apply ingest_target_term_not_nan. }
  destruct (clampScore_range Hx) as (c & -> & C0 & C1).
  now apply roundScore_bounds.
Qed.

(** C5. On a stock whose old target is [+Inf] (the feed's text "Inf" parses
    to it) and whose new target is positive, [calculateRecommendScore]
    returns [NaN], which is not within [0,100]: the clamp lets [NaN] pass. *)
Theorem calculateRecommendScore_nan :
  Stocks.calculateRecommendScore infiniteTargetStock = FNaN
  /\ ~ Spec.in_bounds (Stocks.calculateRecommendScore infiniteTargetStock).
Proof.
  assert (E : Stocks.calculateRecommendScore infiniteTargetStock = FNaN)
    by (vm_compute; reflexivity).
  split; [exact E|]. rewrite E. intros [H _]. discriminate H.
Qed.

(** ** [sort.Slice] *)

Section SortSlice.
Context {A : Type} (less : A -> A -> bool).

Lemma sort_insert_perm (x : A) (s : list A) :
  Permutation (sort_insert less x s) (x :: s).
Proof.
  induction s as [|y s IH]; simpl; [reflexivity|].
  destruct (less y x); [|reflexivity].
  rewrite IH. apply perm_swap.
Qed.

Lemma sort_Slice_perm (s : list A) : Permutation (sort_Slice less s) s.
Proof.
  induction s as [|x s IH]; simpl; [reflexivity|].
  rewrite sort_insert_perm. now constructor.
Qed.

Lemma sort_Slice_length (s : list A) : length (sort_Slice less s) = length s.
Proof. apply Permutation_length, sort_Slice_perm. Qed.
End SortSlice.

Section SortByScore.
Context {A : Type} (score : A -> float64).

Local Abbreviation less := (fun x y : A => (score x >? score y)%f64).
Local Abbreviation ordered := (fun x y : A => (score y <= score x)%f64).

Lemma sort_insert_by_score (x : A) (s : list A) :
  score x <> FNaN -> Forall (fun y => score y <> FNaN) s ->
  StronglySorted ordered s -> StronglySorted ordered (sort_insert less x s).
Proof.
  intros Hx Hs Hsorted. induction Hsorted as [|y s Hsorted IH Hy]; simpl.
  - repeat constructor.
  - inversion Hs as [|? ? Hy' Hs']; subst.
    destruct (score y >? score x)%f64 eqn:E; unfold gtb in E.
    + constructor; [now apply IH|].
      rewrite (sort_insert_perm less x s). constructor; [|assumption].
      now apply ltb_leb.
    + apply not_ltb_leb in E; try assumption.
      constructor; [now constructor|].
      constructor; [exact E|].
      eapply Forall_impl; [|exact Hy]. intros z Hz.
      unfold F64.le in *. eapply leb_trans; eassumption.
Qed.

Lemma sort_Slice_by_score (s : list A) :
  Forall (fun y => score y <> FNaN) s ->
  StronglySorted ordered (sort_Slice less s).
Proof.
  induction 1 as [|x s Hx Hs IH]; simpl; [constructor|].
  apply sort_insert_by_score; try assumption.
  rewrite (sort_Slice_perm less s). assumption.
Qed.
End SortByScore.

Lemma Forall_firstn {A : Type} (P : A -> Prop) (n : nat) (s : list A) :
  Forall P s -> Forall P (firstn n s).
Proof.
  intros H. revert n. induction H as [|x s Hx H IH]; intros [|n]; simpl;
    constructor; [assumption | apply IH].
Qed.

Lemma StronglySorted_firstn {A : Type} (R : A -> A -> Prop) (n : nat) (s : list A) :
  StronglySorted R s -> StronglySorted R (firstn n s).
Proof.
  intros H. revert n. induction H as [|x s H IH Hx]; intros [|n]; simpl;
    constructor; [apply IH | now apply Forall_firstn].
Qed.

(** ** The recommendation ranker *)

Lemma assignRanks_scores (i : Z) (recs : list StockRecommendation) :
  map Score (Recommendation.assignRanks i recs) = map Score recs.
Proof. revert i. induction recs as [|r recs IH]; intros i; simpl; [|rewrite IH]; reflexivity. Qed.

Lemma assignRanks_stocks (i : Z) (recs : list StockRecommendation) :
  map RecStock (Recommendation.assignRanks i recs) = map RecStock recs.
Proof. revert i. induction recs as [|r recs IH]; intros i; simpl; [|rewrite IH]; reflexivity. Qed.

Lemma assignRanks_length (i : Z) (recs : list StockRecommendation) :
  length (Recommendation.assignRanks i recs) = length recs.
Proof. rewrite <- (length_map Score), assignRanks_scores. apply length_map. Qed.

Lemma assignRanks_ranks (i : nat) (recs : list StockRecommendation) :
  map Rank (Recommendation.assignRanks (Z.of_nat i) recs)
  = map Z.of_nat (seq (S i) (length recs)).
Proof.
  revert i. induction recs as [|r recs IH]; intros i; simpl; [reflexivity|].
  replace (Z.of_nat i + 1)%Z with (Z.of_nat (S i)) by lia.
  rewrite IH. reflexivity.
Qed.

Lemma assignRanks_Forall (P : Stock -> float64 -> Prop) (i : Z)
    (recs : list StockRecommendation) :
  Forall (fun r => P (RecStock r) (Score r)) recs ->
  Forall (fun r => P (RecStock r) (Score r)) (Recommendation.assignRanks i recs).
Proof.
  intros H. revert i. induction H as [|r recs Hr H IH]; intros i; simpl;
    constructor; [exact Hr | apply IH].
Qed.

Lemma effectiveLimit_range (limit : Z) :
  (1 <= Recommendation.effectiveLimit limit <= 100)%Z.
Proof.
  unfold Recommendation.effectiveLimit. rewrite Z.gtb_ltb.
  destruct (Z.ltb_spec limit 1), (Z.ltb_spec 100 limit); simpl; lia.
Qed.

Lemma effectiveLimit_spec (limit : Z) :
  Recommendation.effectiveLimit limit
  = if ((1 <=? limit) && (limit <=? 100))%Z then limit else 10%Z.
Proof.
  unfold Recommendation.effectiveLimit. rewrite Z.gtb_ltb.
  destruct (Z.ltb_spec limit 1), (Z.ltb_spec 100 limit),
    (Z.leb_spec 1 limit), (Z.leb_spec limit 100); simpl; lia.
Qed.

(** C7. For every requested limit and every repository, with [n] the
    effective limit (the requested one when it lies in [1,100], else 10):
    when the repository answers the request for [2 * n] candidates with
    [stocks], [GetTopRecommendations] returns [min n (len stocks)] items, so
    at most [n], each a candidate with its freshly computed
    recommendation-time score, in non-increasing order of that score, and
    with the ranks 1, 2, ..., len(result). *)
Theorem GetTopRecommendations_rank_contract {R : Type} `{StocksRepository R}
    (repo : R) (limit : Z) (stocks : list Stock) :
  let n := Recommendation.effectiveLimit limit in
  GetTopRecommended repo (n * 2)%Z = Ok stocks ->
  n = (if ((1 <=? limit) && (limit <=? 100))%Z then limit else 10%Z)
  /\ exists recs,
      Recommendation.GetTopRecommendations repo limit = Ok recs
      /\ len recs = Z.min n (len stocks)
      /\ StronglySorted (fun a b => (b <= a)%f64) (map Score recs)
      /\ Forall (fun r => In (RecStock r) stocks
                          /\ Score r = Recommendation.CalculateScore (RecStock r)) recs
      /\ map Rank recs = map Z.of_nat (seq 1 (length recs)).
Proof.
  intros n Hfetch. split; [apply effectiveLimit_spec|].
  unfold Recommendation.GetTopRecommendations. fold n. rewrite Hfetch.
  set (scored := map _ stocks).
  set (sorted := sort_Slice _ scored).
  set (kept := if (len sorted >? n)%Z then firstn (Z.to_nat n) sorted else sorted).
  assert (Hn : (1 <= n <= 100)%Z) by apply effectiveLimit_range.
  assert (Hlen_sorted : length sorted = length stocks).
  { unfold sorted. rewrite sort_Slice_length. apply length_map. }
  assert (Hscored : Forall (fun r => In (RecStock r) stocks
                     /\ Score r = Recommendation.CalculateScore (RecStock r)) scored).
  { apply Forall_forall. intros r Hr. apply in_map_iff in Hr.
    destruct Hr as (stock & <- & Hin). split; [exact Hin | reflexivity]. }
  assert (Hsorted_all : Forall (fun r => In (RecStock r) stocks
                     /\ Score r = Recommendation.CalculateScore (RecStock r)) sorted).
  { apply Forall_forall. intros r Hr. rewrite Forall_forall in Hscored.
    apply Hscored. eapply Permutation_in; [apply sort_Slice_perm | exact Hr]. }
  assert (Hsorted : StronglySorted (fun a b => (Score b <= Score a)%f64) sorted).
  { apply sort_Slice_by_score. eapply Forall_impl; [|exact Hscored].
    intros r [_ ->]. eapply le_not_nan. apply recommendation_score_bounds. }
  exists (Recommendation.assignRanks 0 kept). split; [reflexivity|].
  unfold len. rewrite assignRanks_length, assignRanks_scores.
  split; [|split; [|split]].
  - unfold kept, len. rewrite Hlen_sorted.
    destruct (Z.of_nat (length stocks) >? n)%Z eqn:E.
    + rewrite length_firstn, Hlen_sorted. lia.
    + rewrite Hlen_sorted. lia.
  - assert (Hkept : StronglySorted (fun a b => (Score b <= Score a)%f64) kept).
    { unfold kept. destruct (len sorted >? n)%Z;
        [now apply StronglySorted_firstn | assumption]. }
    clear - Hkept. induction Hkept as [|r l _ IH Hr]; simpl; constructor;
      [exact IH | now apply Forall_map].
  - apply (assignRanks_Forall
             (fun stock score => In stock stocks
                /\ score = Recommendation.CalculateScore stock)).
    unfold kept. destruct (len sorted >? n)%Z;
      [now apply Forall_firstn | assumption].
  - apply (assignRanks_ranks 0).
Qed.

Lemma GetTopRecommendations_rank_contract_witness :
  GetTopRecommended Mocks.NewMockStocksRepository
    (Recommendation.effectiveLimit 5 * 2)%Z
  = Ok (Mocks.Stocks Mocks.NewMockStocksRepository)
  /\ exists recs,
      Recommendation.GetTopRecommendations Mocks.NewMockStocksRepository 5 = Ok recs
      /\ len recs = 3%Z
      /\ map Rank recs = [1; 2; 3]%Z.
Proof.
  assert (Hfetch : GetTopRecommended Mocks.NewMockStocksRepository
                     (Recommendation.effectiveLimit 5 * 2)%Z
                   = Ok (Mocks.Stocks Mocks.NewMockStocksRepository))
    by reflexivity.
  split; [exact Hfetch|].
  destruct (GetTopRecommendations_rank_contract Mocks.NewMockStocksRepository 5 Hfetch)
    as (_ & recs & Hrecs & Hlen & _ & _ & Hrank).
  exists recs. split; [exact Hrecs|]. split; [exact Hlen|].
  rewrite Hrank. replace (length recs) with 3%nat; [reflexivity|].
  symmetry. apply Nat2Z.inj. exact Hlen.
Defined.

(** ** The synchronization run *)

Lemma wrap64_small (z : Z) : (- 2 ^ 63 <= z < 2 ^ 63)%Z -> wrap64 z = z.
Proof. intros Hz. unfold wrap64. rewrite Z.mod_small; lia. Qed.

Section SyncRun.
Context {R : Type} `{StocksRepository R}.
Variable clock : nat -> Time.

Local Abbreviation Loop := (@Stocks.Loop R).
Local Abbreviation processRecord := (Stocks.processRecord clock).
Local Abbreviation stamp := (Stocks.stamp clock).


Lemma stamp_world (st : R) (w : Stocks.World) (stock : Stock) :
  let '(_, _, w') := stamp st w stock in
  Stocks.logged w' = Stocks.logged w /\ Stocks.written w' = Stocks.written w.
Proof.
  unfold Stocks.stamp, Stocks.timeNow. simpl.
  destruct (GetByID st _) as [existing|err]; simpl; [easy|].
  destruct (error_eqb err ErrStockNotFound); simpl; easy.
Qed.

Lemma saveBatch_written (line : error -> Stocks.LogLine) (st : R)
    (b : list Stock) (w : Stocks.World) :
  Stocks.written (snd (Stocks.saveBatch line st b w))
  = (Stocks.written w ++ [b])%list.
Proof.
  unfold Stocks.saveBatch. destruct (SaveBatch st b) as [st' [e|]]; reflexivity.
Qed.

Lemma processRecord_appended (l : Loop) (stockOrErr : StockOrError) :
  appended (processRecord l stockOrErr)
  = (appended l
     ++ match SError stockOrErr with
        | None => [fst (fst (stamp (Stocks.l_storage l) (Stocks.l_world l)
                               (SStock stockOrErr)))]
        | Some _ => []
        end)%list.
Proof.
  unfold Stocks.processRecord, appended.
  destruct (SError stockOrErr) as [e|]; simpl.
  - now rewrite app_nil_r.
  - pose proof (stamp_world (Stocks.l_storage l) (Stocks.l_world l)
                  (SStock stockOrErr)) as Hw.
    destruct (stamp _ _ _) as [[stock isNew] w]. destruct Hw as [_ Hw]. simpl.
    destruct (len (Stocks.batch l ++ [stock]) >=? Stocks.batchSize)%Z.
    + pose proof (saveBatch_written Stocks.LogBatchError (Stocks.l_storage l)
                    (Stocks.batch l ++ [stock]) w) as Hs.
      destruct (Stocks.saveBatch _ _ _ _) as [st w']. simpl in *.
      rewrite Hs, Hw, concat_app. simpl. now rewrite !app_nil_r, app_assoc.
    + simpl. now rewrite Hw, app_assoc.
Qed.


Lemma after_appended_length (pre : list StockOrError) (l : Loop) :
  length (appended (after clock pre l))
  = (length (appended l) + length (records pre))%nat.
Proof.
  revert l. induction pre as [|x pre IH]; intros l; simpl; [lia|].
  unfold after in *. rewrite IH, processRecord_appended, length_app.
  unfold isRecord. destruct (SError x); simpl; lia.
Qed.

Lemma after_appended_prefix (pre : list StockOrError) (l : Loop) :
  exists more, appended (after clock pre l) = (appended l ++ more)%list.
Proof.
  revert l. induction pre as [|x pre IH]; intros l; simpl.
  - exists []. now rewrite app_nil_r.
  - destruct (IH (processRecord l x)) as [more Hmore]. unfold after in *.
    rewrite Hmore, processRecord_appended, <- app_assoc. eauto.
Qed.

Lemma runLoop_written (stocksChan : list StockOrError) (l : Loop) :
  concat (Stocks.written (Stocks.l_world (Stocks.runLoop clock stocksChan l)))
  = appended (after clock stocksChan l).
Proof.
  unfold Stocks.runLoop, appended, after.
  set (l' := fold_left processRecord stocksChan l).
  destruct (len (Stocks.batch l') >? 0)%Z eqn:E.
  - pose proof (saveBatch_written Stocks.LogFinalBatchError (Stocks.l_storage l')
                  (Stocks.batch l') (Stocks.l_world l')) as Hs.
    destruct (Stocks.saveBatch _ _ _ _) as [st w]. simpl in *.
    rewrite Hs, concat_app. simpl. now rewrite app_nil_r.
  - unfold len in E. rewrite Z.gtb_ltb in E. apply Z.ltb_ge in E.
    destruct (Stocks.batch l'); [|cbn [length] in E; lia].
    now rewrite app_nil_r.
Qed.

Lemma after_app (pre post : list StockOrError) (l : Loop) :
  after clock (pre ++ post) l = after clock post (after clock pre l).
Proof. apply fold_left_app. Qed.


Lemma stamp_frame (st : R) (w : Stocks.World) (stock : Stock) :
  let rec := fst (fst (stamp st w stock)) in
  UpdatedAt rec = clock (Stocks.nowCalls w)
  /\ CreatedAt rec
     = match GetByID st (ID stock) with
       | Ok existing => CreatedAt existing
       | Err e => if error_eqb e ErrStockNotFound
                  then clock (S (Stocks.nowCalls w)) else CreatedAt stock
       end
  /\ RecommendScore rec = Stocks.calculateRecommendScore stock
  /\ fetchedFields rec = fetchedFields stock.
Proof.
  unfold Stocks.stamp, Stocks.timeNow. simpl.
  destruct (GetByID st (ID stock)) as [existing|e]; simpl; [easy|].
  destruct (error_eqb e ErrStockNotFound); simpl; easy.
Qed.

Lemma SyncStocks_written (stocksChan : list StockOrError) (st : R) (t0 : Time)
    (w : Stocks.World) :
  concat (Stocks.written
            (snd (Stocks.SyncStocks clock (Ok stocksChan)
                    (Stocks.mkService st false t0) w)))
  = appended (after clock stocksChan (Stocks.mkLoop st w [] 0 0)).
Proof.
  unfold Stocks.SyncStocks. simpl. apply runLoop_written.
Qed.

(** C8. In a synchronization run, every record taken from the channel is
    handed to [SaveBatch] (at the position of its arrival among the records)
    with [UpdatedAt] the time [time.Now()] gave when it was taken, with
    [CreatedAt] the stored record's [CreatedAt] when the lookup of its
    identity finds one and the time of a second [time.Now()] when the lookup
    says not found, with the recomputed ingest-time score, and with every
    other field as fetched. *)
Theorem SyncStocks_timestamp_frame (st : R) (t0 : Time) (w : Stocks.World)
    (pre post : list StockOrError) (stock : Stock) :
  let l := after clock pre (Stocks.mkLoop st w [] 0 0) in
  let w' := snd (Stocks.SyncStocks clock
                   (Ok (pre ++ mkStockOrError stock None :: post)%list)
                   (Stocks.mkService st false t0) w) in
  exists rec,
    nth_error (concat (Stocks.written w'))
      (length (concat (Stocks.written w)) + length (records pre)) = Some rec
    /\ UpdatedAt rec = clock (Stocks.nowCalls (Stocks.l_world l))
    /\ CreatedAt rec
       = match GetByID (Stocks.l_storage l) (ID stock) with
         | Ok existing => CreatedAt existing
         | Err e => if error_eqb e ErrStockNotFound
                    then clock (S (Stocks.nowCalls (Stocks.l_world l)))
                    else CreatedAt stock
         end
    /\ RecommendScore rec = Stocks.calculateRecommendScore stock
    /\ fetchedFields rec = fetchedFields stock.
Proof.
  intros l w'. subst w'. rewrite SyncStocks_written, after_app. fold l.
  change (after clock (mkStockOrError stock None :: post) l)
    with (after clock post (processRecord l (mkStockOrError stock None))).
  destruct (after_appended_prefix post (processRecord l (mkStockOrError stock None)))
    as [more ->].
  rewrite processRecord_appended. cbn [SError SStock].
  exists (fst (fst (stamp (Stocks.l_storage l) (Stocks.l_world l) stock))).
  split; [|apply stamp_frame].
  assert (Hlen : length (appended l)
                 = (length (concat (Stocks.written w)) + length (records pre))%nat).
  { unfold l. rewrite after_appended_length. unfold appended. simpl.
    now rewrite app_nil_r. }
  rewrite <- Hlen, <- app_assoc, nth_error_app2, Nat.sub_diag by lia.
  reflexivity.
Qed.

End SyncRun.


Section SyncCounters.
Context {R : Type} `{StocksRepository R}.
Variable clock : nat -> Time.

Lemma processRecord_counters (l : @Stocks.Loop R) (x : StockOrError) :
  let l' := Stocks.processRecord clock l x in
  Stocks.totalRecords l'
  = (if isRecord x then int_add (Stocks.totalRecords l) 1 else Stocks.totalRecords l)
  /\ (Stocks.newRecords l' = Stocks.newRecords l
      \/ (isRecord x = true
          /\ Stocks.newRecords l' = int_add (Stocks.newRecords l) 1)).
Proof.
  unfold Stocks.processRecord, isRecord.
  destruct (SError x) as [e|]; simpl; [auto|].
  destruct (Stocks.stamp _ _ _ _) as [[stock isNew] w].
  destruct (len (Stocks.batch l ++ [stock]) >=? Stocks.batchSize)%Z;
    [destruct (Stocks.saveBatch _ _ _ _) as [st w']|];
    simpl; (split; [reflexivity|]); destruct isNew; auto.
Qed.

Lemma counters_after (stocksChan : list StockOrError) (l : @Stocks.Loop R) (k : nat) :
  Stocks.totalRecords l = Z.of_nat k ->
  (0 <= Stocks.newRecords l <= Stocks.totalRecords l)%Z ->
  (Z.of_nat (k + length stocksChan) < 2 ^ 63)%Z ->
  let l' := after clock stocksChan l in
  Stocks.totalRecords l' = Z.of_nat (k + length (records stocksChan))
  /\ (0 <= Stocks.newRecords l' <= Stocks.totalRecords l')%Z.
Proof.
  revert l k. induction stocksChan as [|x stocksChan IH]; intros l k Hk Hnew Hlen.
  - simpl. rewrite Nat.add_0_r. auto.
  - cbn [length] in Hlen.
    destruct (processRecord_counters l x) as [Ht Hn].
    change (after clock (x :: stocksChan) l)
      with (after clock stocksChan (Stocks.processRecord clock l x)).
    cbn [records filter]. fold (records stocksChan).
    destruct (isRecord x) eqn:Ex.
    + unfold int_add in *. rewrite wrap64_small in Ht by lia.
      specialize (IH (Stocks.processRecord clock l x) (S k)).
      cbn [length]. replace (k + S (length (records stocksChan)))%nat
        with (S k + length (records stocksChan))%nat by lia.
      apply IH; [lia | | lia].
      destruct Hn as [-> | [_ ->]]; [lia|]. rewrite wrap64_small; lia.
    + apply IH; [congruence | | lia].
      destruct Hn as [-> | [? _]]; [lia | discriminate].
Qed.

Lemma runLoop_counters (stocksChan : list StockOrError) (l : @Stocks.Loop R) :
  Stocks.totalRecords (Stocks.runLoop clock stocksChan l)
  = Stocks.totalRecords (after clock stocksChan l)
  /\ Stocks.newRecords (Stocks.runLoop clock stocksChan l)
     = Stocks.newRecords (after clock stocksChan l).
Proof.
  unfold Stocks.runLoop, after.
  destruct (len _ >? 0)%Z; [|auto].
  destruct (Stocks.saveBatch _ _ _ _) as [st w]. auto.
Qed.

(** C10. A run of [SyncStocks] whose fetch started (the fetcher returned a
    channel, which delivered fewer than 2^63 elements) returns a status with
    [Status = "completed"], [NewRecords + UpdatedRecords = TotalRecords] and
    [0 <= NewRecords <= TotalRecords]; [TotalRecords] is the number of
    records the channel delivered. *)
Theorem SyncStocks_summary_invariant (st : R) (t0 : Time) (w : Stocks.World)
    (stocksChan : list StockOrError) :
  (len stocksChan < 2 ^ 63)%Z ->
  exists status,
    fst (fst (Stocks.SyncStocks clock (Ok stocksChan)
                (Stocks.mkService st false t0) w)) = (Some status, None)
    /\ Status status = "completed"
    /\ (NewRecords status + UpdatedRecords status)%Z = TotalRecords status
    /\ (0 <= NewRecords status <= TotalRecords status)%Z
    /\ TotalRecords status = len (records stocksChan).
Proof.
  intros Hlen. unfold Stocks.SyncStocks. cbn [Stocks.syncInProg Stocks.setSyncInProg
    Stocks.storage Stocks.lastSync].
  set (l := Stocks.runLoop clock stocksChan _).
  destruct (runLoop_counters stocksChan (Stocks.mkLoop st w [] 0 0)) as [Ht Hn].
  fold l in Ht, Hn.
  destruct (@counters_after stocksChan (Stocks.mkLoop st w [] 0 0) 0%nat)
    as [Ht' Hn']; try (simpl; unfold len in Hlen; lia).
  rewrite <- Ht, <- Hn in *. simpl in Ht'.
  assert (Hrec : (Z.of_nat (length (records stocksChan)) <= len stocksChan)%Z).
  { unfold len, records. apply inj_le, filter_length_le. }
  eexists. split; [reflexivity|]. cbn [Status NewRecords UpdatedRecords TotalRecords].
  unfold int_sub. rewrite wrap64_small by lia.
  repeat split; try lia. exact Ht'.
Qed.

End SyncCounters.


Lemma SyncStocks_summary_invariant_witness :
  (len mockChannel < 2 ^ 63)%Z
  /\ exists status,
      fst (fst (Stocks.SyncStocks exampleClock (Ok mockChannel)
                  (Stocks.mkService Mocks.NewMockStocksRepository false zeroTime)
                  emptyWorld)) = (Some status, None)
      /\ Status status = "completed"
      /\ (NewRecords status + UpdatedRecords status)%Z = TotalRecords status
      /\ (0 <= NewRecords status <= TotalRecords status)%Z
      /\ TotalRecords status = len (records mockChannel).
Proof.
  assert (Hlen : (len mockChannel < 2 ^ 63)%Z) by (vm_compute; reflexivity).
  split; [exact Hlen|].
  exact (SyncStocks_summary_invariant exampleClock Mocks.NewMockStocksRepository
           zeroTime emptyWorld mockChannel Hlen).
Defined.

(** ** A lookup that fails *)

Lemma lookup_error_record_kept {R : Type} `{StocksRepository R}
    (clock : nat -> Time) (l : @Stocks.Loop R) (stock : Stock) (e : error) :
  GetByID (Stocks.l_storage l) (ID stock) = Err e ->
  error_eqb e ErrStockNotFound = false ->
  let l' := Stocks.processRecord clock l (mkStockOrError stock None) in
  exists rec,
    appended l' = (appended l ++ [rec])%list
    /\ ID rec = ID stock
    /\ CreatedAt rec = CreatedAt stock
    /\ Stocks.totalRecords l' = int_add (Stocks.totalRecords l) 1
    /\ Stocks.newRecords l' = Stocks.newRecords l.
Proof.
  intros Hget He l'. subst l'.
  rewrite processRecord_appended. cbn [SError SStock].
  destruct (processRecord_counters clock l (mkStockOrError stock None)) as [Ht _].
  eexists. split; [reflexivity|].
  pose proof (stamp_frame clock (Stocks.l_storage l) (Stocks.l_world l) stock)
    as (_ & Hc & _ & Hf).
  rewrite Hget, He in Hc.
  split; [unfold fetchedFields in Hf; injection Hf; intros; assumption|].
  split; [exact Hc|].
  split; [exact Ht|].
  unfold Stocks.processRecord, Stocks.stamp, Stocks.timeNow. cbn [SError SStock].
  cbn [ID Stocks.setRecommendScore Stocks.setUpdatedAt]. rewrite Hget, He.
  destruct (len _ >=? Stocks.batchSize)%Z;
    [destruct (Stocks.saveBatch _ _ _ _)|]; reflexivity.
Qed.

(** C6. With a repository whose [GetByID] fails with a storage error, the
    record the feed delivers is neither logged nor skipped: it is collected
    into the batch, written by [SaveBatch] with the zero [CreatedAt], and
    counted as an updated record. *)
Theorem SyncStocks_lookup_error_not_skipped :
  let run := Stocks.SyncStocks exampleClock (Ok [mkStockOrError fetchedStock None])
               (Stocks.mkService lookupFailingRepository false zeroTime) emptyWorld in
  GetByID lookupFailingRepository (ID fetchedStock) = Err (StorageError "get_by_id")
  /\ Stocks.logged (snd run) = []
  /\ map (map ID) (Stocks.written (snd run)) = [["id-1"]]
  /\ map (map CreatedAt) (Stocks.written (snd run)) = [[zeroTime]]
  /\ map ID (Mocks.Stocks (Stocks.storage (snd (fst run)))) = ["id-1"]
  /\ (exists status,
        fst (fst run) = (Some status, None)
        /\ Status status = "completed"
        /\ TotalRecords status = 1%Z
        /\ NewRecords status = 0%Z
        /\ UpdatedRecords status = 1%Z).
Proof.
  cbv zeta. repeat split; try (vm_compute; reflexivity).
  eexists. split; [reflexivity|]. repeat split; vm_compute; reflexivity.
Qed.

(** ** Pagination *)

Lemma to_int_of_Z (z : Z) : to_int (of_Z z) = z.
Proof.
  unfold to_int, of_Z, of_Q, Qtruncate.
  destruct (0 <=? Qnum (Q2Qc (inject_Z z)))%Z.
  - rewrite this_of_Z. apply Qfloor_Z.
  - rewrite this_of_Z. apply Qceiling_Z.
Qed.

Lemma Qceiling_unique (x : Q) (z : Z) :
  (inject_Z (z - 1) < x)%Q -> (x <= inject_Z z)%Q -> Qceiling x = z.
Proof.
  intros H1 H2.
  pose proof (Qle_ceiling x) as C1. pose proof (Qceiling_lt x) as C2.
  assert (A : (inject_Z (z - 1) < inject_Z (Qceiling x))%Q) by lra.
  assert (B : (inject_Z (Qceiling x - 1) < inject_Z z)%Q) by lra.
  rewrite <- Zlt_Qlt in A, B. lia.
Qed.

(** The quotient of the total by the page size, by the integer division. *)
Lemma quotient_parts (total pageSize : Z) :
  (0 < pageSize)%Z ->
  (inject_Z total / inject_Z pageSize
   == inject_Z (total / pageSize) + inject_Z (total mod pageSize) / inject_Z pageSize)%Q.
Proof.
  intros Hp. rewrite (Z.div_mod total pageSize) at 1 by lia.
  rewrite inject_Z_plus, inject_Z_mult. field.
  change 0%Q with (inject_Z 0). rewrite inject_Z_injective. lia.
Qed.

Lemma total_pages_parts (total pageSize : Z) :
  (0 < pageSize)%Z ->
  Spec.total_pages total pageSize
  = if (total mod pageSize =? 0)%Z then (total / pageSize)%Z
    else (total / pageSize + 1)%Z.
Proof.
  intros Hp. unfold Spec.total_pages.
  pose proof (quotient_parts total Hp) as E.
  pose proof (Z.mod_pos_bound total pageSize Hp) as Hr.
  assert (Hpq : (0 < inject_Z pageSize)%Q)
    by (change 0%Q with (inject_Z 0); rewrite <- Zlt_Qlt; lia).
  set (r := (total mod pageSize)%Z) in *.
  assert (Hr1 : (0 <= inject_Z r / inject_Z pageSize)%Q).
  { apply Qle_shift_div_l; [exact Hpq|]. rewrite Qmult_0_l.
    change 0%Q with (inject_Z 0). rewrite <- Zle_Qle. lia. }
  assert (Hr2 : (inject_Z r / inject_Z pageSize < 1)%Q).
  { apply Qlt_shift_div_r; [exact Hpq|]. rewrite Qmult_1_l.
    rewrite <- Zlt_Qlt. lia. }
  destruct (Z.eqb_spec r 0) as [Hz|Hz].
  - apply Qceiling_unique.
    + unfold Z.sub. rewrite inject_Z_plus, inject_Z_opp.
      change (inject_Z 1) with 1%Q. lra.
    + rewrite Hz in E. rewrite E. change (inject_Z 0) with 0%Q.
      unfold Qdiv. rewrite Qmult_0_l. lra.
  - assert (Hr3 : (0 < inject_Z r / inject_Z pageSize)%Q).
    { apply Qlt_shift_div_l; [exact Hpq|]. rewrite Qmult_0_l.
      change 0%Q with (inject_Z 0). rewrite <- Zlt_Qlt. lia. }
    apply Qceiling_unique.
    + replace (total / pageSize + 1 - 1)%Z with (total / pageSize)%Z by lia. lra.
    + rewrite inject_Z_plus. change (inject_Z 1) with 1%Q. lra.
Qed.

(** Below [2^53] rows the conversions are exact and the division cannot
    round a quotient with a remainder down to the integer below it. *)
Lemma total_pages_float (total pageSize : Z) :
  (0 <= total < 2 ^ 53)%Z -> (1 <= pageSize <= 100)%Z ->
  to_int (Ceil (of_int total / of_int pageSize)%f64) = Spec.total_pages total pageSize.
Proof.
  intros Ht Hp. unfold of_int.
  rewrite !binary64_int by lia. rewrite div_of_Z by lia.
  rewrite total_pages_parts by lia.
  pose proof (@quotient_parts total pageSize ltac:(lia)) as E.
  pose proof (Z.mod_pos_bound total pageSize ltac:(lia)) as Hr.
  pose proof (Z.div_pos total pageSize ltac:(lia) ltac:(lia)) as Hm0.
  assert (Hm1 : (total / pageSize <= total)%Z)
    by (apply Z.div_le_upper_bound; nia).
  assert (Hpq : (0 < inject_Z pageSize)%Q)
    by (change 0%Q with (inject_Z 0); rewrite <- Zlt_Qlt; lia).
  set (m := (total / pageSize)%Z) in *. set (r := (total mod pageSize)%Z) in *.
  set (q := (inject_Z total / inject_Z pageSize)%Q) in *.
  destruct (Z.eqb_spec r 0) as [Hz|Hz].
  - assert (Eq : (q == inject_Z m)%Q).
    { rewrite E, Hz. change (inject_Z 0) with 0%Q. unfold Qdiv.
      rewrite Qmult_0_l. ring. }
    rewrite (binary64_comp Eq), binary64_int by lia.
    change (Ceil (of_Z m)) with (of_Z (Qceiling (Q2Qc (inject_Z m)))).
    rewrite (Qceiling_comp _ _ (this_of_Z m)), Qceiling_Z. apply to_int_of_Z.
  - assert (Hr1 : (1 <= inject_Z r)%Q)
      by (change 1%Q with (inject_Z 1); rewrite <- Zle_Qle; lia).
    assert (Hr2 : (inject_Z r / inject_Z pageSize < 1)%Q).
    { apply Qlt_shift_div_r; [exact Hpq|]. rewrite Qmult_1_l.
      rewrite <- Zlt_Qlt. lia. }
    assert (Hgap : (1 / inject_Z pageSize <= q - inject_Z m)%Q).
    { rewrite E. setoid_replace (inject_Z m + inject_Z r / inject_Z pageSize - inject_Z m)%Q
        with (inject_Z r / inject_Z pageSize)%Q by ring.
      apply Qmult_le_compat_r; [exact Hr1|].
      apply Qlt_le_weak, Qinv_lt_0_compat, Hpq. }
    assert (Hm0q : (0 <= inject_Z m)%Q)
      by (change 0%Q with (inject_Z 0); rewrite <- Zle_Qle; lia).
    assert (Hinv : (1 # 100 <= 1 / inject_Z pageSize)%Q).
    { apply Qle_shift_div_l; [exact Hpq|].
      assert (inject_Z pageSize <= 100)%Q
        by (change 100%Q with (inject_Z 100); rewrite <- Zle_Qle; lia).
      lra. }
    destruct (@binary64_between q m (m + 1)) as (v & Ev & V1 & V2); try lia.
    { lra. }
    { rewrite inject_Z_plus. change (inject_Z 1) with 1%Q. lra. }
    assert (Hnorm : (pow2 (-1022) <= Qabs q)%Q).
    { rewrite Qabs_pos by lra.
      apply Qle_trans with (pow2 (-7)); [apply pow2_le; lia|].
      change (pow2 (-7)) with (1 # 128)%Q. lra. }
    pose proof (@binary64_error_normal q v Ev Hnorm) as Herr.
    rewrite (Qabs_pos q), pow2_m53 in Herr by lra. apply Qabs_bound in Herr.
    assert (Hsmall : (q * (1 # 9007199254740992) < 1 / inject_Z pageSize)%Q).
    { unfold q.
      setoid_replace (inject_Z total / inject_Z pageSize * (1 # 9007199254740992))%Q
        with (inject_Z total * (1 # 9007199254740992) / inject_Z pageSize)%Q
        by (field; lra).
      apply Qmult_lt_compat_r; [apply Qinv_lt_0_compat, Hpq|].
      assert (inject_Z total < inject_Z (2 ^ 53))%Q by (rewrite <- Zlt_Qlt; lia).
      change (inject_Z (2 ^ 53)) with 9007199254740992%Q in *. lra. }
    rewrite Ev. cbn [Ceil]. rewrite to_int_of_Z.
    apply Qceiling_unique.
    + replace (m + 1 - 1)%Z with m by lia. lra.
    + exact V2.
Qed.

(** Above [2^53] the conversion to [float64] rounds: the code gives [2^53]
    pages for [2^53 + 1] rows of one row a page. *)
Example total_pages_float_rounds :
  to_int (Ceil (of_int (2 ^ 53 + 1) / of_int 1)%f64) = (2 ^ 53)%Z
  /\ Spec.total_pages (2 ^ 53 + 1) 1 = (2 ^ 53 + 1)%Z.
Proof. split; vm_compute; reflexivity. Qed.

Lemma pagination_contract {R : Type} `{StocksRepository R}
    (s : Stocks.Service) (filter : StockFilter) :
  let page := if (Page filter <? 1)%Z then 1%Z else Page filter in
  let pageSize :=
    if ((PageSize filter <? 1) || (PageSize filter >? 100))%Z then 20%Z
    else PageSize filter in
  exists filter',
    Page filter' = page /\ PageSize filter' = pageSize
    /\ filterFields filter' = filterFields filter
    /\ (forall err,
          GetAll (Stocks.storage s) filter' = Err err ->
          Stocks.GetStocks s filter = Err err)
    /\ (forall stocks total,
          GetAll (Stocks.storage s) filter' = Ok (stocks, total) ->
          (0 <= total < 2 ^ 53)%Z ->
          Stocks.GetStocks s filter
          = Ok (mkPaginatedResponse stocks page pageSize total
                  (Spec.total_pages total pageSize))).
Proof.
  intros page pageSize. unfold Stocks.GetStocks.
  set (f1 := if (Page filter <? 1)%Z then Stocks.setPage filter 1 else filter).
  set (f2 := if ((PageSize f1 <? 1) || (PageSize f1 >? 100))%Z
             then Stocks.setPageSize f1 20 else f1).
  assert (H1 : Page f1 = page /\ PageSize f1 = PageSize filter
               /\ filterFields f1 = filterFields filter).
  { unfold f1, page. destruct (Page filter <? 1)%Z; auto. }
  destruct H1 as (Hp1 & Hs1 & Hf1).
  assert (H2 : Page f2 = page /\ PageSize f2 = pageSize
               /\ filterFields f2 = filterFields filter).
  { unfold f2, pageSize. rewrite Hs1.
    destruct ((PageSize filter <? 1) || (PageSize filter >? 100))%Z; auto. }
  destruct H2 as (Hp2 & Hs2 & Hf2).
  assert (Hsize : (1 <= pageSize <= 100)%Z).
  { unfold pageSize. rewrite Z.gtb_ltb.
    destruct (Z.ltb_spec (PageSize filter) 1), (Z.ltb_spec 100 (PageSize filter));
      simpl; lia. }
  exists f2. repeat split; try assumption.
  - intros err E. now rewrite E.
  - intros stocks total E Ht. rewrite E, Hp2, Hs2.
    now rewrite total_pages_float.
Qed.

Section PaginationScenario.
Variable sqlLower : string -> string.
Variable sqlLike : string -> string -> bool.

Local Abbreviation repository := (Storage.StorageRepository sqlLower sqlLike).

Lemma orderBy_length (column direction : string) (table : list Stock) :
  length (Storage.orderBy column direction table) = length table.
Proof.
  unfold Storage.orderBy. destruct (direction =? "ASC"); apply sort_Slice_length.
Qed.

Lemma storageGetAll_page (table : list Stock) (sortBy sortOrder : string)
    (page pageSize : Z) :
  (1 <= page < 2 ^ 31)%Z -> (1 <= pageSize <= 100)%Z ->
  exists stocks,
    Storage.storageGetAll sqlLower sqlLike (Storage.mkStorage table false)
      (mkStockFilter "" "" "" "" "" sortBy sortOrder page pageSize)
    = Ok (stocks, len table)
    /\ length stocks
       = Nat.min (Z.to_nat pageSize)
           (length table - Z.to_nat ((page - 1) * pageSize)).
Proof.
  intros Hpage Hsize. unfold Storage.storageGetAll. cbn [Storage.down Storage.rows].
  assert (Hall : filter (Storage.applyFilters sqlLower sqlLike
                           (mkStockFilter "" "" "" "" "" sortBy sortOrder page pageSize))
                   table = table).
  { induction table as [|row table IH]; [reflexivity|].
    cbn [filter]. unfold Storage.applyFilters at 1. cbn. now rewrite IH. }
  rewrite Hall.
  destruct (Storage.applySorting _) as [column direction].
  eexists. split; [reflexivity|].
  unfold Storage.applyPagination. cbn [Page PageSize].
  rewrite Z.gtb_ltb.
  destruct (Z.ltb_spec page 1); [lia|].
  destruct (Z.ltb_spec pageSize 1); [lia|].
  destruct (Z.ltb_spec 100 pageSize); [lia|]. cbn [orb].
  assert (Hoff : (0 <= (page - 1) * pageSize <= 2 ^ 31 * 100)%Z).
  { split; [apply Z.mul_nonneg_nonneg; lia|].
    apply Z.mul_le_mono_nonneg; lia. }
  unfold int_mul, int_sub. rewrite (@wrap64_small (page - 1)%Z) by lia.
  rewrite wrap64_small by lia.
  now rewrite length_firstn, length_skipn, orderBy_length.
Qed.

Lemma pagination_scenario (r1 r2 r3 : Stock) (sortBy sortOrder : string) :
  let s := Stocks.mkService (Storage.mkStorage [r1; r2; r3] false) false zeroTime in
  let request page := mkStockFilter "" "" "" "" "" sortBy sortOrder page 2 in
  exists first second,
    @Stocks.GetStocks _ repository s (request 1%Z) = Ok first
    /\ @Stocks.GetStocks _ repository s (request 2%Z) = Ok second
    /\ TotalItems first = 3%Z /\ TotalPages first = 2%Z /\ length (Data first) = 2%nat
    /\ TotalItems second = 3%Z /\ TotalPages second = 2%Z
    /\ length (Data second) = 1%nat.
Proof.
  intros s request.
  destruct (storageGetAll_page [r1; r2; r3] sortBy sortOrder (page := 1)
              (pageSize := 2)) as (d1 & H1 & L1); [lia | lia |].
  destruct (storageGetAll_page [r1; r2; r3] sortBy sortOrder (page := 2)
              (pageSize := 2)) as (d2 & H2 & L2); [lia | lia |].
  unfold Stocks.GetStocks, request. cbn [Page PageSize Z.ltb Z.gtb Z.compare
    Pos.compare Pos.compare_cont orb Stocks.storage s GetAll repository
    Storage.StorageRepository].
  unfold s. cbn [Stocks.storage]. rewrite H1, H2.
  do 2 eexists. split; [reflexivity|]. split; [reflexivity|].
  cbn [TotalItems TotalPages Data].
  rewrite L1, L2. repeat split; vm_compute; reflexivity.
Qed.

End PaginationScenario.

(** C9. [GetStocks] asks the repository with the page set to 1 when it is
    below 1 and the page size set to 20 when it is outside [1,100], the
    other fields of the filter unchanged; it passes an error of the
    repository on, and otherwise answers with that page, that page size,
    the total the repository counted and, for a total below [2^53],
    total_pages = ceil(total_items / page_size).  Over a table of three
    rows, with the page size 2 and no field filter, the store gives
    total_pages = 2 on both pages, two rows on page 1 and one row on
    page 2. *)
Theorem GetStocks_pagination_contract :
  (forall (R : Type) (repo : StocksRepository R) (s : Stocks.Service)
          (filter : StockFilter),
     let page := if (Page filter <? 1)%Z then 1%Z else Page filter in
     let pageSize :=
       if ((PageSize filter <? 1) || (PageSize filter >? 100))%Z then 20%Z
       else PageSize filter in
     exists filter',
       Page filter' = page /\ PageSize filter' = pageSize
       /\ filterFields filter' = filterFields filter
       /\ (forall err,
             GetAll (Stocks.storage s) filter' = Err err ->
             Stocks.GetStocks s filter = Err err)
       /\ (forall stocks total,
             GetAll (Stocks.storage s) filter' = Ok (stocks, total) ->
             (0 <= total < 2 ^ 53)%Z ->
             Stocks.GetStocks s filter
             = Ok (mkPaginatedResponse stocks page pageSize total
                     (Spec.total_pages total pageSize))))
  /\ (forall (sqlLower : string -> string) (sqlLike : string -> string -> bool)
             (r1 r2 r3 : Stock) (sortBy sortOrder : string),
        let repo := Storage.StorageRepository sqlLower sqlLike in
        let s := Stocks.mkService (Storage.mkStorage [r1; r2; r3] false) false zeroTime in
        let request page := mkStockFilter "" "" "" "" "" sortBy sortOrder page 2 in
        exists first second,
          @Stocks.GetStocks _ repo s (request 1%Z) = Ok first
          /\ @Stocks.GetStocks _ repo s (request 2%Z) = Ok second
          /\ TotalItems first = 3%Z /\ TotalPages first = 2%Z
          /\ length (Data first) = 2%nat
          /\ TotalItems second = 3%Z /\ TotalPages second = 2%Z
          /\ length (Data second) = 1%nat).
Proof.
  split.
  - intros R repo s filter. apply pagination_contract.
  - intros sqlLower sqlLike r1 r2 r3 sortBy sortOrder.
    apply pagination_scenario.
Qed.

(** The mock repository of three stocks, asked for page 0 with page size
    500: page 1, page size 20, one page. *)
Lemma GetStocks_pagination_contract_witness :
  Stocks.GetStocks
    (Stocks.mkService Mocks.NewMockStocksRepository false zeroTime)
    (mkStockFilter "" "" "" "" "" "" "" 0 500)
  = Ok (mkPaginatedResponse (Mocks.Stocks Mocks.NewMockStocksRepository) 1 20 3 1).
Proof.
  destruct GetStocks_pagination_contract as [H _].
  destruct (H _ _ (Stocks.mkService Mocks.NewMockStocksRepository false zeroTime)
              (mkStockFilter "" "" "" "" "" "" "" 0 500))
    as (filter' & _ & _ & _ & _ & Hok).
  apply (Hok (Mocks.Stocks Mocks.NewMockStocksRepository) 3%Z).
  - reflexivity.
  - lia.
Defined.

(** ** The single-flight guard *)

(** One call on its own: it is rejected when the flag is set, and otherwise
    leaves the flag cleared, whether the fetch starts or not. *)
Lemma SyncStocks_rejected_when_in_progress {R : Type} `{StocksRepository R}
    (clock : nat -> Time) (fetch : result (list StockOrError)) (st : R)
    (t0 : Time) (w : Stocks.World) :
  Stocks.SyncStocks clock fetch (Stocks.mkService st true t0) w
  = ((None, Some ErrSyncInProgress), Stocks.mkService st true t0, w).
Proof. reflexivity. Qed.

Lemma SyncStocks_clears_flag {R : Type} `{StocksRepository R}
    (clock : nat -> Time) (fetch : result (list StockOrError)) (st : R)
    (t0 : Time) (w : Stocks.World) :
  Stocks.syncInProg
    (snd (fst (Stocks.SyncStocks clock fetch (Stocks.mkService st false t0) w)))
  = false.
Proof. destruct fetch as [stocksChan|err]; reflexivity. Qed.

Import Guard.


Lemma guard_invariant_init : guard_invariant init.
Proof.
  constructor; simpl; easy.
Qed.

Lemma move_same (s : State) (i : nat) (p : pc) : move s i p i = p.
Proof. unfold move. now rewrite Nat.eqb_refl. Qed.

Lemma move_other (s : State) (i j : nat) (p : pc) : j <> i -> move s i p j = at_ s j.
Proof. unfold move. intros Hj. apply Nat.eqb_neq in Hj. now rewrite Hj. Qed.

(** The holder of the mutex is the only invocation at a place that holds
    it, so two such places belong to the same invocation. *)
Lemma holder_unique (s : State) (i j : nat) :
  guard_invariant s ->
  holdsMutex (at_ s i) = true -> holdsMutex (at_ s j) = true -> i = j.
Proof.
  intros Hinv Hi Hj. apply (inv_holder Hinv) in Hi, Hj. congruence.
Qed.

Ltac at_cases s i j :=
  destruct (Nat.eq_dec j i) as [->|?];
  [rewrite ?move_same | rewrite ?move_other by assumption].

Lemma guard_invariant_step (i : nat) (o : outcome) (s s' : State) :
  guard_invariant s -> step i o s = Some s' -> guard_invariant s'.
Proof.
  intros Hinv Hstep. unfold step in Hstep.
  destruct (at_ s i) eqn:Ei.
  - (* AtLock *)
    destruct (syncMutex s) eqn:Em; [discriminate|]. injection Hstep as <-.
    assert (Hfree : forall j, holdsMutex (at_ s j) = false).
    { intros j. destruct (holdsMutex (at_ s j)) eqn:E; [|reflexivity].
      apply (inv_holder Hinv) in E. congruence. }
    constructor; cbn [syncMutex syncInProg at_].
    + intros j. at_cases s i j; simpl; [easy|].
      rewrite Hfree. split; [discriminate | congruence].
    + intros j k. at_cases s i j; [discriminate|].
      at_cases s i k; [discriminate|]. apply (inv_unique Hinv).
    + intros Hf j. at_cases s i j; [reflexivity|]. now apply (inv_clear Hinv).
    + intros Hf. destruct (inv_set Hinv Hf) as [k Hk]. exists k.
      at_cases s i k; [rewrite Ei in Hk; discriminate | exact Hk].
    + intros j. at_cases s i j; [discriminate|]. apply (inv_at_set Hinv).
    + intros j o'. at_cases s i j; [discriminate|]. apply (inv_at_defer_unlock Hinv).
  - (* AtCheck *)
    assert (Hi : syncMutex s = Some i) by (apply (inv_holder Hinv); now rewrite Ei).
    assert (Hp : exists p,
               (p = AtReject \/ (p = AtSet /\ syncInProg s = false))
               /\ s' = mkState (syncMutex s) (syncInProg s) (move s i p)).
    { destruct (syncInProg s); injection Hstep as <-; eauto. }
    destruct Hp as (p & Hp & ->). constructor; cbn [syncMutex syncInProg at_].
    + intros j. at_cases s i j; [|apply (inv_holder Hinv)].
      destruct Hp as [-> | [-> _]]; simpl; easy.
    + intros j k. at_cases s i j; [destruct Hp as [-> | [-> _]]; discriminate|].
      at_cases s i k; [destruct Hp as [-> | [-> _]]; discriminate|].
      apply (inv_unique Hinv).
    + intros Hf j. at_cases s i j; [|now apply (inv_clear Hinv)].
      destruct Hp as [-> | [-> _]]; reflexivity.
    + intros Hf. destruct (inv_set Hinv Hf) as [k Hk]. exists k.
      at_cases s i k; [rewrite Ei in Hk; discriminate | exact Hk].
    + intros j. at_cases s i j; [|apply (inv_at_set Hinv)].
      destruct Hp as [-> | [-> Hf]]; [discriminate | intros _; exact Hf].
    + intros j o'. at_cases s i j; [|apply (inv_at_defer_unlock Hinv)].
      destruct Hp as [-> | [-> _]]; discriminate.
  - (* AtReject *)
    assert (Hi : syncMutex s = Some i) by (apply (inv_holder Hinv); now rewrite Ei).
    injection Hstep as <-. constructor; cbn [syncMutex syncInProg at_].
    + intros j. at_cases s i j; simpl; [split; discriminate|].
      split; [|discriminate]. intros Hj. apply (inv_holder Hinv) in Hj. congruence.
    + intros j k. at_cases s i j; [discriminate|].
      at_cases s i k; [discriminate|]. apply (inv_unique Hinv).
    + intros Hf j. at_cases s i j; [reflexivity|]. now apply (inv_clear Hinv).
    + intros Hf. destruct (inv_set Hinv Hf) as [k Hk]. exists k.
      at_cases s i k; [rewrite Ei in Hk; discriminate | exact Hk].
    + intros j. at_cases s i j; [discriminate|]. apply (inv_at_set Hinv).
    + intros j o'. at_cases s i j; [discriminate|]. apply (inv_at_defer_unlock Hinv).
  - (* AtSet *)
    assert (Hi : syncMutex s = Some i) by (apply (inv_holder Hinv); now rewrite Ei).
    assert (Hf : syncInProg s = false) by now apply (inv_at_set Hinv i).
    injection Hstep as <-. constructor; cbn [syncMutex syncInProg at_].
    + intros j. at_cases s i j; simpl; [easy|]. apply (inv_holder Hinv).
    + intros j k. at_cases s i j; at_cases s i k; try reflexivity;
        rewrite (inv_clear Hinv Hf); discriminate.
    + discriminate.
    + intros _. exists i. now rewrite move_same.
    + intros j. at_cases s i j; [discriminate|]. intros Hj.
      exfalso. apply n. apply (@holder_unique s j i Hinv); [now rewrite Hj | now rewrite Ei].
    + intros j o'. at_cases s i j; [discriminate|]. intros Hj.
      exfalso. apply n. apply (@holder_unique s j i Hinv); [now rewrite Hj | now rewrite Ei].
  - (* AtUnlock *)
    assert (Hi : syncMutex s = Some i) by (apply (inv_holder Hinv); now rewrite Ei).
    injection Hstep as <-. constructor; cbn [syncMutex syncInProg at_].
    + intros j. at_cases s i j; simpl; [split; discriminate|].
      split; [|discriminate]. intros Hj. apply (inv_holder Hinv) in Hj. congruence.
    + intros j k. at_cases s i j; at_cases s i k; try reflexivity; intros Hj Hk.
      * apply (inv_unique Hinv); [now rewrite Ei | exact Hk].
      * apply (inv_unique Hinv); [exact Hj | now rewrite Ei].
      * now apply (inv_unique Hinv).
    + intros Hf j. at_cases s i j; [|now apply (inv_clear Hinv)].
      pose proof (inv_clear Hinv Hf i) as Hc. rewrite Ei in Hc. discriminate.
    + intros _. exists i. now rewrite move_same.
    + intros j. at_cases s i j; [discriminate|]. apply (inv_at_set Hinv).
    + intros j o'. at_cases s i j; [discriminate|]. apply (inv_at_defer_unlock Hinv).
  - (* Running *)
    injection Hstep as <-. constructor; cbn [syncMutex syncInProg at_].
    + intros j. at_cases s i j; simpl; [|apply (inv_holder Hinv)].
      rewrite <- (inv_holder Hinv), Ei. reflexivity.
    + intros j k. at_cases s i j; at_cases s i k; try reflexivity; intros Hj Hk.
      * apply (inv_unique Hinv); [now rewrite Ei | exact Hk].
      * apply (inv_unique Hinv); [exact Hj | now rewrite Ei].
      * now apply (inv_unique Hinv).
    + intros Hf j. at_cases s i j; [|now apply (inv_clear Hinv)].
      pose proof (inv_clear Hinv Hf i) as Hc. rewrite Ei in Hc. discriminate.
    + intros _. exists i. now rewrite move_same.
    + intros j. at_cases s i j; [discriminate|]. apply (inv_at_set Hinv).
    + intros j o'. at_cases s i j; [discriminate|]. apply (inv_at_defer_unlock Hinv).
  - (* AtDeferLock *)
    destruct (syncMutex s) eqn:Em; [discriminate|]. injection Hstep as <-.
    assert (Hfree : forall j, holdsMutex (at_ s j) = false).
    { intros j. destruct (holdsMutex (at_ s j)) eqn:E; [|reflexivity].
      apply (inv_holder Hinv) in E. congruence. }
    constructor; cbn [syncMutex syncInProg at_].
    + intros j. at_cases s i j; simpl; [easy|].
      rewrite Hfree. split; [discriminate | congruence].
    + intros j k. at_cases s i j; at_cases s i k; try reflexivity; intros Hj Hk.
      * apply (inv_unique Hinv); [now rewrite Ei | exact Hk].
      * apply (inv_unique Hinv); [exact Hj | now rewrite Ei].
      * now apply (inv_unique Hinv).
    + intros Hf j. at_cases s i j; [|now apply (inv_clear Hinv)].
      pose proof (inv_clear Hinv Hf i) as Hc. rewrite Ei in Hc. discriminate.
    + intros _. exists i. now rewrite move_same.
    + intros j. at_cases s i j; [discriminate|]. apply (inv_at_set Hinv).
    + intros j o'. at_cases s i j; [discriminate|]. apply (inv_at_defer_unlock Hinv).
  - (* AtDeferClear *)
    assert (Hi : syncMutex s = Some i) by (apply (inv_holder Hinv); now rewrite Ei).
    injection Hstep as <-. constructor; cbn [syncMutex syncInProg at_].
    + intros j. at_cases s i j; simpl; [easy|]. apply (inv_holder Hinv).
    + intros j k. at_cases s i j; [discriminate|].
      at_cases s i k; [discriminate|]. apply (inv_unique Hinv).
    + intros _ j. at_cases s i j; [reflexivity|].
      destruct (inProgress (at_ s j)) eqn:Hj; [|reflexivity].
      exfalso. apply n. apply (inv_unique Hinv); [exact Hj | now rewrite Ei].
    + discriminate.
    + reflexivity.
    + reflexivity.
  - (* AtDeferUnlock *)
    assert (Hi : syncMutex s = Some i) by (apply (inv_holder Hinv); now rewrite Ei).
    injection Hstep as <-. constructor; cbn [syncMutex syncInProg at_].
    + intros j. at_cases s i j; simpl; [split; discriminate|].
      split; [|discriminate]. intros Hj. apply (inv_holder Hinv) in Hj. congruence.
    + intros j k. at_cases s i j; [discriminate|].
      at_cases s i k; [discriminate|]. apply (inv_unique Hinv).
    + intros Hf j. at_cases s i j; [reflexivity|]. now apply (inv_clear Hinv).
    + intros Hf. destruct (inv_set Hinv Hf) as [k Hk]. exists k.
      at_cases s i k; [rewrite Ei in Hk; discriminate | exact Hk].
    + intros j. at_cases s i j; [discriminate|]. apply (inv_at_set Hinv).
    + intros j o'. at_cases s i j; [discriminate|]. apply (inv_at_defer_unlock Hinv).
  - (* Returned *)
    discriminate.
Qed.

Lemma guard_invariant_run (schedule : list (nat * outcome)) (s s' : State) :
  guard_invariant s -> run schedule s = Some s' -> guard_invariant s'.
Proof.
  revert s. induction schedule as [|[i o] schedule IH]; intros s Hinv Hrun; simpl in Hrun.
  - now injection Hrun as <-.
  - destruct (step i o s) as [s1|] eqn:E; [|discriminate].
    eapply IH; [|exact Hrun]. eapply guard_invariant_step; eassumption.
Qed.

Lemma guard_invariant_reachable (s : State) : reachable s -> guard_invariant s.
Proof.
  intros [schedule Hrun]. eapply guard_invariant_run; [|exact Hrun].
  apply guard_invariant_init.
Qed.

(** An invocation that tests the flag while a run is in progress is rejected
    in two steps of its own, and the run goes on. *)
Lemma guard_rejects (s : State) (i j : nat) (o : outcome) :
  guard_invariant s ->
  inProgress (at_ s i) = true -> at_ s j = AtCheck ->
  exists s1 s2,
    step j o s = Some s1 /\ at_ s1 j = AtReject
    /\ step j o s1 = Some s2 /\ at_ s2 j = Returned InProgress
    /\ at_ s2 i = at_ s i /\ syncInProg s2 = true.
Proof.
  intros Hinv Hi Hj.
  assert (Hij : i <> j) by (intros ->; rewrite Hj in Hi; discriminate).
  assert (Hf : syncInProg s = true).
  { destruct (syncInProg s) eqn:E; [reflexivity|].
    rewrite (inv_clear Hinv E i) in Hi. discriminate. }
  unfold step. rewrite Hj, Hf. do 2 eexists. split; [reflexivity|].
  cbn [at_]. rewrite move_same. split; [reflexivity|]. split; [reflexivity|].
  cbn [at_ syncInProg]. rewrite move_same, move_other by assumption.
  cbn [at_]. rewrite move_other by assumption.
  repeat split; assumption || reflexivity.
Qed.

(** While a run is under way and the mutex is free, a new invocation
    returns [ErrSyncInProgress] in three steps of its own; the run does not
    have to move. *)
Lemma guard_does_not_block (s : State) (i j : nat) (o : outcome) :
  guard_invariant s ->
  at_ s i = Running -> at_ s j = AtLock -> syncMutex s = None ->
  exists s',
    run [(j, o); (j, o); (j, o)] s = Some s'
    /\ at_ s' j = Returned InProgress /\ at_ s' i = Running
    /\ syncMutex s' = None.
Proof.
  intros Hinv Hi Hj Hm.
  assert (Hij : i <> j) by (intros ->; rewrite Hj in Hi; discriminate).
  assert (Hf : syncInProg s = true).
  { destruct (syncInProg s) eqn:E; [reflexivity|].
    pose proof (inv_clear Hinv E i) as Hc. rewrite Hi in Hc. discriminate. }
  cbn [run]. unfold step at 1. rewrite Hj, Hm.
  unfold step at 1. cbn [at_ syncInProg syncMutex]. rewrite move_same, Hf.
  unfold step at 1. cbn [at_ syncInProg syncMutex]. rewrite move_same.
  eexists. split; [reflexivity|]. cbn [at_ syncMutex].
  rewrite move_same, move_other by assumption.
  cbn [at_]. rewrite move_other by assumption.
  cbn [at_]. rewrite move_other by assumption.
  repeat split; assumption || reflexivity.
Qed.

(** The holder of the mutex releases it within three steps of its own. *)
Lemma guard_mutex_released (s : State) (k : nat) (o : outcome) :
  guard_invariant s -> syncMutex s = Some k ->
  exists n s',
    (n <= 3)%nat /\ run (repeat (k, o) n) s = Some s' /\ syncMutex s' = None.
Proof.
  intros Hinv Hk. apply (inv_holder Hinv) in Hk.
  destruct (at_ s k) eqn:Ek; try discriminate.
  - (* AtCheck *)
    destruct (syncInProg s) eqn:Ef.
    + exists 2%nat. cbn [repeat run]. unfold step at 1. rewrite Ek, Ef.
      unfold step at 1. cbn [at_]. rewrite move_same.
      eexists. split; [lia|]. split; reflexivity.
    + exists 3%nat. cbn [repeat run]. unfold step at 1. rewrite Ek, Ef.
      unfold step at 1. cbn [at_]. rewrite move_same.
      unfold step at 1. cbn [at_]. rewrite move_same.
      eexists. split; [lia|]. split; reflexivity.
  - exists 1%nat. cbn [repeat run]. unfold step. rewrite Ek.
    eexists. split; [lia|]. split; reflexivity.
  - exists 2%nat. cbn [repeat run]. unfold step at 1. rewrite Ek.
    unfold step at 1. cbn [at_]. rewrite move_same.
    eexists. split; [lia|]. split; reflexivity.
  - exists 1%nat. cbn [repeat run]. unfold step. rewrite Ek.
    eexists. split; [lia|]. split; reflexivity.
  - exists 2%nat. cbn [repeat run]. unfold step at 1. rewrite Ek.
    unfold step at 1. cbn [at_]. rewrite move_same.
    eexists. split; [lia|]. split; reflexivity.
  - exists 1%nat. cbn [repeat run]. unfold step. rewrite Ek.
    eexists. split; [lia|]. split; reflexivity.
Qed.

(** However the body of a run ends, the run goes through the deferred
    function, which clears the flag before the invocation returns. *)
Lemma guard_releases (s : State) (i : nat) (o : outcome) :
  guard_invariant s -> at_ s i = Running -> syncMutex s = None ->
  exists s',
    run [(i, o); (i, o); (i, o); (i, o)] s = Some s'
    /\ at_ s' i = Returned (Finished o) /\ syncInProg s' = false
    /\ syncMutex s' = None.
Proof.
  intros Hinv Hi Hm.
  cbn [run]. unfold step at 1. rewrite Hi.
  unfold step at 1. cbn [at_ syncMutex]. rewrite move_same, Hm.
  unfold step at 1. cbn [at_ syncMutex]. rewrite move_same.
  unfold step at 1. cbn [at_ syncMutex]. rewrite move_same.
  eexists. split; [reflexivity|]. cbn [at_ syncInProg syncMutex].
  rewrite move_same. auto.
Qed.

(** C1. In every state that invocations of [SyncStocks] on one service can
    reach by interleaving their steps: at most one invocation is past the
    guard with its run in progress; the flag is set exactly while one is;
    an invocation that tests the flag meanwhile returns [ErrSyncInProgress]
    in two steps of its own while the run goes on; a new invocation that
    finds the mutex free during a run returns [ErrSyncInProgress] in three
    steps of its own, without a step of the run; the mutex is never held
    for more than three steps of its holder; and however the body of the
    run ends (completed, fetch error, panic) the deferred function clears
    the flag before the invocation returns. *)
Theorem SyncStocks_single_flight (s : State) :
  reachable s ->
  (forall i j,
     inProgress (at_ s i) = true -> inProgress (at_ s j) = true -> i = j)
  /\ (syncInProg s = true <-> exists i, inProgress (at_ s i) = true)
  /\ (forall i j o,
        inProgress (at_ s i) = true -> at_ s j = AtCheck ->
        exists s1 s2,
          step j o s = Some s1 /\ at_ s1 j = AtReject
          /\ step j o s1 = Some s2 /\ at_ s2 j = Returned InProgress
          /\ at_ s2 i = at_ s i /\ syncInProg s2 = true)
  /\ (forall i j o,
        at_ s i = Running -> at_ s j = AtLock -> syncMutex s = None ->
        exists s',
          run [(j, o); (j, o); (j, o)] s = Some s'
          /\ at_ s' j = Returned InProgress /\ at_ s' i = Running
          /\ syncMutex s' = None)
  /\ (forall k o,
        syncMutex s = Some k ->
        exists n s',
          (n <= 3)%nat /\ run (repeat (k, o) n) s = Some s' /\ syncMutex s' = None)
  /\ (forall i o,
        at_ s i = Running -> syncMutex s = None ->
        exists s',
          run [(i, o); (i, o); (i, o); (i, o)] s = Some s'
          /\ at_ s' i = Returned (Finished o) /\ syncInProg s' = false
          /\ syncMutex s' = None)
  /\ (forall i o, at_ s i = AtDeferUnlock o -> syncInProg s = false).
Proof.
  intros Hreach. pose proof (guard_invariant_reachable Hreach) as Hinv.
  split; [exact (inv_unique Hinv)|].
  split.
  { split; [apply (inv_set Hinv)|]. intros [i Hi].
    destruct (syncInProg s) eqn:E; [reflexivity|].
    rewrite (inv_clear Hinv E i) in Hi. discriminate. }
  split; [intros i j o; now apply guard_rejects|].
  split; [intros i j o; now apply guard_does_not_block|].
  split; [intros k o; now apply guard_mutex_released|].
  split; [intros i o; now apply guard_releases|].
  exact (inv_at_defer_unlock Hinv).
Qed.

Lemma SyncStocks_single_flight_witness :
  reachable guardExample
  /\ (forall i j,
        inProgress (at_ guardExample i) = true ->
        inProgress (at_ guardExample j) = true -> i = j)
  /\ exists s1 s2,
       step 1 Completed guardExample = Some s1 /\ at_ s1 1%nat = AtReject
       /\ step 1 Completed s1 = Some s2 /\ at_ s2 1%nat = Returned InProgress
       /\ at_ s2 0%nat = at_ guardExample 0%nat /\ syncInProg s2 = true.
Proof.
  assert (Hreach : reachable guardExample) by (exists guardSchedule; reflexivity).
  split; [exact Hreach|].
  destruct (SyncStocks_single_flight Hreach) as (Hunique & _ & Hreject & _).
  split; [exact Hunique|].
  apply (Hreject 0%nat 1%nat Completed); reflexivity.
Defined.


(** ** Identity derivation *)

Lemma append_assoc (a b c : string) : (a ++ b) ++ c = a ++ (b ++ c).
Proof. induction a as [|ch a IH]; simpl; [|rewrite IH]; reflexivity. Qed.

Lemma append_nil_r (a : string) : a ++ "" = a.
Proof. induction a as [|ch a IH]; simpl; [|rewrite IH]; reflexivity. Qed.

Lemma list_ascii_of_append (a b : string) :
  list_ascii_of_string (a ++ b)
  = (list_ascii_of_string a ++ list_ascii_of_string b)%list.
Proof. induction a as [|ch a IH]; simpl; [|rewrite IH]; reflexivity. Qed.

Lemma list_ascii_of_string_inj (a b : string) :
  list_ascii_of_string a = list_ascii_of_string b -> a = b.
Proof.
  intros E. rewrite <- (string_of_list_ascii_of_string a),
    <- (string_of_list_ascii_of_string b). now rewrite E.
Qed.

(** A string between a fixed prefix and a fixed suffix determines the whole. *)
Lemma append_middle_inj (p x y q : string) : p ++ x ++ q = p ++ y ++ q -> x = y.
Proof.
  intros E. apply (f_equal list_ascii_of_string) in E.
  rewrite !list_ascii_of_append in E.
  apply app_inv_head, app_inv_tail in E. now apply list_ascii_of_string_inj.
Qed.

Lemma concat_middle (sep : string) (pre post : list string) :
  exists p q, forall x, String.concat sep (pre ++ x :: post)%list = p ++ x ++ q.
Proof.
  induction pre as [|a pre IH].
  - destruct post as [|b post].
    + exists "", "". intros x. simpl. now rewrite append_nil_r.
    + exists "", (sep ++ String.concat sep (b :: post)). intros x. reflexivity.
  - destruct IH as (p & q & IH). exists (a ++ sep ++ p), q. intros x.
    rewrite !append_assoc, <- IH.
    destruct pre; reflexivity.
Qed.

Lemma digest_input_one_field (pre post : list string) (x y : string) :
  x <> y ->
  Spec.digest_input (pre ++ x :: post) <> Spec.digest_input (pre ++ y :: post).
Proof.
  intros Hxy E. unfold Spec.digest_input in E.
  destruct (concat_middle "|" pre post) as (p & q & H).
  rewrite !H in E. now apply append_middle_inj in E.
Qed.


Lemma unhex_hexDigit (n : Z) : (0 <= n < 16)%Z -> unhex (hexDigit n) = n.
Proof.
  intros Hn. rewrite <- (Z2Nat.id n) by lia.
  assert (Hk : (Z.to_nat n < 16)%nat) by lia.
  revert Hk. generalize (Z.to_nat n). intros k Hk.
  do 16 (destruct k as [|k]; [reflexivity|]). lia.
Qed.


Lemma EncodeToString_inj (l1 l2 : list Z) :
  Forall isByte l1 -> Forall isByte l2 ->
  EncodeToString l1 = EncodeToString l2 -> l1 = l2.
Proof.
  intros H1. revert l2. induction H1 as [|a l1 Ha H1 IH]; intros l2 H2 E.
  - destruct l2; [reflexivity | discriminate].
  - destruct H2 as [|b l2 Hb H2]; [discriminate|].
    simpl in E. injection E as Ehi Elo Erest.
    unfold isByte in *.
    apply (f_equal unhex) in Ehi, Elo.
    rewrite !unhex_hexDigit in Ehi, Elo
      by (try apply Z.mod_pos_bound; try (split; [apply Z.div_pos | apply Z.div_lt_upper_bound]); lia).
    f_equal; [|now apply IH].
    rewrite (Z.div_mod a 16), (Z.div_mod b 16) by lia. congruence.
Qed.

Lemma wordBytes_bytes (w : Z) : Forall isByte (MD5.wordBytes w).
Proof. repeat constructor; apply Z.mod_pos_bound; lia. Qed.

Lemma Sum_bytes (data : list Z) : Forall isByte (MD5.Sum data).
Proof.
  unfold MD5.Sum. destruct (MD5.blocks _ _ _) as [[[a b] c] d].
  repeat (apply Forall_app; split); apply wordBytes_bytes.
Qed.

Lemma generateStockID_derive (item : Karenai.StockItem) (targetFrom targetTo : float64) :
  Karenai.generateStockID item targetFrom targetTo
  = Spec.derive (Spec.identity_fields item targetFrom targetTo).
Proof.
  unfold Karenai.generateStockID, Spec.derive, Spec.digest_input,
    Spec.identity_fields. cbn [String.concat]. reflexivity.
Qed.

Lemma derive_one_field (pre post : list string) (x y : string) :
  x <> y ->
  Spec.digest_input (pre ++ x :: post) <> Spec.digest_input (pre ++ y :: post)
  /\ (Spec.derive (pre ++ x :: post) = Spec.derive (pre ++ y :: post)
      <-> MD5.Sum (bytesOf (Spec.digest_input (pre ++ x :: post)))
          = MD5.Sum (bytesOf (Spec.digest_input (pre ++ y :: post)))).
Proof.
  intros Hxy. split; [now apply digest_input_one_field|].
  unfold Spec.derive. split; [|now intros ->].
  apply EncodeToString_inj; apply Sum_bytes.
Qed.

Lemma Sum_length (data : list Z) : length (MD5.Sum data) = 16%nat.
Proof.
  unfold MD5.Sum. destruct (MD5.blocks _ _ _) as [[[a b] c] d]. reflexivity.
Qed.

(** *** More records than identities *)

Lemma bytesValue_range (bytes : list Z) :
  Forall isByte bytes ->
  (0 <= bytesValue bytes < 256 ^ Z.of_nat (length bytes))%Z.
Proof.
  intros H. induction H as [|b rest Hb _ IH].
  - simpl. lia.
  - cbn [bytesValue length]. rewrite Nat2Z.inj_succ, Z.pow_succ_r by lia.
    unfold isByte in Hb. lia.
Qed.

Lemma bytesValue_inj (l1 l2 : list Z) :
  Forall isByte l1 -> Forall isByte l2 -> length l1 = length l2 ->
  bytesValue l1 = bytesValue l2 -> l1 = l2.
Proof.
  intros H1. revert l2. induction H1 as [|a l1 Ha _ IH]; intros l2 H2 Hlen E.
  - destruct l2; [reflexivity | discriminate].
  - destruct H2 as [|b l2 Hb H2]; [discriminate|].
    cbn [bytesValue] in E. unfold isByte in *.
    assert (a = b) by lia. subst b.
    f_equal. apply IH; [exact H2 | now injection Hlen | lia].
Qed.

Lemma bounded_search (f : nat -> nat) (h n : nat) :
  (exists i, (i <= n)%nat /\ f i = h) \/ (forall i, (i <= n)%nat -> f i <> h).
Proof.
  induction n as [|n IH].
  - destruct (Nat.eq_dec (f 0%nat) h) as [E|E].
    + left. exists 0%nat. split; [lia | exact E].
    + right. intros i Hi. replace i with 0%nat by lia. exact E.
  - destruct IH as [(i & Hi & E)|IH].
    + left. exists i. split; [lia | exact E].
    + destruct (Nat.eq_dec (f (S n)) h) as [E|E].
      * left. exists (S n). split; [lia | exact E].
      * right. intros i Hi.
        destruct (Nat.eq_dec i (S n)) as [->|Hne]; [exact E|]. apply IH. lia.
Qed.

(** [N + 1] things of [N] kinds: two of them are of one kind. *)
Lemma pigeonhole (N : nat) (f : nat -> nat) :
  (forall i, (i <= N)%nat -> (f i < N)%nat) ->
  exists i j, (i < j)%nat /\ (j <= N)%nat /\ f i = f j.
Proof.
  revert f. induction N as [|N IH]; intros f H.
  - specialize (H 0%nat (le_n 0)). lia.
  - destruct (bounded_search f (f (S N)) N) as [(i & Hi & E)|Hfree].
    + exists i, (S N). repeat split; [lia | lia | exact E].
    + set (h := f (S N)) in *.
      set (g := fun i => if (f i <? h)%nat then f i else (f i - 1)%nat).
      destruct (IH g) as (i & j & Hij & Hj & E).
      * intros i Hi. unfold g. specialize (Hfree i Hi).
        pose proof (H i ltac:(lia)) as Hi'. pose proof (H (S N) ltac:(lia)) as Hh.
        fold h in Hh.
        destruct (Nat.ltb_spec (f i) h); lia.
      * exists i, j. repeat split; [exact Hij | lia |].
        unfold g in E.
        pose proof (Hfree i ltac:(lia)). pose proof (Hfree j ltac:(lia)).
        destruct (Nat.ltb_spec (f i) h), (Nat.ltb_spec (f j) h); lia.
Qed.

(** Two numbers have two numerals. *)
Lemma decimal_inj (n m : Z) :
  (0 <= n)%Z -> (0 <= m)%Z -> decimal n = decimal m -> n = m.
Proof.
  unfold decimal. intros Hn Hm E.
  assert (Hnil : forall k : N, N.to_uint k <> Decimal.Nil).
  { intros [|p]; [discriminate | apply Unsigned.to_uint_nonnil]. }
  apply (f_equal NilZero.uint_of_string) in E.
  rewrite !NilZero.usu in E by apply Hnil. injection E as E.
  apply DecimalN.Unsigned.to_uint_inj in E. lia.
Qed.

(** C2 (as stated, refuted). Among the records that differ in one field
    only, the ticker, and have as ticker the decimal numeral of a number up
    to [2^128], two get the same id: there are more of them than values of
    the digest. *)
Lemma generateStockID_not_injective :
  exists n m : Z,
    (0 <= n < m)%Z /\ (m <= 2 ^ 128)%Z
    /\ decimal n <> decimal m
    /\ Karenai.generateStockID (collidingItem (decimal n)) (of_Z 100) (of_Z 120)
       = Karenai.generateStockID (collidingItem (decimal m)) (of_Z 100) (of_Z 120).
Proof.
  set (digest := fun i : nat =>
         MD5.Sum (bytesOf (Spec.digest_input
           (Spec.identity_fields (collidingItem (decimal (Z.of_nat i)))
              (of_Z 100) (of_Z 120))))).
  assert (Hrange : forall i, (0 <= bytesValue (digest i) < 2 ^ 128)%Z).
  { intros i. pose proof (bytesValue_range (Sum_bytes
      (bytesOf (Spec.digest_input
         (Spec.identity_fields (collidingItem (decimal (Z.of_nat i)))
            (of_Z 100) (of_Z 120)))))) as H.
    rewrite Sum_length in H. exact H. }
  remember (Z.to_nat (2 ^ 128)) as N eqn:EN.
  assert (HN : Z.of_nat N = (2 ^ 128)%Z) by (subst N; apply Z2Nat.id; lia).
  clear EN.
  destruct (@pigeonhole N (fun i => Z.to_nat (bytesValue (digest i))))
    as (i & j & Hij & Hj & E).
  { intros i _. pose proof (Hrange i). lia. }
  exists (Z.of_nat i), (Z.of_nat j).
  split; [lia|]. split; [lia|]. split.
  - intros Ed. apply decimal_inj in Ed; lia.
  - rewrite !generateStockID_derive. unfold Spec.derive. f_equal.
    apply bytesValue_inj; try apply Sum_bytes.
    + now rewrite !Sum_length.
    + change (bytesValue (digest i) = bytesValue (digest j)).
      pose proof (Hrange i). pose proof (Hrange j).
      apply Z2Nat.inj; [lia | lia | exact E].
Qed.

(** Two records with different tickers and companies and the same digested
    text, without any collision of the digest: the delimiter may occur in a
    field. *)
Example generateStockID_delimiter :
  let item1 := Karenai.mkStockItem "A|B" "C" "Broker" "upgraded by" "Hold" "Buy"
                 (Karenai.VFloat64 (of_Z 100)) (Karenai.VFloat64 (of_Z 120)) in
  let item2 := Karenai.mkStockItem "A" "B|C" "Broker" "upgraded by" "Hold" "Buy"
                 (Karenai.VFloat64 (of_Z 100)) (Karenai.VFloat64 (of_Z 120)) in
  Spec.digest_input (Spec.identity_fields item1 (of_Z 100) (of_Z 120))
  = Spec.digest_input (Spec.identity_fields item2 (of_Z 100) (of_Z 120))
  /\ Karenai.generateStockID item1 (of_Z 100) (of_Z 120)
     = Karenai.generateStockID item2 (of_Z 100) (of_Z 120).
Proof.
  cbv zeta.
  assert (E : Spec.digest_input
                (Spec.identity_fields
                   (Karenai.mkStockItem "A|B" "C" "Broker" "upgraded by" "Hold" "Buy"
                      (Karenai.VFloat64 (of_Z 100)) (Karenai.VFloat64 (of_Z 120)))
                   (of_Z 100) (of_Z 120))
              = Spec.digest_input
                  (Spec.identity_fields
                     (Karenai.mkStockItem "A" "B|C" "Broker" "upgraded by" "Hold" "Buy"
                        (Karenai.VFloat64 (of_Z 100)) (Karenai.VFloat64 (of_Z 120)))
                     (of_Z 100) (of_Z 120)))
    by (vm_compute; reflexivity).
  split; [exact E|].
  rewrite !generateStockID_derive. unfold Spec.derive. now rewrite E.
Qed.

(** C2 (amended). For every raw record the id is the hex encoding of the MD5
    digest of ticker, company, brokerage, action, rating_from, rating_to and
    the two targets formatted to two decimals, joined with "|"; so records
    identical on those fields get identical ids.  Changing any one field
    changes the digested string, and the two ids are then equal exactly when
    MD5 collides on the two strings. *)
Theorem generateStockID_identity :
  (forall (item : Karenai.StockItem) (targetFrom targetTo : float64),
     Karenai.generateStockID item targetFrom targetTo
     = Spec.derive (Spec.identity_fields item targetFrom targetTo))
  /\ (forall (pre post : list string) (x y : string),
        x <> y ->
        Spec.digest_input (pre ++ x :: post) <> Spec.digest_input (pre ++ y :: post)
        /\ (Spec.derive (pre ++ x :: post) = Spec.derive (pre ++ y :: post)
            <-> MD5.Sum (bytesOf (Spec.digest_input (pre ++ x :: post)))
                = MD5.Sum (bytesOf (Spec.digest_input (pre ++ y :: post))))).
Proof.
  split.
  - intros item targetFrom targetTo. apply generateStockID_derive.
  - intros pre post x y. apply derive_one_field.
Qed.

Lemma generateStockID_identity_witness :
  "Apple" <> "Apple Inc."
  /\ Spec.digest_input (["AAPL"] ++ "Apple" :: ["Broker"])
     <> Spec.digest_input (["AAPL"] ++ "Apple Inc." :: ["Broker"]).
Proof.
  assert (Hne : "Apple" <> "Apple Inc.") by discriminate.
  split; [exact Hne|].
  exact (proj1 (proj2 generateStockID_identity ["AAPL"] ["Broker"] "Apple"
                  "Apple Inc." Hne)).
Defined.

(** ** Scenarios *)

(** The RFC 1321 test suite, through the hexadecimal encoding. *)
Example md5_test_suite :
  map (fun s => EncodeToString (MD5.Sum (bytesOf s)))
    [ ""; "a"; "abc"; "message digest"; "abcdefghijklmnopqrstuvwxyz" ]
  = [ "d41d8cd98f00b204e9800998ecf8427e";
      "0cc175b9c0f1b6a831c399e269772661";
      "900150983cd24fb0d6963f7d28e17f72";
      "f96b697d7cb7938d525a2f31aaf161d0";
      "c3fcd3d76192e4007dfb496cca67e13b" ].
Proof. vm_compute. reflexivity. Qed.

Example formatFloat2_samples :
  map formatFloat2
    [ of_Z 100; flit 1234 100; flit 125 1000; flit 1 3; flit (-15) 10; of_Z 0;
      pInf; FNaN ]
  = [ "100.00"; "12.34"; "0.12"; "0.33"; "-1.50"; "0.00"; "+Inf"; "NaN" ].
Proof. vm_compute. reflexivity. Qed.

(** Buy, target raised by, 100 to 150: both scores lie in [70,100]. *)
Example scenario_buy_raised :
  Stocks.calculateRecommendScore buyRaisedStock = of_Z 100
  /\ Recommendation.CalculateScore buyRaisedStock = flit 975 10.
Proof. split; float_eq. Qed.

(** Sell, downgraded by, 100 to 50: the ingest-time score lies in [0,30]. *)
Example scenario_sell_downgraded :
  Stocks.calculateRecommendScore sellDowngradedStock = of_Z 0
  /\ Recommendation.CalculateScore sellDowngradedStock = of_Z 50.
Proof. split; float_eq. Qed.

(** A second run over the same feed finds the records of the first:
    nothing is new, and [CreatedAt] is the one of the first run. *)
Example scenario_second_run_of_store :
  let store := Storage.StorageRepository (fun s => s) (fun _ _ => true) in
  let run1 := @Stocks.SyncStocks _ store exampleClock (Ok mockChannel)
                (Stocks.mkService (Storage.mkStorage [] false) false zeroTime)
                emptyWorld in
  let run2 := @Stocks.SyncStocks _ store exampleClock (Ok mockChannel)
                (snd (fst run1)) (snd run1) in
  option_map NewRecords (fst (fst (fst run1))) = Some 3%Z
  /\ option_map NewRecords (fst (fst (fst run2))) = Some 0%Z
  /\ option_map UpdatedRecords (fst (fst (fst run2))) = Some 3%Z
  /\ map CreatedAt (Storage.rows (Stocks.storage (snd (fst run1))))
     = [1001; 1003; 1005]%Z
  /\ map CreatedAt (Storage.rows (Stocks.storage (snd (fst run2))))
     = [1001; 1003; 1005]%Z
  /\ map UpdatedAt (Storage.rows (Stocks.storage (snd (fst run2))))
     = [1007; 1008; 1009]%Z.
Proof. cbv zeta. repeat split; vm_compute; reflexivity. Qed.

(* ================================================================== *)
(** * Further properties of the code *)

(** ** The justification of a recommendation *)

Lemma reasonOf_cases (table : list (list string * string)) (label : string) :
  reasonOf table label = []
  \/ exists phrase, reasonOf table label = [phrase] /\ In phrase (map snd table).
Proof.
  induction table as [|[labels phrase] table IH]; [now left|].
  cbn [reasonOf map snd]. destruct (existsb (String.eqb label) labels).
  - right. exists phrase. split; [reflexivity | now left].
  - destruct IH as [IH | (q & E & Hq)]; [now left|].
    right. exists q. split; [exact E | now right].
Qed.

Lemma targetReason_cases (from to : float64) :
  targetReason from to = []
  \/ exists phrase,
       targetReason from to = [phrase]
       /\ In phrase [ "Significant upside potential in price target";
                      "Notable downside risk in price target" ].
Proof.
  unfold targetReason.
  repeat match goal with
  | |- context [if ?c then _ else _] => destruct c
  end; try (now left); right; eexists; (split; [reflexivity | simpl; tauto]).
Qed.

(** The three steps of [generateReason]. *)
Lemma generateReason_rating (rating : string) :
  (if (rating =? "Buy") || (rating =? "Strong Buy") then
     ([] ++ ["Strong buy recommendation from analyst"])%list
   else if (rating =? "Outperform") || (rating =? "Overweight") then
     ([] ++ ["Expected to outperform the market"])%list
   else if (rating =? "Hold") || (rating =? "Neutral") then
     ([] ++ ["Stable performance expected"])%list
   else if (rating =? "Sell") || (rating =? "Underperform") then
     ([] ++ ["Caution advised - underperformance expected"])%list
   else [])
  = reasonOf ratingReasons rating.
Proof.
  unfold ratingReasons. cbn [reasonOf existsb app].
  repeat match goal with
  | |- context [String.eqb rating ?k] =>
      destruct (String.eqb rating k); cbn [orb]; try reflexivity
  end.
Qed.

Lemma generateReason_action (action : string) (reasons : list string) :
  (if action =? "target raised by" then
     (reasons ++ ["Price target recently increased"])%list
   else if action =? "upgraded by" then
     (reasons ++ ["Recently upgraded by analyst"])%list
   else if action =? "target lowered by" then
     (reasons ++ ["Price target recently decreased"])%list
   else if action =? "downgraded by" then
     (reasons ++ ["Recently downgraded by analyst"])%list
   else reasons)
  = (reasons ++ reasonOf actionReasons action)%list.
Proof.
  unfold actionReasons. cbn [reasonOf existsb].
  repeat match goal with
  | |- context [String.eqb action ?k] =>
      destruct (String.eqb action k); cbn [orb]; try reflexivity
  end.
  symmetry. apply app_nil_r.
Qed.

Lemma generateReason_target (from to : float64) (reasons : list string) :
  (if (from >? of_Z 0)%f64 && (to >? of_Z 0)%f64 then
     let change := (((to - from) / from) * of_Z 100)%f64 in
     if (change >? of_Z 10)%f64 then
       (reasons ++ ["Significant upside potential in price target"])%list
     else if (change <? of_Z (-10))%f64 then
       (reasons ++ ["Notable downside risk in price target"])%list
     else reasons
   else reasons)
  = (reasons ++ targetReason from to)%list.
Proof.
  unfold targetReason. cbv zeta.
  change (((to - from) / from) * of_Z 100)%f64 with (percentChange from to).
  repeat match goal with
  | |- context [if ?c then _ else _] => destruct c
  end; try reflexivity; symmetry; apply app_nil_r.
Qed.

(** X1. [generateReason] never returns the empty text.  It returns the
    fallback sentence when no rule applies, and otherwise one to three of its
    ten fixed phrases (at most one for the rating, one for the action, one
    for the change of the price target, in that order) joined by ". ": the
    phrase of the rating and the phrase of the action are those of the two
    tables, and the phrase of the targets, both positive, tells a change
    above 10 percent or below -10 percent. *)
Theorem generateReason_phrases (stock : Stock) :
  let phrases :=
    (reasonOf ratingReasons (RatingTo stock)
     ++ reasonOf actionReasons (Action stock)
     ++ targetReason (TargetFrom stock) (TargetTo stock))%list in
  (length (reasonOf ratingReasons (RatingTo stock)) <= 1)%nat
  /\ (length (reasonOf actionReasons (Action stock)) <= 1)%nat
  /\ (length (targetReason (TargetFrom stock) (TargetTo stock)) <= 1)%nat
  /\ (length phrases <= 3)%nat
  /\ incl phrases cannedReasons
  /\ Recommendation.generateReason stock
     = match phrases with
       | [] => fallbackReason
       | _ => String.concat ". " phrases
       end
  /\ Recommendation.generateReason stock <> "".
Proof.
  intros phrases.
  assert (Hgen : Recommendation.generateReason stock
                 = match phrases with
                   | [] => "Based on current market analysis"
                   | first :: rest =>
                       fold_left (fun result reason => result ++ ". " ++ reason)
                         (firstn 2 rest) first
                   end).
  { unfold Recommendation.generateReason. cbv zeta.
    rewrite generateReason_rating, generateReason_action, generateReason_target.
    unfold phrases. now rewrite app_assoc. }
  rewrite Hgen. unfold phrases. clear Hgen phrases.
  assert (Hne : forall p rest, In p cannedReasons -> (p ++ rest)%string <> "").
  { intros p rest Hp. vm_compute in Hp.
    repeat (destruct Hp as [<- | Hp]; [discriminate|]). contradiction. }
  assert (Hr : forall p, In p (map snd ratingReasons) -> In p cannedReasons)
    by (intros p Hp; unfold cannedReasons; apply in_or_app; now left).
  assert (Ha : forall p, In p (map snd actionReasons) -> In p cannedReasons).
  { intros p Hp. unfold cannedReasons. apply in_or_app. right.
    apply in_or_app. now left. }
  assert (Ht : forall p, In p [ "Significant upside potential in price target";
                                "Notable downside risk in price target" ] ->
                         In p cannedReasons).
  { intros p Hp. unfold cannedReasons. apply in_or_app. right.
    apply in_or_app. now right. }
  destruct (reasonOf_cases ratingReasons (RatingTo stock)) as [-> | (p & -> & Hp)],
    (reasonOf_cases actionReasons (Action stock)) as [-> | (q & -> & Hq)],
    (targetReason_cases (TargetFrom stock) (TargetTo stock)) as [-> | (c & -> & Hc)];
    cbn [app length firstn fold_left String.concat];
    repeat (split; [lia|]);
    (split; [intros x Hx; simpl in Hx; intuition (subst; auto)|]);
    rewrite ?append_assoc; (split; [reflexivity|]);
    try discriminate; try (apply Hne; auto);
    rewrite <- (append_nil_r _); apply Hne; auto.
Qed.

(** ** Monotonicity of the recommendation-time score *)

Lemma ltb_not_leb (c x : float64) : (c <? x)%f64 = true -> (x <=? c)%f64 = false.
Proof.
  destruct c as [r|[|]|], x as [p|[|]|]; simpl; try easy.
  rewrite Qc_ltb_true, Qc_leb_false. tauto.
Qed.

(** The percent change of the code grows with the new target. *)
Lemma percentChange_mono (a : Qc) (to1 to2 : float64) :
  (0 < a)%Q -> (to1 <= to2)%f64 ->
  (percentChange (FNum a) to1 <= percentChange (FNum a) to2)%f64.
Proof.
  intros Ha H. unfold percentChange, of_Z, of_Q.
  apply mul_mono_l; [reflexivity|].
  apply div_mono_l; [exact Ha|].
  now apply sub_mono_l.
Qed.

(** X2. The price-target step function never decreases when the new
    target grows, as long as the smaller new target is positive; this holds
    for every old target, finite or not.  (A new target that is not positive
    scores the neutral 50, which a positive one below the old target does
    not reach.) *)
Theorem calculatePriceTargetScore_monotone (from to1 to2 : float64) :
  (to1 >? of_Z 0)%f64 = true -> (to1 <= to2)%f64 ->
  (Recommendation.calculatePriceTargetScore from to1
   <= Recommendation.calculatePriceTargetScore from to2)%f64.
Proof.
  unfold gtb. intros Hpos Hle.
  pose proof (ltb_le_trans _ Hpos Hle) as Hpos2.
  unfold Recommendation.calculatePriceTargetScore.
  rewrite (ltb_not_leb _ _ Hpos), (ltb_not_leb _ _ Hpos2), !Bool.orb_false_r.
  destruct (from <=? of_Z 0)%f64 eqn:Efrom; [reflexivity|].
  destruct from as [a|[|]|]; try discriminate.
  - (* a finite old target *)
    assert (Ha : (0 < a)%Q).
    { unfold of_Z, of_Q in Efrom. cbn [leb] in Efrom.
      apply Qc_leb_false in Efrom. now rewrite this_of_Z in Efrom. }
    pose proof (@percentChange_mono a to1 to2 Ha Hle) as Hmono.
    cbv zeta.
    change (((to1 - FNum a) / FNum a) * of_Z 100)%f64 with (percentChange (FNum a) to1).
    change (((to2 - FNum a) / FNum a) * of_Z 100)%f64 with (percentChange (FNum a) to2).
    set (p1 := percentChange (FNum a) to1) in *.
    set (p2 := percentChange (FNum a) to2) in *.
    clearbody p1 p2. unfold gtb.
    repeat match goal with
    | |- context [if (?c <? p1)%f64 then _ else _] =>
        let E := fresh "E" in
        destruct (c <? p1)%f64 eqn:E;
        [rewrite (ltb_le_trans _ E Hmono)|]
    end;
    repeat match goal with
    | |- context [if (?c <? p2)%f64 then _ else _] => destruct (c <? p2)%f64
    end; reflexivity.
  - (* the old target is +Inf: the change is not a number *)
    destruct to1 as [b1|[|]|]; try discriminate;
      destruct to2 as [b2|[|]|]; try discriminate; reflexivity.
  - (* the old target is not a number *)
    destruct to1 as [b1|[|]|]; try discriminate;
      destruct to2 as [b2|[|]|]; try discriminate; reflexivity.
Qed.

Lemma calculatePriceTargetScore_monotone_witness :
  (of_Z 120 >? of_Z 0)%f64 = true /\ (of_Z 120 <= of_Z 160)%f64
  /\ (Recommendation.calculatePriceTargetScore (of_Z 100) (of_Z 120)
      <= Recommendation.calculatePriceTargetScore (of_Z 100) (of_Z 160))%f64.
Proof.
  assert (H1 : (of_Z 120 >? of_Z 0)%f64 = true) by reflexivity.
  assert (H2 : (of_Z 120 <= of_Z 160)%f64) by reflexivity.
  split; [exact H1|]. split; [exact H2|].
  exact (@calculatePriceTargetScore_monotone (of_Z 100) (of_Z 120) (of_Z 160) H1 H2).
Defined.

(** X3. [CalculateScore] is monotone in its three components: a stock
    whose rating, action and price-target contributions are each at least
    those of another stock never scores below it. *)
Theorem CalculateScore_monotone (s1 s2 : Stock) :
  (Recommendation.calculateRatingScore (RatingTo s1)
   <= Recommendation.calculateRatingScore (RatingTo s2))%f64 ->
  (Recommendation.calculateActionScore (Action s1)
   <= Recommendation.calculateActionScore (Action s2))%f64 ->
  (Recommendation.calculatePriceTargetScore (TargetFrom s1) (TargetTo s1)
   <= Recommendation.calculatePriceTargetScore (TargetFrom s2) (TargetTo s2))%f64 ->
  (Recommendation.CalculateScore s1 <= Recommendation.CalculateScore s2)%f64.
Proof.
  rewrite !rating_contribution_lookup, !action_contribution_lookup.
  destruct (calculatePriceTargetScore_range (TargetFrom s1) (TargetTo s1))
    as (p1 & E1 & Hp1).
  destruct (calculatePriceTargetScore_range (TargetFrom s2) (TargetTo s2))
    as (p2 & E2 & Hp2).
  rewrite (CalculateScore_blend s1 E1 Hp1), (CalculateScore_blend s2 E2 Hp2).
  rewrite E1, E2, !of_Z_le. intros Hr Ha Hp.
  apply binary64_mono. now apply blend_mono.
Qed.

Lemma CalculateScore_monotone_witness :
  (Recommendation.CalculateScore sellDowngradedStock
   <= Recommendation.CalculateScore buyRaisedStock)%f64.
Proof.
  apply CalculateScore_monotone; vm_compute; reflexivity.
Defined.

(** ** When the ingest-time score is not a number *)

(** X4. [calculateRecommendScore] returns [NaN] exactly when the old
    target is [+Inf] and the new target is positive; in every other case the
    score is a number between 0 and 100. *)
Theorem calculateRecommendScore_nan_iff (stock : Stock) :
  (Stocks.calculateRecommendScore stock = FNaN
   <-> TargetFrom stock = pInf /\ (TargetTo stock >? of_Z 0)%f64 = true)
  /\ (Stocks.calculateRecommendScore stock <> FNaN ->
      Spec.in_bounds (Stocks.calculateRecommendScore stock)).
Proof.
  rewrite calculateRecommendScore_steps. cbv zeta.
  set (base := of_Z (50 + _ + _)).
  set (x := if (_ && _) then (_ + _)%f64 else base).
  assert (Hx : x = FNaN
               <-> TargetFrom stock = pInf /\ (TargetTo stock >? of_Z 0)%f64 = true).
  { unfold x. split.
    - destruct (TargetFrom stock >? of_Z 0)%f64 eqn:E1; [|discriminate].
      destruct (TargetTo stock >? of_Z 0)%f64 eqn:E2; [|discriminate].
      cbn [andb]. intros Hnan. split; [|reflexivity].
      destruct (TargetFrom stock) as [a|[|]|] eqn:Ef; try discriminate;
        [|reflexivity].
      exfalso. revert Hnan. apply add_not_nan.
      apply ingest_target_term_not_nan; [discriminate | exact E1 | exact E2].
    - intros [-> E2]. rewrite E2.
      destruct (TargetTo stock) as [b|[|]|]; try discriminate; reflexivity. }
  destruct x as [q|s|] eqn:Ex.
  - destruct (@clampScore_range (FNum q)) as (c & -> & C0 & C1); [discriminate|].
    pose proof (roundScore_bounds c C0 C1) as Hb. split.
    + split; [|intros H; apply Hx in H; discriminate].
      intros H. destruct Hb as [Hb _]. rewrite H in Hb. discriminate.
    + intros _. exact Hb.
  - destruct (@clampScore_range (FInf s)) as (c & -> & C0 & C1); [discriminate|].
    pose proof (roundScore_bounds c C0 C1) as Hb. split.
    + split; [|intros H; apply Hx in H; discriminate].
      intros H. destruct Hb as [Hb _]. rewrite H in Hb. discriminate.
    + intros _. exact Hb.
  - split.
    + split; [intros _; now apply Hx | reflexivity].
    + intros H. now elim H.
Qed.

(** ** The batches of a synchronization run *)

Section SyncBatches.
Context {R : Type} `{StocksRepository R}.
Variable clock : nat -> Time.

Lemma saveBatch_logged (line : error -> Stocks.LogLine) (st : R)
    (b : list Stock) (w : Stocks.World) :
  (forall e, isFetchErrorLine (line e) = false) ->
  filter isFetchErrorLine (Stocks.logged (snd (Stocks.saveBatch line st b w)))
  = filter isFetchErrorLine (Stocks.logged w).
Proof.
  intros Hline. unfold Stocks.saveBatch.
  destruct (SaveBatch st b) as [st' [e|]]; [|reflexivity].
  cbn. rewrite filter_app. cbn. rewrite Hline. apply app_nil_r.
Qed.

Lemma after_batches (stocksChan : list StockOrError) (l : @Stocks.Loop R) :
  (length (Stocks.batch l) < 100)%nat ->
  let l' := after clock stocksChan l in
  let n := (length (Stocks.batch l) + length (records stocksChan))%nat in
  map (@length Stock) (Stocks.written (Stocks.l_world l'))
  = (map (@length Stock) (Stocks.written (Stocks.l_world l))
     ++ repeat 100%nat (n / 100))%list
  /\ length (Stocks.batch l') = (n mod 100)%nat.
Proof.
  revert l. induction stocksChan as [|x stocksChan IH]; intros l Hb; cbv zeta.
  - unfold after, records. cbn [fold_left filter length].
    rewrite Nat.add_0_r, Nat.div_small, Nat.mod_small by exact Hb.
    cbn [repeat]. now rewrite app_nil_r.
  - change (after clock (x :: stocksChan) l)
      with (after clock stocksChan (Stocks.processRecord clock l x)).
    cbn [records filter]. fold (records stocksChan).
    unfold Stocks.processRecord, isRecord.
    destruct (SError x) as [e|].
    + exact (IH (Stocks.mkLoop (Stocks.l_storage l)
                   (Stocks.logPrintf (Stocks.LogFetchError e) (Stocks.l_world l))
                   (Stocks.batch l) (Stocks.totalRecords l) (Stocks.newRecords l)) Hb).
    + pose proof (stamp_world clock (Stocks.l_storage l) (Stocks.l_world l)
                    (SStock x)) as Hw.
      destruct (Stocks.stamp _ _ _ _) as [[stock isNew] w]. destruct Hw as [_ Hw].
      cbn [length]. unfold len, Stocks.batchSize. rewrite length_app. cbn [length].
      rewrite Z.geb_leb.
      destruct (Z.leb_spec 100 (Z.of_nat (length (Stocks.batch l) + 1))) as [Hfull|Hfree].
      * pose proof (saveBatch_written Stocks.LogBatchError (Stocks.l_storage l)
                      (Stocks.batch l ++ [stock]) w) as Hs.
        destruct (Stocks.saveBatch _ _ _ _) as [st w']. cbn [snd] in Hs.
        specialize (IH (Stocks.mkLoop st w' [] (int_add (Stocks.totalRecords l) 1)
                          (if isNew then int_add (Stocks.newRecords l) 1
                           else Stocks.newRecords l))).
        cbn [Stocks.batch Stocks.l_world length] in IH.
        destruct IH as [IHw IHb]; [lia|].
        rewrite IHw, IHb, Hs, Hw, map_app, <- app_assoc.
        cbn [map app]. rewrite length_app. cbn [length].
        replace (length (Stocks.batch l) + S (length (records stocksChan)))%nat
          with (1 * 100 + length (records stocksChan))%nat by lia.
        rewrite Nat.div_add_l by lia.
        replace (1 * 100 + length (records stocksChan))%nat
          with (length (records stocksChan) + 1 * 100)%nat by lia.
        rewrite Nat.Div0.mod_add.
        replace (length (Stocks.batch l) + 1)%nat with 100%nat by lia.
        cbn [Nat.add repeat]. split; reflexivity.
      * specialize (IH (Stocks.mkLoop (Stocks.l_storage l) w (Stocks.batch l ++ [stock])
                          (int_add (Stocks.totalRecords l) 1)
                          (if isNew then int_add (Stocks.newRecords l) 1
                           else Stocks.newRecords l))).
        cbn [Stocks.batch Stocks.l_world] in IH. rewrite length_app in IH.
        cbn [length] in IH.
        destruct IH as [IHw IHb]; [lia|].
        rewrite IHw, IHb, Hw.
        replace (length (Stocks.batch l) + 1 + length (records stocksChan))%nat
          with (length (Stocks.batch l) + S (length (records stocksChan)))%nat by lia.
        split; reflexivity.
Qed.

(** X5. A run hands its records to [SaveBatch] in batches of exactly 100,
    followed by one last batch with the remainder when the number of records
    is not a multiple of 100; [SaveBatch] is never called with an empty
    batch. *)
Theorem SyncStocks_batch_sizes (st : R) (t0 : Time) (w : Stocks.World)
    (stocksChan : list StockOrError) :
  let w' := snd (Stocks.SyncStocks clock (Ok stocksChan)
                   (Stocks.mkService st false t0) w) in
  let n := length (records stocksChan) in
  map (@length Stock) (Stocks.written w')
  = (map (@length Stock) (Stocks.written w)
     ++ repeat 100%nat (n / 100)
     ++ (if (n mod 100 =? 0)%nat then [] else [(n mod 100)%nat]))%list.
Proof.
  intros w' n. subst w'. unfold Stocks.SyncStocks.
  cbn [Stocks.syncInProg Stocks.setSyncInProg Stocks.storage Stocks.lastSync
       Stocks.timeNow snd Stocks.written].
  unfold Stocks.runLoop. fold (after clock stocksChan (Stocks.mkLoop st w [] 0 0)).
  destruct (@after_batches stocksChan (Stocks.mkLoop st w [] 0 0)) as [Hw Hb];
    [cbn; lia|].
  cbn [Stocks.batch Stocks.l_world length Nat.add] in Hw, Hb. fold n in Hw, Hb.
  set (l' := after clock stocksChan _) in *.
  unfold len. rewrite Hb, Z.gtb_ltb.
  destruct (Z.ltb_spec 0 (Z.of_nat (n mod 100))) as [Hrest|Hnone].
  - pose proof (saveBatch_written Stocks.LogFinalBatchError (Stocks.l_storage l')
                  (Stocks.batch l') (Stocks.l_world l')) as Hs.
    destruct (Stocks.saveBatch _ _ _ _) as [st' w']. cbn [snd] in Hs.
    cbn [Stocks.l_world Stocks.written]. rewrite Hs, map_app, Hw, <- app_assoc.
    cbn [map]. rewrite Hb.
    destruct (Nat.eqb_spec (n mod 100) 0); [lia | reflexivity].
  - rewrite Hw. destruct (Nat.eqb_spec (n mod 100) 0); [|lia].
    now rewrite app_nil_r.
Qed.

Lemma after_appended_fields (pre : list StockOrError) (l : @Stocks.Loop R) :
  map writtenFields (appended (after clock pre l))
  = (map writtenFields (appended l) ++ map expectedFields (records pre))%list.
Proof.
  revert l. induction pre as [|x pre IH]; intros l.
  - cbn. now rewrite app_nil_r.
  - change (after clock (x :: pre) l)
      with (after clock pre (Stocks.processRecord clock l x)).
    rewrite IH, processRecord_appended, map_app, <- app_assoc. f_equal.
    cbn [records filter]. fold (records pre). unfold isRecord.
    destruct (SError x) as [e|]; [reflexivity|]. cbn [map app]. f_equal.
    pose proof (stamp_frame clock (Stocks.l_storage l) (Stocks.l_world l) (SStock x))
      as (_ & _ & Hscore & Hfields).
    unfold writtenFields, expectedFields. now rewrite Hscore, Hfields.
Qed.

(** X6. The records a run hands to [SaveBatch] are exactly the records the
    channel delivered: each one once, in the order of arrival, none added,
    with the fields as fetched and with the score recomputed by
    [calculateRecommendScore], whatever score the feed carried.  The
    elements of the channel that carry an error contribute nothing. *)
Theorem SyncStocks_writes_each_record_once (st : R) (t0 : Time) (w : Stocks.World)
    (stocksChan : list StockOrError) :
  let w' := snd (Stocks.SyncStocks clock (Ok stocksChan)
                   (Stocks.mkService st false t0) w) in
  map writtenFields (concat (Stocks.written w'))
  = (map writtenFields (concat (Stocks.written w))
     ++ map expectedFields (records stocksChan))%list.
Proof.
  intros w'. subst w'. rewrite SyncStocks_written, after_appended_fields.
  unfold appended. cbn [Stocks.l_world Stocks.batch]. now rewrite app_nil_r.
Qed.

Lemma after_logged (stocksChan : list StockOrError) (l : @Stocks.Loop R) :
  filter isFetchErrorLine (Stocks.logged (Stocks.l_world (after clock stocksChan l)))
  = (filter isFetchErrorLine (Stocks.logged (Stocks.l_world l))
     ++ map Stocks.LogFetchError (fetchErrors stocksChan))%list.
Proof.
  revert l. induction stocksChan as [|x stocksChan IH]; intros l.
  - cbn. now rewrite app_nil_r.
  - change (after clock (x :: stocksChan) l)
      with (after clock stocksChan (Stocks.processRecord clock l x)).
    rewrite IH. cbn [fetchErrors flat_map]. fold (fetchErrors stocksChan).
    rewrite map_app, app_assoc. f_equal.
    unfold Stocks.processRecord.
    destruct (SError x) as [e|].
    + cbn. rewrite filter_app. reflexivity.
    + pose proof (stamp_world clock (Stocks.l_storage l) (Stocks.l_world l)
                    (SStock x)) as Hw.
      destruct (Stocks.stamp _ _ _ _) as [[stock isNew] w]. destruct Hw as [Hw _].
      cbn [map]. rewrite app_nil_r.
      destruct (len _ >=? Stocks.batchSize)%Z.
      * pose proof (@saveBatch_logged Stocks.LogBatchError (Stocks.l_storage l)
                      (Stocks.batch l ++ [stock]) w (fun _ => eq_refl)) as Hs.
        destruct (Stocks.saveBatch _ _ _ _) as [st w']. cbn [snd] in Hs.
        cbn [Stocks.l_world]. now rewrite Hs, Hw.
      * cbn [Stocks.l_world]. now rewrite Hw.
Qed.

(** X7. A run logs one "Error fetching stock" line for every error the
    channel delivers, in the order of their arrival, and no other such line:
    an error element is reported and the run goes on with the next
    element. *)
Theorem SyncStocks_logs_each_fetch_error (st : R) (t0 : Time) (w : Stocks.World)
    (stocksChan : list StockOrError) :
  let w' := snd (Stocks.SyncStocks clock (Ok stocksChan)
                   (Stocks.mkService st false t0) w) in
  filter isFetchErrorLine (Stocks.logged w')
  = (filter isFetchErrorLine (Stocks.logged w)
     ++ map Stocks.LogFetchError (fetchErrors stocksChan))%list.
Proof.
  intros w'. subst w'. unfold Stocks.SyncStocks.
  cbn [Stocks.syncInProg Stocks.setSyncInProg Stocks.storage Stocks.lastSync
       Stocks.timeNow snd Stocks.logged].
  unfold Stocks.runLoop. fold (after clock stocksChan (Stocks.mkLoop st w [] 0 0)).
  pose proof (after_logged stocksChan (Stocks.mkLoop st w [] 0 0)) as Hl.
  cbn [Stocks.l_world] in Hl.
  set (l' := after clock stocksChan _) in *.
  destruct (len (Stocks.batch l') >? 0)%Z; [|exact Hl].
  pose proof (@saveBatch_logged Stocks.LogFinalBatchError (Stocks.l_storage l')
                (Stocks.batch l') (Stocks.l_world l') (fun _ => eq_refl)) as Hs.
  destruct (Stocks.saveBatch _ _ _ _) as [st' w']. cbn [snd] in Hs.
  cbn [Stocks.l_world]. now rewrite Hs.
Qed.

Lemma after_short_feed (stocksChan : list StockOrError) (l : @Stocks.Loop R) :
  (length (Stocks.batch l) + length (records stocksChan) < 100)%nat ->
  (0 <= Stocks.newRecords l
   /\ Stocks.newRecords l + Z.of_nat (length (records stocksChan)) <= 100)%Z ->
  let l' := after clock stocksChan l in
  Stocks.l_storage l' = Stocks.l_storage l
  /\ Stocks.newRecords l'
     = (Stocks.newRecords l
        + len (filter (notFound (Stocks.l_storage l)) (records stocksChan)))%Z.
Proof.
  revert l. induction stocksChan as [|x stocksChan IH]; intros l Hlen Hnew.
  - cbn. split; [reflexivity | lia].
  - change (after clock (x :: stocksChan) l)
      with (after clock stocksChan (Stocks.processRecord clock l x)).
    cbn [records filter] in *. fold (records stocksChan) in *.
    unfold Stocks.processRecord, isRecord in *.
    destruct (SError x) as [e|] eqn:Ex.
    + exact (IH (Stocks.mkLoop (Stocks.l_storage l)
                   (Stocks.logPrintf (Stocks.LogFetchError e) (Stocks.l_world l))
                   (Stocks.batch l) (Stocks.totalRecords l) (Stocks.newRecords l))
               Hlen Hnew).
    + cbn [length] in Hlen.
      assert (Hstamp : snd (fst (Stocks.stamp clock (Stocks.l_storage l)
                                   (Stocks.l_world l) (SStock x)))
                       = notFound (Stocks.l_storage l) x).
      { unfold Stocks.stamp, notFound, Stocks.timeNow. cbn.
        destruct (GetByID _ _) as [existing|err]; [reflexivity|].
        destruct (error_eqb err ErrStockNotFound); reflexivity. }
      destruct (Stocks.stamp _ _ _ _) as [[stock isNew] w]. cbn [fst snd] in Hstamp.
      assert (Hfree : (len (Stocks.batch l ++ [stock]) >=? Stocks.batchSize)%Z = false).
      { unfold len, Stocks.batchSize. rewrite length_app. cbn [length].
        rewrite Z.geb_leb. apply Z.leb_gt. lia. }
      cbv zeta. rewrite Hfree.
      cbn [filter]. rewrite <- Hstamp.
      specialize (IH (Stocks.mkLoop (Stocks.l_storage l) w (Stocks.batch l ++ [stock])
                        (int_add (Stocks.totalRecords l) 1)
                        (if isNew then int_add (Stocks.newRecords l) 1
                         else Stocks.newRecords l))).
      cbn [Stocks.batch Stocks.l_storage Stocks.newRecords] in IH.
      rewrite length_app in IH. cbn [length] in IH.
      assert (Hcount : (len (filter (notFound (Stocks.l_storage l))
                               (records stocksChan)) <= 100)%Z).
      { unfold len. pose proof (filter_length_le (notFound (Stocks.l_storage l))
                                  (records stocksChan)). lia. }
      cbn [length] in Hnew.
      destruct isNew.
      * unfold int_add in *. rewrite wrap64_small in IH by lia.
        rewrite (@wrap64_small (Stocks.newRecords l + 1)) by lia.
        destruct IH as [IHs IHn]; [lia | lia |].
        split; [exact IHs|]. etransitivity; [exact IHn|].
        cbv iota. unfold len. cbn [length]. lia.
      * destruct IH as [IHs IHn]; [lia | lia |].
        split; [exact IHs|]. exact IHn.
Qed.

(** X8. In a run over fewer than 100 records no batch is written before
    the channel is closed, so every lookup is made against the store as the
    run found it: [NewRecords] is the number of records whose identity that
    store does not know, a record that the channel delivers twice being
    counted twice. *)
Theorem SyncStocks_new_records_of_short_feed (st : R) (t0 : Time) (w : Stocks.World)
    (stocksChan : list StockOrError) :
  (length (records stocksChan) < 100)%nat ->
  exists status,
    fst (fst (Stocks.SyncStocks clock (Ok stocksChan)
                (Stocks.mkService st false t0) w)) = (Some status, None)
    /\ NewRecords status = len (filter (notFound st) (records stocksChan)).
Proof.
  intros Hlen. unfold Stocks.SyncStocks.
  cbn [Stocks.syncInProg Stocks.setSyncInProg Stocks.storage Stocks.lastSync].
  destruct (runLoop_counters clock stocksChan (Stocks.mkLoop st w [] 0 0)) as [_ Hn].
  destruct (@after_short_feed stocksChan (Stocks.mkLoop st w [] 0 0)) as [_ Hn'];
    [cbn; lia | cbn; lia |].
  cbn [Stocks.newRecords Stocks.l_storage] in Hn'.
  eexists. split; [reflexivity|]. cbn [NewRecords]. rewrite Hn, Hn'. lia.
Qed.

End SyncBatches.

Lemma SyncStocks_new_records_of_short_feed_witness :
  (length (records repeatedChannel) < 100)%nat
  /\ exists status,
      fst (fst (Stocks.SyncStocks exampleClock (Ok repeatedChannel)
                  (Stocks.mkService Mocks.NewMockStocksRepository false zeroTime)
                  emptyWorld)) = (Some status, None)
      /\ NewRecords status = 6%Z.
Proof.
  assert (Hlen : (length (records repeatedChannel) < 100)%nat)
    by (vm_compute; lia).
  split; [exact Hlen|].
  destruct (SyncStocks_new_records_of_short_feed exampleClock
              Mocks.NewMockStocksRepository zeroTime emptyWorld
              repeatedChannel Hlen) as (status & Hrun & Hnew).
  exists status. split; [exact Hrun|]. rewrite Hnew. reflexivity.
Defined.

(** ** A run against the store *)

Section SyncStore.
Context {R : Type} `{StocksRepository R}.
Variable clock : nat -> Time.

Lemma saveBatch_storage (line : error -> Stocks.LogLine) (st : R)
    (b : list Stock) (w : Stocks.World) :
  fst (Stocks.saveBatch line st b w) = fst (SaveBatch st b).
Proof.
  unfold Stocks.saveBatch. destruct (SaveBatch st b) as [st' [e|]]; reflexivity.
Qed.

Lemma after_storage (stocksChan : list StockOrError) (l : @Stocks.Loop R) :
  exists batches,
    Stocks.written (Stocks.l_world (after clock stocksChan l))
    = (Stocks.written (Stocks.l_world l) ++ batches)%list
    /\ Stocks.l_storage (after clock stocksChan l)
       = fold_left (fun st b => fst (SaveBatch st b)) batches (Stocks.l_storage l).
Proof.
  revert l. induction stocksChan as [|x stocksChan IH]; intros l.
  - exists []. unfold after. cbn [fold_left]. now rewrite app_nil_r.
  - change (after clock (x :: stocksChan) l)
      with (after clock stocksChan (Stocks.processRecord clock l x)).
    destruct (IH (Stocks.processRecord clock l x)) as (batches & Hw & Hs).
    rewrite Hw, Hs. clear Hw Hs IH.
    unfold Stocks.processRecord.
    destruct (SError x) as [e|].
    + exists batches. split; reflexivity.
    + pose proof (stamp_world clock (Stocks.l_storage l) (Stocks.l_world l)
                    (SStock x)) as Hw.
      destruct (Stocks.stamp _ _ _ _) as [[stock isNew] w]. destruct Hw as [_ Hw].
      destruct (len _ >=? Stocks.batchSize)%Z.
      * pose proof (saveBatch_written Stocks.LogBatchError (Stocks.l_storage l)
                      (Stocks.batch l ++ [stock]) w) as Hsw.
        pose proof (saveBatch_storage Stocks.LogBatchError (Stocks.l_storage l)
                      (Stocks.batch l ++ [stock]) w) as Hss.
        destruct (Stocks.saveBatch _ _ _ _) as [st w']. cbn [fst snd] in Hsw, Hss.
        exists ((Stocks.batch l ++ [stock])%list :: batches).
        cbn [Stocks.l_world Stocks.l_storage fold_left].
        rewrite Hsw, Hss, Hw, <- app_assoc. split; reflexivity.
      * exists batches. cbn [Stocks.l_world Stocks.l_storage]. rewrite Hw.
        split; reflexivity.
Qed.

Lemma SyncStocks_storage (stocksChan : list StockOrError) (st : R) (t0 : Time)
    (w : Stocks.World) :
  let run := Stocks.SyncStocks clock (Ok stocksChan) (Stocks.mkService st false t0) w in
  exists batches,
    Stocks.written (snd run) = (Stocks.written w ++ batches)%list
    /\ Stocks.storage (snd (fst run))
       = fold_left (fun st b => fst (SaveBatch st b)) batches st
    /\ Stocks.syncInProg (snd (fst run)) = false.
Proof.
  cbv zeta. unfold Stocks.SyncStocks.
  cbn [Stocks.syncInProg Stocks.setSyncInProg Stocks.storage Stocks.lastSync
       Stocks.timeNow fst snd Stocks.written].
  unfold Stocks.runLoop. fold (after clock stocksChan (Stocks.mkLoop st w [] 0 0)).
  destruct (after_storage stocksChan (Stocks.mkLoop st w [] 0 0))
    as (batches & Hw & Hs).
  cbn [Stocks.l_world Stocks.l_storage] in Hw, Hs.
  set (l' := after clock stocksChan _) in *.
  destruct (len (Stocks.batch l') >? 0)%Z.
  - pose proof (saveBatch_written Stocks.LogFinalBatchError (Stocks.l_storage l')
                  (Stocks.batch l') (Stocks.l_world l')) as Hsw.
    pose proof (saveBatch_storage Stocks.LogFinalBatchError (Stocks.l_storage l')
                  (Stocks.batch l') (Stocks.l_world l')) as Hss.
    destruct (Stocks.saveBatch _ _ _ _) as [st' w']. cbn [fst snd] in Hsw, Hss.
    exists (batches ++ [Stocks.batch l'])%list.
    cbn [Stocks.l_world Stocks.l_storage].
    rewrite Hsw, Hss, Hw, Hs, fold_left_app, <- app_assoc.
    repeat split; reflexivity.
  - exists batches. repeat split; assumption.
Qed.

End SyncStore.

Section StoreRuns.
Variable sqlLower : string -> string.
Variable sqlLike : string -> string -> bool.
Variable clock : nat -> Time.

Local Abbreviation repository := (Storage.StorageRepository sqlLower sqlLike).
Local Abbreviation ids := (fun table : list Stock => map ID table).

Lemma upsert_ids_known (table : list Stock) (stock : Stock) :
  In (ID stock) (ids table) -> ids (Storage.upsert table stock) = ids table.
Proof.
  induction table as [|row table IH]; cbn [map In Storage.upsert]; [easy|].
  intros Hin. destruct (String.eqb_spec (ID row) (ID stock)) as [E|E].
  - cbn [map]. now rewrite E.
  - cbn [map]. f_equal. apply IH. destruct Hin; [contradiction | assumption].
Qed.

Lemma upsert_ids_grow (table : list Stock) (stock : Stock) (id : string) :
  In id (ids table) \/ id = ID stock -> In id (ids (Storage.upsert table stock)).
Proof.
  induction table as [|row table IH]; cbn [map In Storage.upsert].
  - intros [[]| ->]. now left.
  - destruct (String.eqb_spec (ID row) (ID stock)) as [E|E]; cbn [map In].
    + intros [[<- | Hin] | ->]; auto.
    + intros [[<- | Hin] | ->]; auto.
Qed.

Lemma fold_upsert_ids_known (stocks table : list Stock) :
  Forall (fun stock => In (ID stock) (ids table)) stocks ->
  ids (fold_left Storage.upsert stocks table) = ids table.
Proof.
  revert table. induction stocks as [|stock stocks IH]; intros table Hall;
    [reflexivity|].
  inversion Hall as [|? ? Hstock Hrest]; subst. cbn [fold_left].
  rewrite IH; [now apply upsert_ids_known|].
  rewrite upsert_ids_known by assumption. exact Hrest.
Qed.

Lemma fold_upsert_ids_grow (stocks table : list Stock) (id : string) :
  In id (ids table) \/ In id (ids stocks) ->
  In id (ids (fold_left Storage.upsert stocks table)).
Proof.
  revert table. induction stocks as [|stock stocks IH]; intros table; cbn [fold_left map In].
  - intros [Hin | []]. exact Hin.
  - intros Hin. apply IH.
    destruct Hin as [Hin | [<- | Hin]]; [left | left | right; exact Hin];
      apply upsert_ids_grow; auto.
Qed.

Lemma fold_SaveBatch_rows (batches : list (list Stock)) (table : list Stock) :
  fold_left (fun st b => fst (Storage.storageSaveBatch st b)) batches
    (Storage.mkStorage table false)
  = Storage.mkStorage (fold_left Storage.upsert (concat batches) table) false.
Proof.
  revert table. induction batches as [|b batches IH]; intros table; [reflexivity|].
  cbn [fold_left concat]. rewrite fold_left_app.
  unfold Storage.storageSaveBatch at 2. cbn [Storage.down Storage.rows].
  destruct b as [|stock b]; [exact (IH table)|].
  replace (len (stock :: b) =? 0)%Z with false
    by (symmetry; apply Z.eqb_neq; unfold len; cbn [length]; lia).
  cbn [fst]. apply IH.
Qed.

Lemma storageGetByID_known (st : Storage.Storage) (id : string) :
  Storage.down st = false -> In id (ids (Storage.rows st)) ->
  exists row, Storage.storageGetByID st id = Ok row.
Proof.
  intros Hup Hin. unfold Storage.storageGetByID. rewrite Hup.
  destruct (find _ (Storage.rows st)) as [row|] eqn:E; [eauto|].
  exfalso. apply in_map_iff in Hin. destruct Hin as (row & <- & Hrow).
  apply (find_none _ _ E) in Hrow. now rewrite String.eqb_refl in Hrow.
Qed.

(** While every record delivered is known to the store, the loop counts no
    record as new and the identities of the table stay as they are. *)
Lemma after_known (stocksChan : list StockOrError)
    (l : @Stocks.Loop Storage.Storage) (known : list string) :
  Storage.down (Stocks.l_storage l) = false ->
  ids (Storage.rows (Stocks.l_storage l)) = known ->
  Forall (fun stock => In (ID stock) known) (Stocks.batch l) ->
  Forall (fun x => In (ID (SStock x)) known) (records stocksChan) ->
  let l' := @after _ repository clock stocksChan l in
  Storage.down (Stocks.l_storage l') = false
  /\ ids (Storage.rows (Stocks.l_storage l')) = known
  /\ Forall (fun stock => In (ID stock) known) (Stocks.batch l')
  /\ Stocks.newRecords l' = Stocks.newRecords l.
Proof.
  revert l. induction stocksChan as [|x stocksChan IH];
    intros l Hup Hids Hbatch Hrecords; cbv zeta.
  - unfold after. cbn [fold_left]. auto.
  - change (@after _ repository clock (x :: stocksChan) l)
      with (@after _ repository clock stocksChan
              (@Stocks.processRecord _ repository clock l x)).
    cbn [records filter] in Hrecords. fold (records stocksChan) in Hrecords.
    unfold isRecord in Hrecords. unfold Stocks.processRecord.
    destruct (SError x) as [e|].
    + exact (IH (Stocks.mkLoop (Stocks.l_storage l)
                   (Stocks.logPrintf (Stocks.LogFetchError e) (Stocks.l_world l))
                   (Stocks.batch l) (Stocks.totalRecords l) (Stocks.newRecords l))
               Hup Hids Hbatch Hrecords).
    + apply Forall_cons_iff in Hrecords. destruct Hrecords as [Hx Hrest].
      destruct (@storageGetByID_known (Stocks.l_storage l) (ID (SStock x)) Hup)
        as [existing Hget]; [now rewrite Hids|].
      pose proof (@stamp_frame _ repository clock (Stocks.l_storage l)
                    (Stocks.l_world l) (SStock x)) as (_ & _ & _ & Hfields).
      assert (Hnew : snd (fst (@Stocks.stamp _ repository clock (Stocks.l_storage l)
                                 (Stocks.l_world l) (SStock x))) = false).
      { unfold Stocks.stamp, Stocks.timeNow.
        cbn [ID Stocks.setRecommendScore Stocks.setUpdatedAt GetByID
             Storage.StorageRepository].
        rewrite Hget. reflexivity. }
      destruct (@Stocks.stamp _ repository clock _ _ _) as [[stock isNew] w].
      cbn [fst snd] in Hfields, Hnew. subst isNew.
      assert (Hstock : In (ID stock) known).
      { unfold fetchedFields in Hfields. injection Hfields as -> _ _ _ _ _ _ _ _.
        exact Hx. }
      assert (Hbatch' : Forall (fun s => In (ID s) known) (Stocks.batch l ++ [stock])).
      { apply Forall_app. split; [exact Hbatch | now constructor]. }
      destruct (len (Stocks.batch l ++ [stock]) >=? Stocks.batchSize)%Z.
      * pose proof (@saveBatch_storage _ repository Stocks.LogBatchError
                      (Stocks.l_storage l) (Stocks.batch l ++ [stock]) w) as Hss.
        destruct (@Stocks.saveBatch _ repository _ _ _ _) as [st w'].
        cbn [fst] in Hss. subst st.
        cbn [SaveBatch Storage.StorageRepository].
        unfold Storage.storageSaveBatch. rewrite Hup.
        destruct (len (Stocks.batch l ++ [stock]) =? 0)%Z.
        -- refine (IH (Stocks.mkLoop _ _ _ _ _) Hup Hids _ Hrest).
           constructor.
        -- cbn [fst].
           refine (IH (Stocks.mkLoop
                         (Storage.mkStorage
                            (fold_left Storage.upsert (Stocks.batch l ++ [stock])
                               (Storage.rows (Stocks.l_storage l)))
                            false)
                         w' [] (int_add (Stocks.totalRecords l) 1)
                         (Stocks.newRecords l)) eq_refl _ (Forall_nil _) Hrest).
           cbn [Stocks.l_storage Storage.rows].
           rewrite fold_upsert_ids_known; [exact Hids | now rewrite Hids].
      * refine (IH (Stocks.mkLoop _ _ _ _ _) Hup Hids Hbatch' Hrest).
Qed.

(** X9. Run twice over the same feed against the store, the second run
    counts no record as new: every record is an update, and the identities
    of the table are those the first run left.  (The feed is taken without a
    repeated identity, so that no batch asks the store to write the same
    row twice.) *)
Theorem SyncStocks_second_run_adds_nothing (table : list Stock) (t0 : Time)
    (w : Stocks.World) (stocksChan : list StockOrError) :
  NoDup (map (fun x => ID (SStock x)) (records stocksChan)) ->
  (len stocksChan < 2 ^ 63)%Z ->
  let first := @Stocks.SyncStocks _ repository clock (Ok stocksChan)
                 (Stocks.mkService (Storage.mkStorage table false) false t0) w in
  let second := @Stocks.SyncStocks _ repository clock (Ok stocksChan)
                  (snd (fst first)) (snd first) in
  let stored run := ids (Storage.rows (Stocks.storage (snd (fst run)))) in
  (forall x, In x (records stocksChan) -> In (ID (SStock x)) (stored first))
  /\ stored second = stored first
  /\ exists status,
       fst (fst second) = (Some status, None)
       /\ NewRecords status = 0%Z
       /\ UpdatedRecords status = len (records stocksChan)
       /\ TotalRecords status = len (records stocksChan).
Proof.
  intros _ Hlen first second stored.
  (* the first run *)
  destruct (@SyncStocks_storage _ repository clock stocksChan
              (Storage.mkStorage table false) t0 w) as (batches & Hw & Hs & Hflag).
  fold first in Hw, Hs, Hflag.
  pose proof (@after_appended_fields _ repository clock stocksChan
                (Stocks.mkLoop (Storage.mkStorage table false) w [] 0 0)) as Hfields.
  rewrite <- (@SyncStocks_written _ repository clock stocksChan
                (Storage.mkStorage table false) t0 w) in Hfields.
  fold first in Hfields. unfold appended in Hfields.
  cbn [Stocks.l_world Stocks.batch] in Hfields.
  rewrite Hw, app_nil_r, concat_app, map_app in Hfields.
  apply app_inv_head in Hfields.
  cbn [SaveBatch Storage.StorageRepository] in Hs. rewrite fold_SaveBatch_rows in Hs.
  assert (Hknown : forall x, In x (records stocksChan) ->
                     In (ID (SStock x)) (stored first)).
  { intros x Hx. unfold stored. rewrite Hs. cbn [Storage.rows].
    apply fold_upsert_ids_grow. right.
    apply (f_equal (map (fun f => fst (fst (fst (fst (fst (fst (fst (fst (fst f)))))))))))
      in Hfields.
    rewrite !map_map in Hfields. cbn [writtenFields expectedFields fetchedFields fst]
      in Hfields.
    assert (E : map ID (concat batches)
                = map (fun x => ID (SStock x)) (records stocksChan)) by exact Hfields.
    change (In (ID (SStock x)) (map ID (concat batches))). rewrite E.
    apply (in_map (fun x => ID (SStock x))), Hx. }
  split; [exact Hknown|].
  (* the second run *)
  subst stored second. cbv beta in *. clearbody first. clear Hw Hfields.
  destruct first as [[ret1 s1] w1]. cbn [fst snd] in *.
  destruct s1 as [st1 flag1 last1]. cbn [Stocks.storage Stocks.syncInProg] in *.
  subst flag1 st1.
  set (T := fold_left Storage.upsert (concat batches) table) in *.
  unfold Stocks.SyncStocks.
  cbn [Stocks.syncInProg Stocks.setSyncInProg Stocks.storage Stocks.lastSync].
  set (l0 := Stocks.mkLoop (Storage.mkStorage T false) w1 [] 0 0).
  destruct (@runLoop_counters _ repository clock stocksChan l0) as [Ht Hn].
  destruct (@counters_after _ repository clock stocksChan l0 0%nat)
    as [Ht' _]; [reflexivity | cbn; lia | unfold len in Hlen; cbn; lia |].
  destruct (@after_known stocksChan l0 (ids T))
    as (Hup & Hids & Hbatch & Hnew);
    [reflexivity | reflexivity | constructor
     | apply Forall_forall; exact Hknown |].
  cbn [Stocks.newRecords l0] in Hnew. cbn [Nat.add] in Ht'.
  assert (Hflush : ids (Storage.rows (Stocks.l_storage
                          (@Stocks.runLoop _ repository clock stocksChan l0)))
                   = ids T).
  { unfold Stocks.runLoop. fold (@after _ repository clock stocksChan l0).
    set (l' := @after _ repository clock stocksChan l0) in *.
    destruct (len (Stocks.batch l') >? 0)%Z; [|exact Hids].
    pose proof (@saveBatch_storage _ repository Stocks.LogFinalBatchError
                  (Stocks.l_storage l') (Stocks.batch l') (Stocks.l_world l')) as Hss.
    destruct (@Stocks.saveBatch _ repository _ _ _ _) as [st' w'].
    cbn [fst] in Hss. subst st'. cbn [Stocks.l_storage].
    cbn [SaveBatch Storage.StorageRepository].
    unfold Storage.storageSaveBatch. rewrite Hup.
    destruct (len (Stocks.batch l') =? 0)%Z; [exact Hids|].
    cbn [fst Storage.rows].
    rewrite fold_upsert_ids_known; [exact Hids | now rewrite Hids]. }
  set (l2 := @Stocks.runLoop _ repository clock stocksChan l0) in *.
  cbn [fst snd Stocks.timeNow Stocks.storage].
  split; [exact Hflush|].
  eexists. split; [reflexivity|].
  cbn [NewRecords UpdatedRecords TotalRecords].
  rewrite Hn, Hnew, Ht, Ht'. unfold int_sub.
  assert (Hrec : (Z.of_nat (length (records stocksChan)) <= len stocksChan)%Z).
  { unfold len, records. apply inj_le, filter_length_le. }
  rewrite wrap64_small by (unfold len in *; lia).
  unfold len. repeat split; lia.
Qed.

End StoreRuns.

Lemma SyncStocks_second_run_adds_nothing_witness :
  NoDup (map (fun x => ID (SStock x)) (records mockChannel))
  /\ (len mockChannel < 2 ^ 63)%Z
  /\ exists status,
       fst (fst (@Stocks.SyncStocks _ (Storage.StorageRepository ToLower String.eqb)
                   exampleClock (Ok mockChannel)
                   (snd (fst (@Stocks.SyncStocks _
                                (Storage.StorageRepository ToLower String.eqb)
                                exampleClock (Ok mockChannel)
                                (Stocks.mkService (Storage.mkStorage [] false)
                                   false zeroTime)
                                emptyWorld)))
                   (snd (@Stocks.SyncStocks _
                           (Storage.StorageRepository ToLower String.eqb)
                           exampleClock (Ok mockChannel)
                           (Stocks.mkService (Storage.mkStorage [] false)
                              false zeroTime)
                           emptyWorld))))
       = (Some status, None)
       /\ NewRecords status = 0%Z.
Proof.
  assert (Hnodup : NoDup (map (fun x => ID (SStock x)) (records mockChannel))).
  { vm_compute. repeat constructor; simpl; intuition discriminate. }
  assert (Hlen : (len mockChannel < 2 ^ 63)%Z) by (vm_compute; reflexivity).
  split; [exact Hnodup|]. split; [exact Hlen|].
  pose proof (@SyncStocks_second_run_adds_nothing ToLower String.eqb exampleClock
                [] zeroTime emptyWorld mockChannel Hnodup Hlen) as Hrun.
  cbv zeta in Hrun. destruct Hrun as (_ & _ & status & Hrun & Hnew & _).
  exists status. split; [exact Hrun | exact Hnew].
Defined.

(** ** Every invocation of [SyncStocks] can return *)

Lemma run_app (schedule1 schedule2 : list (nat * outcome)) (s : State) :
  run (schedule1 ++ schedule2) s
  = match run schedule1 s with
    | Some s' => run schedule2 s'
    | None => None
    end.
Proof.
  revert s. induction schedule1 as [|[i o] schedule1 IH]; intros s; [reflexivity|].
  cbn [app run]. destruct (step i o s) as [s'|]; [apply IH | reflexivity].
Qed.

(** An invocation that does not wait for another one takes a step, after
    which it still does not wait for another one and is nearer to its
    return. *)
Lemma own_step (s : State) (i : nat) (o : outcome) :
  guard_invariant s ->
  syncMutex s = None \/ syncMutex s = Some i ->
  (0 < stepsLeft (at_ s i))%nat ->
  exists s',
    step i o s = Some s'
    /\ (syncMutex s' = None \/ syncMutex s' = Some i)
    /\ (stepsLeft (at_ s' i) < stepsLeft (at_ s i))%nat.
Proof.
  intros Hinv Hmutex Hleft.
  assert (Hfree : holdsMutex (at_ s i) = false -> syncMutex s = None).
  { intros Hnot. destruct Hmutex as [Hm|Hm]; [exact Hm|].
    apply (inv_holder Hinv) in Hm. congruence. }
  unfold step.
  destruct (at_ s i) eqn:Ei; cbn [stepsLeft] in Hleft |- *; try (exfalso; lia).
  - rewrite (Hfree eq_refl). eexists. split; [reflexivity|].
    cbn [syncMutex at_]. rewrite move_same. cbn [stepsLeft]. split; [auto | lia].
  - destruct (syncInProg s); eexists; (split; [reflexivity|]);
      cbn [syncMutex at_]; rewrite move_same; cbn [stepsLeft]; (split; [auto | lia]).
  - eexists. split; [reflexivity|].
    cbn [syncMutex at_]. rewrite move_same. cbn [stepsLeft]. split; [auto | lia].
  - eexists. split; [reflexivity|].
    cbn [syncMutex at_]. rewrite move_same. cbn [stepsLeft]. split; [auto | lia].
  - eexists. split; [reflexivity|].
    cbn [syncMutex at_]. rewrite move_same. cbn [stepsLeft]. split; [auto | lia].
  - eexists. split; [reflexivity|].
    cbn [syncMutex at_]. rewrite move_same. cbn [stepsLeft]. split; [auto | lia].
  - rewrite (Hfree eq_refl). eexists. split; [reflexivity|].
    cbn [syncMutex at_]. rewrite move_same. cbn [stepsLeft]. split; [auto | lia].
  - eexists. split; [reflexivity|].
    cbn [syncMutex at_]. rewrite move_same. cbn [stepsLeft]. split; [auto | lia].
  - eexists. split; [reflexivity|].
    cbn [syncMutex at_]. rewrite move_same. cbn [stepsLeft]. split; [auto | lia].
Qed.

Lemma own_run_returns (n : nat) (s : State) (i : nat) (o : outcome) :
  guard_invariant s ->
  syncMutex s = None \/ syncMutex s = Some i ->
  (stepsLeft (at_ s i) <= n)%nat ->
  exists k s',
    (k <= n)%nat /\ run (repeat (i, o) k) s = Some s'
    /\ exists r, at_ s' i = Returned r.
Proof.
  revert s. induction n as [|n IH]; intros s Hinv Hmutex Hleft.
  - exists 0%nat, s. split; [lia|]. split; [reflexivity|].
    destruct (at_ s i); cbn [stepsLeft] in Hleft; try lia. eauto.
  - destruct (Nat.eq_dec (stepsLeft (at_ s i)) 0) as [Hz|Hnz].
    + exists 0%nat, s. split; [lia|]. split; [reflexivity|].
      destruct (at_ s i); cbn [stepsLeft] in Hz; try lia. eauto.
    + destruct (@own_step s i o Hinv Hmutex) as (s1 & Hstep & Hmutex1 & Hless); [lia|].
      destruct (IH s1) as (k & s' & Hk & Hrun & Hret);
        [eapply guard_invariant_step; eassumption | exact Hmutex1 | lia |].
      exists (S k), s'. split; [lia|]. cbn [repeat run]. rewrite Hstep. auto.
Qed.

(** X10. No invocation of [SyncStocks] is blocked for good: from every
    state that interleaved invocations can reach, and for every invocation,
    a schedule of at most eleven steps (at most three of the holder of the
    mutex and eight of the invocation itself) leads to a state in which the
    invocation has returned, however its body ends. *)
Theorem SyncStocks_every_call_returns (s : State) (i : nat) (o : outcome) :
  reachable s ->
  exists schedule s',
    (length schedule <= 11)%nat
    /\ run schedule s = Some s'
    /\ exists r, at_ s' i = Returned r.
Proof.
  intros Hreach. pose proof (guard_invariant_reachable Hreach) as Hinv.
  assert (Hleft : forall p, (stepsLeft p <= 8)%nat) by (intros []; cbn; lia).
  destruct (syncMutex s) as [k|] eqn:Em.
  - destruct (@guard_mutex_released s k o Hinv Em) as (n & s1 & Hn & Hrun1 & Hfree).
    destruct (@own_run_returns 8 s1 i o) as (m & s' & Hm & Hrun2 & Hret);
      [eapply guard_invariant_run; eassumption | auto | apply Hleft |].
    exists (repeat (k, o) n ++ repeat (i, o) m)%list, s'.
    split; [rewrite length_app, !repeat_length; lia|].
    split; [|exact Hret]. now rewrite run_app, Hrun1.
  - destruct (@own_run_returns 8 s i o) as (m & s' & Hm & Hrun & Hret);
      [exact Hinv | auto | apply Hleft |].
    exists (repeat (i, o) m), s'.
    split; [rewrite repeat_length; lia|]. auto.
Qed.

Lemma SyncStocks_every_call_returns_witness :
  reachable guardExample
  /\ exists schedule s',
       (length schedule <= 11)%nat
       /\ run schedule guardExample = Some s'
       /\ exists r, at_ s' 1%nat = Returned r.
Proof.
  assert (Hreach : reachable guardExample) by (exists guardSchedule; reflexivity).
  split; [exact Hreach|].
  exact (@SyncStocks_every_call_returns guardExample 1%nat Completed Hreach).
Defined.

(** ** The feed adapter *)

Lemma hexDigit_lower (n : Z) : (0 <= n < 16)%Z -> isLowerHex (hexDigit n) = true.
Proof.
  intros Hn. rewrite <- (Z2Nat.id n) by lia.
  assert (Hk : (Z.to_nat n < 16)%nat) by lia.
  revert Hk. generalize (Z.to_nat n). intros k Hk.
  do 16 (destruct k as [|k]; [reflexivity|]). lia.
Qed.

Lemma EncodeToString_format (bytes : list Z) :
  Forall isByte bytes ->
  String.length (EncodeToString bytes) = (2 * length bytes)%nat
  /\ Forall (fun c => isLowerHex c = true)
       (list_ascii_of_string (EncodeToString bytes)).
Proof.
  induction 1 as [|b bytes Hb _ [IHlen IHhex]]; [split; [reflexivity | constructor]|].
  unfold isByte in Hb. cbn [EncodeToString String.length list_ascii_of_string length].
  split; [rewrite IHlen; lia|].
  constructor; [apply hexDigit_lower; split;
                  [apply Z.div_pos; lia | apply Z.div_lt_upper_bound; lia]|].
  constructor; [apply hexDigit_lower, Z.mod_pos_bound; lia | exact IHhex].
Qed.

(** X11. The identity [generateStockID] derives is always a text of 32
    characters, each one of the digits 0-9 and a-f, whatever the fields of
    the item and the targets are (empty texts, [NaN] and the infinities
    included). *)
Theorem generateStockID_format (item : Karenai.StockItem)
    (targetFrom targetTo : float64) :
  String.length (Karenai.generateStockID item targetFrom targetTo) = 32%nat
  /\ Forall (fun c => isLowerHex c = true)
       (list_ascii_of_string (Karenai.generateStockID item targetFrom targetTo)).
Proof.
  unfold Karenai.generateStockID. cbv zeta.
  destruct (EncodeToString_format (Sum_bytes (bytesOf
              (Karenai.ITicker item ++ "|" ++ Karenai.ICompany item ++ "|"
               ++ Karenai.IBrokerage item ++ "|" ++ Karenai.IAction item ++ "|"
               ++ Karenai.IRatingFrom item ++ "|" ++ Karenai.IRatingTo item ++ "|"
               ++ formatFloat2 targetFrom ++ "|" ++ formatFloat2 targetTo))))
    as [Hlen Hhex].
  rewrite Sum_length in Hlen. split; [exact Hlen | exact Hhex].
Qed.

Section FeedLoop.
Variable ParseFloat : string -> option float64.

Lemma fetchLoop_error_last (httpExchange : nat -> string -> option Karenai.APIResponse)
    (ctxDone : nat -> bool) (fuel pageCount : nat) (nextPage : string) :
  exists stocks last,
    Karenai.fetchLoop ParseFloat httpExchange ctxDone fuel pageCount nextPage
    = (map stockElement stocks ++ last)%list
    /\ (last = []
        \/ last = [errorElement ContextError]
        \/ last = [errorElement (ExternalAPIError "karenai")]).
Proof.
  revert pageCount nextPage.
  induction fuel as [|fuel IH]; intros pageCount nextPage; cbn [Karenai.fetchLoop].
  - exists [], []. auto.
  - destruct (ctxDone pageCount).
    + exists [], [errorElement ContextError]. auto.
    + unfold Karenai.fetchPage.
      destruct (httpExchange pageCount nextPage) as [response|].
      * destruct (Karenai.NextPage response =? "").
        -- exists (map (Karenai.convertToStock ParseFloat) (Karenai.Items response)), [].
           rewrite map_map. auto.
        -- destruct (IH (S pageCount) (Karenai.NextPage response))
             as (stocks & last & -> & Hlast).
           exists (map (Karenai.convertToStock ParseFloat) (Karenai.Items response)
                   ++ stocks)%list, last.
           rewrite map_app, map_map, app_assoc. auto.
      * exists [], [errorElement (ExternalAPIError "karenai")]. auto.
Qed.

(** What the loop has sent when it gets to a request, and what follows. *)
Lemma fetchLoop_reached (httpExchange : nat -> string -> option Karenai.APIResponse)
    (ctxDone : nat -> bool) (k : nat) (cursor : string)
    (items : list Karenai.StockItem) :
  reaches httpExchange ctxDone k cursor items ->
  forall fuel, (k + fuel = Karenai.maxPages)%nat ->
  Karenai.fetchLoop ParseFloat httpExchange ctxDone Karenai.maxPages 0 ""
  = (map stockElement (map (Karenai.convertToStock ParseFloat) items)
     ++ Karenai.fetchLoop ParseFloat httpExchange ctxDone fuel k cursor)%list.
Proof.
  induction 1 as [|k cursor items response Hreach IH Hdone Hpage Hnext];
    intros fuel Hfuel.
  - cbn [Nat.add] in Hfuel. subst fuel. reflexivity.
  - rewrite (IH (S fuel)) by lia. cbn [Karenai.fetchLoop].
    rewrite Hdone. unfold Karenai.fetchPage. rewrite Hpage.
    apply String.eqb_neq in Hnext. rewrite Hnext.
    rewrite !map_app, !map_map, <- app_assoc. reflexivity.
Qed.

(** Every run gets to a request at which it ends. *)
Lemma fetchLoop_ends (httpExchange : nat -> string -> option Karenai.APIResponse)
    (ctxDone : nat -> bool) (fuel k : nat) (cursor : string)
    (items : list Karenai.StockItem) :
  reaches httpExchange ctxDone k cursor items ->
  (k + fuel = 100)%nat ->
  exists k' cursor' items',
    reaches httpExchange ctxDone k' cursor' items' /\ (k' <= 100)%nat
    /\ (k' = 100%nat
        \/ ctxDone k' = true
        \/ (ctxDone k' = false
            /\ (httpExchange k' cursor' = None
                \/ exists response,
                     httpExchange k' cursor' = Some response
                     /\ Karenai.NextPage response = ""))).
Proof.
  revert k cursor items. induction fuel as [|fuel IH]; intros k cursor items Hreach Hk.
  - exists k, cursor, items. split; [exact Hreach|]. split; [lia|]. left. lia.
  - destruct (ctxDone k) eqn:Hdone.
    + exists k, cursor, items. split; [exact Hreach|]. split; [lia|]. right. now left.
    + destruct (httpExchange k cursor) as [response|] eqn:Hpage.
      * destruct (String.eqb_spec (Karenai.NextPage response) "") as [Hlast|Hnext].
        -- exists k, cursor, items. split; [exact Hreach|]. split; [lia|].
           right. right. split; [exact Hdone|]. right. now exists response.
        -- apply (IH (S k) (Karenai.NextPage response)
                     (items ++ Karenai.Items response)%list); [|lia].
           now apply (@reaches_next httpExchange ctxDone k cursor items response).
      * exists k, cursor, items. split; [exact Hreach|]. split; [lia|].
        right. right. split; [exact Hdone|]. now left.
Qed.

(** X12. [FetchStocks] always starts, and an error ends its stream: the
    channel delivers stocks only, or stocks followed by exactly one error
    element, which is the last element before the channel is closed.  The
    error is the context's when the context was found done before a
    request, and the adapter's own [ExternalAPIError] when a page could not
    be fetched; the stocks of the pages fetched before it are delivered.
    Without an error the stream ends with the page that names no next page,
    or with the hundredth page.  Every run ends in one of these four ways. *)
Theorem FetchStocks_error_ends_stream
    (httpExchange : nat -> string -> option Karenai.APIResponse)
    (ctxDone : nat -> bool) :
  let delivered items :=
    map stockElement (map (Karenai.convertToStock ParseFloat) items) in
  (exists stocks last,
     Karenai.FetchStocks ParseFloat httpExchange ctxDone
     = Ok (map stockElement stocks ++ last)%list
     /\ (last = []
         \/ last = [errorElement ContextError]
         \/ last = [errorElement (ExternalAPIError "karenai")]))
  /\ (forall k cursor items,
        reaches httpExchange ctxDone k cursor items -> (k < 100)%nat ->
        ctxDone k = true ->
        Karenai.FetchStocks ParseFloat httpExchange ctxDone
        = Ok (delivered items ++ [errorElement ContextError])%list)
  /\ (forall k cursor items,
        reaches httpExchange ctxDone k cursor items -> (k < 100)%nat ->
        ctxDone k = false -> httpExchange k cursor = None ->
        Karenai.FetchStocks ParseFloat httpExchange ctxDone
        = Ok (delivered items ++ [errorElement (ExternalAPIError "karenai")])%list)
  /\ (forall k cursor items response,
        reaches httpExchange ctxDone k cursor items -> (k < 100)%nat ->
        ctxDone k = false -> httpExchange k cursor = Some response ->
        Karenai.NextPage response = "" ->
        Karenai.FetchStocks ParseFloat httpExchange ctxDone
        = Ok (delivered (items ++ Karenai.Items response)%list))
  /\ (forall cursor items,
        reaches httpExchange ctxDone 100 cursor items ->
        Karenai.FetchStocks ParseFloat httpExchange ctxDone = Ok (delivered items))
  /\ (exists k cursor items,
        reaches httpExchange ctxDone k cursor items /\ (k <= 100)%nat
        /\ (k = 100%nat
            \/ ctxDone k = true
            \/ (ctxDone k = false
                /\ (httpExchange k cursor = None
                    \/ exists response,
                         httpExchange k cursor = Some response
                         /\ Karenai.NextPage response = "")))).
Proof.
  intros delivered. unfold Karenai.FetchStocks.
  split; [|split; [|split; [|split; [|split]]]].
  - destruct (fetchLoop_error_last httpExchange ctxDone Karenai.maxPages 0 "")
      as (stocks & last & -> & Hlast).
    exists stocks, last. auto.
  - intros k cursor items Hreach Hk Hdone.
    rewrite (fetchLoop_reached Hreach (S (99 - k)))
      by (unfold Karenai.maxPages; lia).
    cbn [Karenai.fetchLoop]. now rewrite Hdone.
  - intros k cursor items Hreach Hk Hdone Hpage.
    rewrite (fetchLoop_reached Hreach (S (99 - k)))
      by (unfold Karenai.maxPages; lia).
    cbn [Karenai.fetchLoop]. unfold Karenai.fetchPage. now rewrite Hdone, Hpage.
  - intros k cursor items response Hreach Hk Hdone Hpage Hlast.
    rewrite (fetchLoop_reached Hreach (S (99 - k)))
      by (unfold Karenai.maxPages; lia).
    cbn [Karenai.fetchLoop]. unfold Karenai.fetchPage.
    rewrite Hdone, Hpage, Hlast. cbn [String.eqb].
    unfold delivered. rewrite app_nil_r, !map_app, !map_map. reflexivity.
  - intros cursor items Hreach.
    rewrite (fetchLoop_reached Hreach 0) by reflexivity.
    cbn [Karenai.fetchLoop]. now rewrite app_nil_r.
  - apply (@fetchLoop_ends httpExchange ctxDone 100 0 "" []);
      [apply reaches_first | reflexivity].
Qed.

Lemma fetchLoop_pages (exchange1 exchange2 : nat -> string -> option Karenai.APIResponse)
    (done1 done2 : nat -> bool) (fuel pageCount : nat) (nextPage : string) :
  (forall k cursor, (k < pageCount + fuel)%nat -> exchange1 k cursor = exchange2 k cursor) ->
  (forall k, (k < pageCount + fuel)%nat -> done1 k = done2 k) ->
  Karenai.fetchLoop ParseFloat exchange1 done1 fuel pageCount nextPage
  = Karenai.fetchLoop ParseFloat exchange2 done2 fuel pageCount nextPage.
Proof.
  revert pageCount nextPage.
  induction fuel as [|fuel IH]; intros pageCount nextPage Hex Hdone;
    cbn [Karenai.fetchLoop]; [reflexivity|].
  rewrite (Hdone pageCount) by lia. unfold Karenai.fetchPage.
  rewrite (Hex pageCount nextPage) by lia.
  destruct (done2 pageCount); [reflexivity|].
  destruct (exchange2 pageCount nextPage) as [response|]; [|reflexivity].
  destruct (Karenai.NextPage response =? ""); [reflexivity|].
  f_equal. apply IH; intros; [apply Hex | apply Hdone]; lia.
Qed.

(** X13. [FetchStocks] makes at most 100 requests: what the channel
    delivers does not depend on how the source would answer a request after
    the hundredth, nor on the context after the hundredth test.  So a source
    that has more than 100 pages gives the same channel as one that fails
    after the hundredth: the feed is cut there and nothing in the channel
    tells so. *)
Theorem FetchStocks_at_most_100_pages
    (exchange1 exchange2 : nat -> string -> option Karenai.APIResponse)
    (done1 done2 : nat -> bool) :
  (forall k cursor, (k < 100)%nat -> exchange1 k cursor = exchange2 k cursor) ->
  (forall k, (k < 100)%nat -> done1 k = done2 k) ->
  Karenai.FetchStocks ParseFloat exchange1 done1
  = Karenai.FetchStocks ParseFloat exchange2 done2.
Proof.
  intros Hex Hdone. unfold Karenai.FetchStocks. f_equal.
  apply fetchLoop_pages; assumption.
Qed.

End FeedLoop.

(** The source that fails to deliver its second page: the item of the first
    page, then the error of the adapter. *)
Lemma FetchStocks_error_ends_stream_witness :
  Karenai.FetchStocks parsesNothing feedFailingSecond neverDone
  = Ok [ stockElement (Karenai.convertToStock parsesNothing (collidingItem "ACME"));
         errorElement (ExternalAPIError "karenai") ].
Proof.
  destruct (FetchStocks_error_ends_stream parsesNothing feedFailingSecond neverDone)
    as (_ & _ & H & _).
  apply (H 1%nat "next" [collidingItem "ACME"]).
  - apply (@reaches_next feedFailingSecond neverDone 0 "" []
             (Karenai.mkAPIResponse [collidingItem "ACME"] "next")).
    + apply reaches_first.
    + reflexivity.
    + reflexivity.
    + discriminate.
  - lia.
  - reflexivity.
  - reflexivity.
Defined.

Lemma FetchStocks_at_most_100_pages_witness :
  (forall k cursor, (k < 100)%nat -> endlessFeed k cursor = feedFailingLate k cursor)
  /\ Karenai.FetchStocks parsesNothing endlessFeed neverDone
     = Karenai.FetchStocks parsesNothing feedFailingLate neverDone.
Proof.
  assert (Hex : forall k cursor, (k < 100)%nat ->
                  endlessFeed k cursor = feedFailingLate k cursor).
  { intros k cursor Hk. unfold feedFailingLate.
    destruct (Nat.ltb_spec k 100); [reflexivity | lia]. }
  split; [exact Hex|].
  exact (@FetchStocks_at_most_100_pages parsesNothing endlessFeed feedFailingLate
           neverDone neverDone Hex (fun k _ => eq_refl)).
Defined.

(** ** The queries of the store *)

Lemma firstn_skipn_add {A : Type} (a b : nat) (s : list A) :
  (firstn a s ++ firstn b (skipn a s))%list = firstn (a + b) s.
Proof.
  revert s. induction a as [|a IH]; intros s; [reflexivity|].
  destruct s as [|x s]; cbn [firstn skipn Nat.add app].
  - now rewrite firstn_nil.
  - now rewrite IH.
Qed.

Lemma orderBy_perm (column direction : string) (table : list Stock) :
  Permutation (Storage.orderBy column direction table) table.
Proof.
  unfold Storage.orderBy. destruct (direction =? "ASC"); apply sort_Slice_perm.
Qed.

Lemma In_firstn {A : Type} (n : nat) (s : list A) (x : A) :
  In x (firstn n s) -> In x s.
Proof.
  intros Hin. rewrite <- (firstn_skipn n s). apply in_or_app. now left.
Qed.

Lemma In_skipn {A : Type} (n : nat) (s : list A) (x : A) :
  In x (skipn n s) -> In x s.
Proof.
  intros Hin. rewrite <- (firstn_skipn n s). apply in_or_app. now right.
Qed.

(** X14. Whatever the request puts into [sort_by] and [sort_order], the
    ORDER BY clause that [applySorting] builds names one of the six columns
    of its list and the direction ASC or DESC: no text of the request
    reaches the clause. *)
Theorem applySorting_allow_list (filter : StockFilter) :
  In (fst (Storage.applySorting filter))
    ["ticker"; "company"; "brokerage"; "recommend_score"; "created_at"; "updated_at"]
  /\ (snd (Storage.applySorting filter) = "ASC"
      \/ snd (Storage.applySorting filter) = "DESC").
Proof.
  unfold Storage.applySorting. cbv zeta. cbn [fst snd]. split.
  - set (sortBy := if SortBy filter =? "" then "recommend_score" else SortBy filter).
    clearbody sortBy. unfold Storage.validSortFields. cbn [map_get].
    repeat match goal with
    | |- context [String.eqb sortBy ?k] =>
        destruct (String.eqb_spec sortBy k) as [->|?]; [cbn; tauto|]
    end.
    cbn. tauto.
  - destruct (String.eqb_spec (ToUpper (SortOrder filter)) "ASC") as [E|_];
      [left; exact E|].
    destruct (String.eqb_spec (ToUpper (SortOrder filter)) "DESC") as [E|_];
      [right; exact E | right; reflexivity].
Qed.

Lemma applyPagination_page (filter : StockFilter) (pageSize : Z) (p : nat)
    (table : list Stock) :
  (1 <= pageSize <= 100)%Z -> (Z.of_nat (S p) * pageSize < 2 ^ 63)%Z ->
  Storage.applyPagination
    (Stocks.setPage (Stocks.setPageSize filter pageSize) (Z.of_nat (S p))) table
  = firstn (Z.to_nat pageSize) (skipn (p * Z.to_nat pageSize) table).
Proof.
  intros Hsize Hbound. unfold Storage.applyPagination.
  cbn [Page PageSize Stocks.setPage Stocks.setPageSize].
  rewrite Z.gtb_ltb.
  destruct (Z.ltb_spec (Z.of_nat (S p)) 1); [lia|].
  destruct (Z.ltb_spec pageSize 1); [lia|].
  destruct (Z.ltb_spec 100 pageSize); [lia|]. cbn [orb].
  unfold int_mul, int_sub.
  assert (Hoff : (0 <= Z.of_nat p * pageSize <= Z.of_nat (S p) * pageSize)%Z).
  { split; [apply Z.mul_nonneg_nonneg; lia|].
    apply Z.mul_le_mono_nonneg_r; lia. }
  rewrite (@wrap64_small (Z.of_nat (S p) - 1)%Z) by lia.
  replace (Z.of_nat (S p) - 1)%Z with (Z.of_nat p) by lia.
  rewrite wrap64_small by lia.
  rewrite Z2Nat.inj_mul, Nat2Z.id by lia. reflexivity.
Qed.

(** X15. The pages of [applyPagination] tile the ordered result: for a
    page size between 1 and 100, the pages 1, 2, ..., n of one and the same
    ordered result, read in turn, are its first [n * pageSize] rows, each
    once and in order; they neither overlap nor leave a gap. *)
Theorem applyPagination_pages_tile (filter : StockFilter) (pageSize : Z) (n : nat)
    (table : list Stock) :
  (1 <= pageSize <= 100)%Z -> (Z.of_nat n * pageSize < 2 ^ 63)%Z ->
  concat (map (fun p => Storage.applyPagination
                          (Stocks.setPage (Stocks.setPageSize filter pageSize)
                             (Z.of_nat p)) table)
            (seq 1 n))
  = firstn (n * Z.to_nat pageSize) table.
Proof.
  intros Hsize. induction n as [|n IH]; intros Hbound; [reflexivity|].
  rewrite seq_S, map_app, concat_app. cbn [map concat Nat.add].
  rewrite app_nil_r, IH, applyPagination_page by nia.
  rewrite firstn_skipn_add. f_equal. lia.
Qed.

Lemma applyPagination_pages_tile_witness :
  (1 <= 2 <= 100)%Z /\ (Z.of_nat 2 * 2 < 2 ^ 63)%Z
  /\ concat (map (fun p => Storage.applyPagination
                             (Stocks.setPage
                                (Stocks.setPageSize
                                   (mkStockFilter "" "" "" "" "" "" "" 0 0) 2)
                                (Z.of_nat p))
                             (Mocks.Stocks Mocks.NewMockStocksRepository))
               (seq 1 2))
     = Mocks.Stocks Mocks.NewMockStocksRepository.
Proof.
  assert (Hsize : (1 <= 2 <= 100)%Z) by lia.
  assert (Hbound : (Z.of_nat 2 * 2 < 2 ^ 63)%Z) by (vm_compute; reflexivity).
  split; [exact Hsize|]. split; [exact Hbound|].
  exact (@applyPagination_pages_tile (mkStockFilter "" "" "" "" "" "" "" 0 0) 2 2
           (Mocks.Stocks Mocks.NewMockStocksRepository) Hsize Hbound).
Defined.

Section StoreQueries.
Variable sqlLower : string -> string.
Variable sqlLike : string -> string -> bool.

(** X16. [GetAll] of the store answers with rows of the table that pass
    the filter, no more of them than the page size in force (the one asked
    for when it is between 1 and 100, else 20), and with the number of all
    rows that pass the filter, which does not depend on the page asked for;
    when the connection is down it fails with the storage error of the
    count. *)
Theorem storageGetAll_sound (table : list Stock) (filter : StockFilter) :
  (exists stocks,
     Storage.storageGetAll sqlLower sqlLike (Storage.mkStorage table false) filter
     = Ok (stocks,
           len (List.filter (Storage.applyFilters sqlLower sqlLike filter) table))
     /\ (len stocks
         <= (if ((PageSize filter <? 1) || (PageSize filter >? 100))%Z then 20
             else PageSize filter) <= 100)%Z
     /\ Forall (fun row => In row table
                  /\ Storage.applyFilters sqlLower sqlLike filter row = true) stocks)
  /\ Storage.storageGetAll sqlLower sqlLike (Storage.mkStorage table true) filter
     = Err (StorageError "count").
Proof.
  split; [|reflexivity].
  unfold Storage.storageGetAll. cbn [Storage.down Storage.rows].
  destruct (Storage.applySorting filter) as [column direction].
  eexists. split; [reflexivity|]. split.
  - unfold Storage.applyPagination, len. rewrite length_firstn.
    rewrite Z.gtb_ltb.
    destruct (Z.ltb_spec (PageSize filter) 1), (Z.ltb_spec 100 (PageSize filter));
      cbn [orb]; lia.
  - apply Forall_forall. intros row Hrow.
    unfold Storage.applyPagination in Hrow.
    apply In_firstn, In_skipn in Hrow.
    apply (Permutation_in _ (orderBy_perm column direction _)) in Hrow.
    apply filter_In in Hrow. exact Hrow.
Qed.

(** X17. GET /stocks/search, from the handler through the service to the
    store: with a query that is not empty the answer is 200 with
    [min n matches] stocks, each a row of the table that matches the query,
    where [n] is the number the parameter [limit] parses to when it is
    between 1 and 50, and 10 otherwise.  A request for more than 50 is
    answered with 10 stocks at most, not with 50. *)
Theorem SearchStocks_limit (Atoi : string -> option Z) (table : list Stock)
    (t0 : Time) (query limitStr : string) :
  query <> "" ->
  let s := Stocks.mkService (Storage.mkStorage table false) false t0 in
  let requested := if limitStr =? "" then None else Atoi limitStr in
  let n := match requested with
           | Some l => if ((1 <=? l) && (l <=? 50))%Z then l else 10%Z
           | None => 10%Z
           end in
  let matches := List.filter (Storage.searchMatches sqlLower sqlLike query) table in
  exists stocks,
    Httpapi.SearchStocks Atoi (Storage.storageSearch sqlLower sqlLike) s query limitStr
    = (Httpapi.StatusOK, Some stocks)
    /\ len stocks = Z.min n (len matches)
    /\ Forall (fun row => In row table
                 /\ Storage.searchMatches sqlLower sqlLike query row = true) stocks.
Proof.
  intros Hquery s requested n matches.
  unfold Httpapi.SearchStocks, Stocks.SearchStocks, Storage.storageSearch.
  destruct (String.eqb_spec query "") as [|_]; [contradiction|].
  cbn [Stocks.storage s Storage.down Storage.rows]. fold matches.
  set (limit := if ((_ <? 1) || (_ >? 50))%Z then 10%Z else _).
  assert (Hlimit : limit = n /\ (1 <= n <= 50)%Z).
  { unfold limit, n, requested, Httpapi.searchLimit.
    destruct (limitStr =? ""); cbn [negb]; [cbn; lia|].
    destruct (Atoi limitStr) as [l|]; [|cbn; lia].
    rewrite !Z.gtb_ltb.
    destruct (Z.ltb_spec 0 l), (Z.leb_spec 1 l), (Z.leb_spec l 50); cbn [andb];
      try lia;
      match goal with
      | |- context [(?x <? 1)%Z] => destruct (Z.ltb_spec x 1)
      end;
      match goal with
      | |- context [(50 <? ?x)%Z] => destruct (Z.ltb_spec 50 x)
      end; cbn [orb]; lia. }
  destruct Hlimit as [-> Hn].
  eexists. split; [reflexivity|]. split.
  - unfold len. rewrite length_firstn, orderBy_length. lia.
  - apply Forall_forall. intros row Hrow.
    apply In_firstn in Hrow.
    apply (Permutation_in _ (orderBy_perm _ _ _)) in Hrow.
    apply filter_In in Hrow. exact Hrow.
Qed.

End StoreQueries.

(** Two of the three stocks of the mock match "inc"; the twelve rows of one
    company all match "acme", and a request for 75 of them is answered
    with 10. *)
Lemma SearchStocks_limit_witness :
  "inc" <> ""
  /\ (exists stocks,
        Httpapi.SearchStocks exampleAtoi (Storage.storageSearch ToLower exampleLike)
          (Stocks.mkService
             (Storage.mkStorage (Mocks.Stocks Mocks.NewMockStocksRepository) false)
             false zeroTime)
          "inc" "5"
        = (Httpapi.StatusOK, Some stocks)
        /\ len stocks = 2%Z
        /\ Forall (fun row => In row (Mocks.Stocks Mocks.NewMockStocksRepository)
                     /\ Storage.searchMatches ToLower exampleLike "inc" row = true)
             stocks)
  /\ (exists stocks,
        Httpapi.SearchStocks exampleAtoi (Storage.storageSearch ToLower exampleLike)
          (Stocks.mkService (Storage.mkStorage twelveStocks false) false zeroTime)
          "acme" "75"
        = (Httpapi.StatusOK, Some stocks)
        /\ len stocks = 10%Z).
Proof.
  assert (Hquery : "inc" <> "") by discriminate.
  assert (Hquery' : "acme" <> "") by discriminate.
  split; [exact Hquery|]. split.
  - pose proof (@SearchStocks_limit ToLower exampleLike exampleAtoi
                  (Mocks.Stocks Mocks.NewMockStocksRepository) zeroTime "inc" "5" Hquery)
      as Hsearch.
    cbv zeta in Hsearch. destruct Hsearch as (stocks & Hrun & Hlen & Hrows).
    exists stocks. split; [exact Hrun|]. split; [|exact Hrows].
    rewrite Hlen. vm_compute. reflexivity.
  - pose proof (@SearchStocks_limit ToLower exampleLike exampleAtoi
                  twelveStocks zeroTime "acme" "75" Hquery')
      as Hsearch.
    cbv zeta in Hsearch. destruct Hsearch as (stocks & Hrun & Hlen & _).
    exists stocks. split; [exact Hrun|].
    rewrite Hlen. vm_compute. reflexivity.
Defined.

(** ** The store as a table keyed by identity *)

Lemma find_upsert_same (table : list Stock) (stock : Stock) :
  find (fun row => ID row =? ID stock) (Storage.upsert table stock) = Some stock.
Proof.
  induction table as [|row table IH]; cbn [Storage.upsert find].
  - now rewrite String.eqb_refl.
  - destruct (ID row =? ID stock) eqn:E; cbn [find].
    + now rewrite String.eqb_refl.
    + now rewrite E.
Qed.

Lemma find_upsert_other (table : list Stock) (stock : Stock) (id : string) :
  id <> ID stock ->
  find (fun row => ID row =? id) (Storage.upsert table stock)
  = find (fun row => ID row =? id) table.
Proof.
  intros Hid. apply not_eq_sym in Hid. apply String.eqb_neq in Hid.
  induction table as [|row table IH]; cbn [Storage.upsert find].
  - now rewrite Hid.
  - destruct (String.eqb_spec (ID row) (ID stock)) as [E|E]; cbn [find].
    + rewrite Hid. rewrite E, Hid. reflexivity.
    + now rewrite IH.
Qed.

Lemma find_fold_upsert_other (stocks table : list Stock) (id : string) :
  ~ In id (map ID stocks) ->
  find (fun row => ID row =? id) (fold_left Storage.upsert stocks table)
  = find (fun row => ID row =? id) table.
Proof.
  revert table. induction stocks as [|stock stocks IH]; intros table Hid;
    [reflexivity|].
  cbn [fold_left map In] in *. rewrite IH by tauto.
  apply find_upsert_other. intros ->. tauto.
Qed.

Lemma find_fold_upsert_same (stocks table : list Stock) (stock : Stock) :
  NoDup (map ID stocks) -> In stock stocks ->
  find (fun row => ID row =? ID stock) (fold_left Storage.upsert stocks table)
  = Some stock.
Proof.
  revert table. induction stocks as [|x stocks IH]; intros table Hnodup Hin;
    [contradiction|].
  cbn [fold_left map] in *. inversion Hnodup as [|? ? Hx Hrest]; subst.
  destruct Hin as [->|Hin].
  - rewrite find_fold_upsert_other by exact Hx. apply find_upsert_same.
  - now apply IH.
Qed.

Lemma upsert_ids_new (table : list Stock) (stock : Stock) :
  ~ In (ID stock) (map ID table) ->
  map ID (Storage.upsert table stock) = (map ID table ++ [ID stock])%list.
Proof.
  induction table as [|row table IH]; cbn [map In Storage.upsert app]; [easy|].
  intros Hnew. destruct (String.eqb_spec (ID row) (ID stock)) as [E|E]; [tauto|].
  cbn [map]. f_equal. apply IH. tauto.
Qed.

Lemma upsert_key_unique (table : list Stock) (stock : Stock) :
  NoDup (map ID table) -> NoDup (map ID (Storage.upsert table stock)).
Proof.
  intros Hnodup.
  destruct (in_dec string_dec (ID stock) (map ID table)) as [Hin|Hnew].
  - now rewrite upsert_ids_known.
  - rewrite upsert_ids_new by exact Hnew.
    apply NoDup_app; [exact Hnodup | repeat constructor; easy |].
    intros id Hid [<- | []]. contradiction.
Qed.

(** X18. [SaveBatch] of the store is an upsert keyed by the identity.  For
    a batch whose identities are distinct: every record of the batch is then
    found by [GetByID] under its identity, with the fields and the score it
    was saved with; a lookup under an identity that is not in the batch
    answers as before; and a table that held at most one row per identity
    still does. *)
Theorem storageSaveBatch_upsert (table batch : list Stock) :
  NoDup (map ID batch) ->
  let saved := fst (Storage.storageSaveBatch (Storage.mkStorage table false) batch) in
  snd (Storage.storageSaveBatch (Storage.mkStorage table false) batch) = None
  /\ (forall stock, In stock batch ->
        exists row, Storage.storageGetByID saved (ID stock) = Ok row
                    /\ writtenFields row = writtenFields stock)
  /\ (forall id, ~ In id (map ID batch) ->
        Storage.storageGetByID saved id
        = Storage.storageGetByID (Storage.mkStorage table false) id)
  /\ (NoDup (map ID table) -> NoDup (map ID (Storage.rows saved))).
Proof.
  intros Hnodup saved.
  assert (Hsaved : saved = Storage.mkStorage (fold_left Storage.upsert batch table) false
                   /\ snd (Storage.storageSaveBatch (Storage.mkStorage table false) batch)
                      = None).
  { unfold saved, Storage.storageSaveBatch. cbn [Storage.down Storage.rows].
    destruct batch as [|stock batch]; [split; reflexivity|].
    replace (len (stock :: batch) =? 0)%Z with false
      by (symmetry; apply Z.eqb_neq; unfold len; cbn [length]; lia).
    split; reflexivity. }
  destruct Hsaved as [-> Hnone]. split; [exact Hnone|].
  unfold Storage.storageGetByID. cbn [Storage.down Storage.rows].
  split; [|split].
  - intros stock Hin. rewrite find_fold_upsert_same by assumption. eauto.
  - intros id Hid. now rewrite find_fold_upsert_other.
  - clear Hnodup Hnone. revert table.
    induction batch as [|stock batch IH]; intros table Htable; [exact Htable|].
    cbn [fold_left]. apply IH, upsert_key_unique, Htable.
Qed.

Lemma storageSaveBatch_upsert_witness :
  NoDup (map ID (Mocks.FetcherStocks Mocks.NewMockStocksFetcher))
  /\ exists row,
       Storage.storageGetByID
         (fst (Storage.storageSaveBatch
                 (Storage.mkStorage (Mocks.Stocks Mocks.NewMockStocksRepository) false)
                 (Mocks.FetcherStocks Mocks.NewMockStocksFetcher)))
         "mock-2" = Ok row
       /\ Ticker row = "AKBA".
Proof.
  assert (Hnodup : NoDup (map ID (Mocks.FetcherStocks Mocks.NewMockStocksFetcher))).
  { vm_compute. repeat constructor; simpl; intuition discriminate. }
  split; [exact Hnodup|].
  pose proof (@storageSaveBatch_upsert (Mocks.Stocks Mocks.NewMockStocksRepository)
                (Mocks.FetcherStocks Mocks.NewMockStocksFetcher) Hnodup) as Hsave.
  cbv zeta in Hsave. destruct Hsave as (_ & Hfound & _).
  destruct (Hfound (mkStock "mock-2" "AKBA" "Akebia Therapeutics" "Analyst Firm"
                      "target lowered by" "" "Buy" (of_Z 0) (of_Z 0) (of_Z 0)
                      zeroTime zeroTime)) as (row & Hrow & Hfields);
    [cbn; tauto|].
  exists row. split; [exact Hrow|].
  unfold writtenFields, fetchedFields in Hfields. now injection Hfields.
Defined.

(** X19. [Delete] of the store removes every row with the identity and
    reports not found when there is none: after a deletion that succeeded,
    [GetByID] under that identity says not found and the lookups under the
    other identities answer as before; a deletion under an identity that no
    row has fails with [ErrStockNotFound] and leaves the store as it was. *)
Theorem storageDelete_lookup (table : list Stock) (id : string) :
  let s := Storage.mkStorage table false in
  (In id (map ID table) ->
     snd (Storage.storageDelete s id) = None
     /\ Storage.storageGetByID (fst (Storage.storageDelete s id)) id
        = Err ErrStockNotFound
     /\ forall other, other <> id ->
          Storage.storageGetByID (fst (Storage.storageDelete s id)) other
          = Storage.storageGetByID s other)
  /\ (~ In id (map ID table) ->
        Storage.storageDelete s id = (s, Some ErrStockNotFound)).
Proof.
  cbv zeta. unfold Storage.storageDelete, Storage.storageGetByID.
  cbn [Storage.down Storage.rows]. split.
  - intros Hin.
    assert (Hex : existsb (fun row => ID row =? id) table = true).
    { apply existsb_exists. apply in_map_iff in Hin. destruct Hin as (row & <- & Hrow).
      exists row. split; [exact Hrow | apply String.eqb_refl]. }
    rewrite Hex. cbn [fst snd Storage.down Storage.rows].
    split; [reflexivity|]. split.
    + clear. induction table as [|row table IH]; [reflexivity|].
      cbn [filter]. destruct (ID row =? id) eqn:E; cbn [negb]; [exact IH|].
      cbn [find]. now rewrite E.
    + intros other Hother. clear - Hother.
      induction table as [|row table IH]; [reflexivity|].
      cbn [filter find].
      destruct (String.eqb_spec (ID row) id) as [E|E]; cbn [negb].
      * rewrite IH. destruct (String.eqb_spec (ID row) other) as [E'|_];
          [congruence | reflexivity].
      * cbn [find]. destruct (ID row =? other); [reflexivity | exact IH].
  - intros Hnot.
    assert (Hex : existsb (fun row => ID row =? id) table = false).
    { apply not_true_iff_false. intros Hex. apply existsb_exists in Hex.
      destruct Hex as (row & Hrow & E). apply String.eqb_eq in E. subst id.
      apply Hnot, in_map, Hrow. }
    now rewrite Hex.
Qed.

(** ** The mock repository *)

Lemma removeFirst_spec (id : string) (stocks : list Stock) :
  match Mocks.removeFirst id stocks with
  | Some rest =>
      exists before stock after_,
        stocks = (before ++ stock :: after_)%list /\ ID stock = id
        /\ ~ In id (map ID before) /\ rest = (before ++ after_)%list
  | None => ~ In id (map ID stocks)
  end.
Proof.
  induction stocks as [|stock stocks IH]; cbn [Mocks.removeFirst]; [easy|].
  destruct (String.eqb_spec (ID stock) id) as [E|E].
  - exists [], stock, stocks. auto.
  - destruct (Mocks.removeFirst id stocks) as [rest|].
    + destruct IH as (before & x & after_ & -> & Hx & Hbefore & ->).
      exists (stock :: before), x, after_. cbn [app map In]. intuition.
    + cbn [map In]. tauto.
Qed.

(** X20. [Delete] of the mock repository removes the first stock that has
    the identity and no other: the stocks before it and after it stay, in
    their order, so a second stock with the same identity is still found
    afterwards.  With no such stock it fails with [ErrStockNotFound], and
    with the error of the mock set it fails with that error; the mock is
    then as it was. *)
Theorem mockDelete_first (m : Mocks.MockStocksRepository) (id : string) :
  match Mocks.Error m with
  | Some e => Mocks.mockDelete m id = (m, Some e)
  | None =>
      (exists before stock after_,
         Mocks.Stocks m = (before ++ stock :: after_)%list
         /\ ID stock = id /\ ~ In id (map ID before)
         /\ Mocks.mockDelete m id
            = (Mocks.mkMockStocksRepository (before ++ after_) None (Mocks.SaveError m),
               None))
      \/ (~ In id (map ID (Mocks.Stocks m))
          /\ Mocks.mockDelete m id = (m, Some ErrStockNotFound))
  end.
Proof.
  unfold Mocks.mockDelete. destruct (Mocks.Error m) as [e|] eqn:Ee; [reflexivity|].
  pose proof (removeFirst_spec id (Mocks.Stocks m)) as Hspec.
  destruct (Mocks.removeFirst id (Mocks.Stocks m)) as [rest|].
  - left. destruct Hspec as (before & stock & after_ & Hm & Hid & Hbefore & ->).
    exists before, stock, after_. auto.
  - right. auto.
Qed.

(** ** The handler of the recommendations *)

(** X21. GET /recommendations, from the handler through the ranker to
    the repository: with [n] the number the parameter [limit] parses to when
    it is between 1 and 100, and 10 otherwise, the handler asks the
    repository for [2 * n] candidates; it answers 200 with [min n c]
    recommendations when the repository returns [c] candidates, and 500
    when the repository fails. *)
Theorem GetRecommendations_limit {R : Type} `{StocksRepository R}
    (Atoi : string -> option Z) (repo : R) (limitStr : string) :
  let requested := if limitStr =? "" then None else Atoi limitStr in
  let n := match requested with
           | Some l => if ((1 <=? l) && (l <=? 100))%Z then l else 10%Z
           | None => 10%Z
           end in
  match GetTopRecommended repo (n * 2)%Z with
  | Ok stocks =>
      exists recs,
        Httpapi.GetRecommendations Atoi repo limitStr = (Httpapi.StatusOK, Some recs)
        /\ len recs = Z.min n (len stocks)
  | Err e =>
      Httpapi.GetRecommendations Atoi repo limitStr
      = (Httpapi.StatusInternalServerError, None)
  end.
Proof.
  intros requested n.
  unfold Httpapi.GetRecommendations, Recommendation.GetTopRecommendations.
  assert (Hlimit : Httpapi.recommendationsLimit Atoi limitStr = n /\ (1 <= n <= 100)%Z).
  { unfold n, requested, Httpapi.recommendationsLimit.
    destruct (limitStr =? ""); cbn [negb]; [lia|].
    destruct (Atoi limitStr) as [l|]; [|lia].
    rewrite Z.gtb_ltb.
    destruct (Z.ltb_spec 0 l), (Z.leb_spec 1 l), (Z.leb_spec l 100); cbn [andb]; lia. }
  destruct Hlimit as [-> Hn].
  rewrite effectiveLimit_spec.
  destruct (Z.leb_spec 1 n), (Z.leb_spec n 100); try lia. cbn [andb].
  destruct (GetTopRecommended repo (n * 2)%Z) as [stocks|e]; [|reflexivity].
  eexists. split; [reflexivity|].
  unfold len. rewrite assignRanks_length.
  set (sorted := sort_Slice _ _).
  assert (Hsorted : length sorted = length stocks).
  { unfold sorted. rewrite sort_Slice_length. apply length_map. }
  rewrite Z.gtb_ltb.
  destruct (Z.ltb_spec n (Z.of_nat (length sorted))).
  - rewrite length_firstn. lia.
  - lia.
Qed.

(** ** The candidates the ranker drops *)

Lemma StronglySorted_firstn_skipn {A : Type} (R : A -> A -> Prop) (n : nat)
    (s : list A) :
  StronglySorted R s ->
  Forall (fun x => Forall (fun y => R x y) (skipn n s)) (firstn n s).
Proof.
  intros Hsorted. revert n.
  induction Hsorted as [|x s Hsorted IH Hx]; intros [|n]; cbn [firstn skipn];
    constructor; [|apply IH].
  apply Forall_forall. intros y Hy. rewrite Forall_forall in Hx.
  apply Hx. rewrite <- (firstn_skipn n s). apply in_or_app. now right.
Qed.

(** X22. [GetTopRecommendations] keeps the best of the candidates: the
    stocks it returns together with those it drops are the candidates the
    repository gave, each once, and no dropped candidate has a
    recommendation-time score above that of a returned one. *)
Theorem GetTopRecommendations_keeps_best {R : Type} `{StocksRepository R}
    (repo : R) (limit : Z) (stocks : list Stock) :
  GetTopRecommended repo (Recommendation.effectiveLimit limit * 2)%Z = Ok stocks ->
  exists recs dropped,
    Recommendation.GetTopRecommendations repo limit = Ok recs
    /\ Permutation (map RecStock recs ++ dropped) stocks
    /\ Forall (fun d =>
                 Forall (fun r => (Recommendation.CalculateScore d <= Score r)%f64) recs)
         dropped.
Proof.
  intros Hfetch. unfold Recommendation.GetTopRecommendations. rewrite Hfetch.
  set (n := Recommendation.effectiveLimit limit).
  set (scored := map _ stocks).
  set (sorted := sort_Slice _ scored).
  assert (Hstocks : map RecStock scored = stocks).
  { unfold scored. rewrite map_map. cbn [RecStock]. apply map_id. }
  assert (Hscores : Forall (fun r => Score r = Recommendation.CalculateScore (RecStock r))
                      sorted).
  { apply Forall_forall. intros r Hr.
    apply (Permutation_in _ (sort_Slice_perm _ scored)) in Hr.
    apply in_map_iff in Hr. destruct Hr as (stock & <- & _). reflexivity. }
  assert (Hsorted : StronglySorted (fun a b => (Score b <= Score a)%f64) sorted).
  { apply sort_Slice_by_score. apply Forall_forall. intros r Hr.
    apply in_map_iff in Hr. destruct Hr as (stock & <- & _). cbn [Score].
    eapply le_not_nan. apply recommendation_score_bounds. }
  assert (Hperm : Permutation (map RecStock sorted) stocks).
  { rewrite <- Hstocks. apply Permutation_map, sort_Slice_perm. }
  destruct (len sorted >? n)%Z.
  - exists (Recommendation.assignRanks 0 (firstn (Z.to_nat n) sorted)),
           (map RecStock (skipn (Z.to_nat n) sorted)).
    split; [reflexivity|]. split.
    + rewrite assignRanks_stocks, <- map_app, firstn_skipn. exact Hperm.
    + pose proof (StronglySorted_firstn_skipn (Z.to_nat n) Hsorted) as Hsplit.
      rewrite Forall_forall in Hsplit, Hscores.
      apply Forall_forall. intros d Hd. apply in_map_iff in Hd.
      destruct Hd as (y & <- & Hy).
      apply Forall_forall. intros r Hr.
      assert (Hscore : In (Score r) (map Score (firstn (Z.to_nat n) sorted))).
      { rewrite <- (assignRanks_scores 0). now apply in_map. }
      apply in_map_iff in Hscore. destruct Hscore as (x & Hx & Hin).
      rewrite <- Hx, <- (Hscores y) by (eapply In_skipn; exact Hy).
      pose proof (Hsplit x Hin) as Hbelow. rewrite Forall_forall in Hbelow.
      now apply Hbelow.
  - exists (Recommendation.assignRanks 0 sorted), [].
    split; [reflexivity|]. split; [|constructor].
    now rewrite assignRanks_stocks, app_nil_r.
Qed.

Lemma GetTopRecommendations_keeps_best_witness :
  GetTopRecommended Mocks.NewMockStocksRepository
    (Recommendation.effectiveLimit 1 * 2)%Z
  = Ok (firstn 2 (Mocks.Stocks Mocks.NewMockStocksRepository))
  /\ exists recs dropped,
       Recommendation.GetTopRecommendations Mocks.NewMockStocksRepository 1 = Ok recs
       /\ Permutation (map RecStock recs ++ dropped)
            (firstn 2 (Mocks.Stocks Mocks.NewMockStocksRepository)).
Proof.
  assert (Hfetch : GetTopRecommended Mocks.NewMockStocksRepository
                     (Recommendation.effectiveLimit 1 * 2)%Z
                   = Ok (firstn 2 (Mocks.Stocks Mocks.NewMockStocksRepository)))
    by reflexivity.
  split; [exact Hfetch|].
  destruct (GetTopRecommendations_keeps_best Mocks.NewMockStocksRepository 1 Hfetch)
    as (recs & dropped & Hrecs & Hperm & _).
  exists recs, dropped. split; [exact Hrecs | exact Hperm].
Defined.
